(** * koishi-plugin-music-player-ncm: cache, fetch coordination, selection
      sessions, rate limiting and the request envelope

    A shallow embedding of [src/index.ts] (the closure of [apply]) and of the
    envelope encoder of [src/service.ts], with the properties of the design
    document proved or refuted on it.

    - Data is modelled as the code has it: table rows, search results and
      sessions are records; the [Map]s and the [Set] of the closure are
      [gmap]s and a [gset]; the [ncm_cache] table is the list of its rows in
      storage order; byte counts and millisecond timestamps are [Z];
      [BigInt] is [Z]; a value of [Math.random()] is a binary64 number given
      by its mantissa and scale.  Numbers of the configuration are integers,
      as their defaults are.  A text whose characters the code inspects (a
      reply, a title, a command line) is the list of its UTF-16 code units;
      identifiers, paths and message keys are [string]s.
    - Every [async] function is a value of the resumable monad [Prog]: a
      tree whose [Await] nodes are the [await] suspension points on a
      collaborator (database, filesystem, network, chat transport) and whose
      [Sync] nodes are the synchronous accesses to the closure's state.
      [run] executes a program alone; [resume] executes one task of a pool up
      to its next suspension, which gives the interleavings of the
      single-threaded event loop.
    - The collaborators are a state ([World]) and a behaviour ([Env]): the
      table, the set of files that exist, the pending timers, the clock, the
      answers of the remote service, and which database and filesystem calls
      fail.  [path.resolve] is modelled for POSIX paths; the other functions
      of Node and of the chat framework that only compute a string, and the
      process's working directory, are the fields of [Host].

    Layout: the model; the notions the properties are stated with; concrete
    worlds; then the lemmas and the properties, subsystem by subsystem. *)

From Stdlib Require Import ZArith Lia Ascii.
From stdpp Require Import gmap strings list sorting.

Local Open Scope Z_scope.

(** ** Data model *)

(** A JavaScript string as the list of its UTF-16 code units. *)
Abbreviation jsString := (list N).

(** An ASCII literal of the source as code units. *)
Definition lit (s : string) : jsString :=
  (fun c => N.of_nat (nat_of_ascii c)) <$> String.list_ascii_of_string s.

(** [database.ts]: one row of the [ncm_cache] table.  Optional and nullable
    columns are [option]s. *)
Record MusicCache := {
  mc_id : string;
  mc_name : jsString;
  mc_artist : jsString;
  mc_url : string;
  mc_cached : bool;
  mc_cachePath : option string;
  mc_fileSize : option Z;
  mc_cacheTime : option Z;
  mc_bitrate : Z;
}.

(** [service.ts]: [SearchResult] and [SongUrl]. *)
Record SearchResult := {
  sr_id : string;
  sr_name : jsString;
  sr_artist : jsString;
  sr_album : jsString;
  sr_duration : Z;
  sr_fee : Z;
}.

Record SongUrl := {
  su_id : string;
  su_url : string;
  su_br : Z;
  su_size : Z;
  su_md5 : string;
  su_type : string;
}.

Inductive SendFormat := FmtFile | FmtAudio.

Record Config := {
  cookie : string;
  bitrate : Z;
  searchTimeout : Z;
  searchPageSize : Z;
  mergeSearchResults : bool;
  sendFormat : SendFormat;
  rateLimitEnabled : bool;
  rateLimitInterval : Z;
  rateLimitGlobal : bool;
  cacheMaxSize : Z;
  cachePath : string;
}.

(** The part of a Koishi [Session] the plugin reads. *)
Record Session := {
  platform : string;
  channelId : option string;
  userId : string;
  content : option jsString;
  strippedContent : option jsString;
  onebot : bool;
}.

(** [interface SearchSession]; [ss_timeout] is the handle [setTimeout]
    returned. *)
Record SearchSession := {
  ss_results : list SearchResult;
  ss_timeout : nat;
  ss_sendFormat : option SendFormat;
  ss_compress : bool;
}.

(** What [session.send] is given: a localized text (by its message key), the
    candidate list, or a media element. *)
Inductive Msg :=
| Text (key : string)
| SearchPrompt (merged : bool) (resultText : string)
| Audio (src : string) (title : jsString)
| FileMsg (src : string) (title : jsString).

Inductive exn :=
| DbError
| DuplicateEntry
| PrimaryKeyUpdate
| FsError (path : string)
| NetError
| FfmpegError
| MissingCachePath.

Inductive outcome (A : Type) :=
| Ok (a : A)
| Err (e : exn).
Arguments Ok {A} a.
Arguments Err {A} e.

(** JavaScript truthiness of an optional string, and [x || d]. *)
Definition truthy (s : option string) : option string :=
  match s with
  | Some EmptyString => None
  | other => other
  end.

Definition truthyText (s : option jsString) : option jsString :=
  match s with
  | Some [] => None
  | other => other
  end.

Definition orZero (n : option Z) : Z := default 0 n.

(** ** The world the plugin runs in *)

Inductive Query :=
| QCached (b : bool)
| QId (id : string).

Definition matches (q : Query) (c : MusicCache) : bool :=
  match q with
  | QCached b => Bool.eqb (mc_cached c) b
  | QId i => String.eqb (mc_id c) i
  end.

Inductive LogLevel := LWarn | LError.

(** Effects that were carried out, in order. *)
Inductive Event :=
| ESent (to : string) (m : Msg)
| ELogged (level : LogLevel) (what : string)
| EResolved (id : string)
| EUnlinked (path : string)
| EWritten (path : string)
| EDbSet (id : string)
| EDbCreated (id : string).

(** How the database answers an insert whose primary key is taken.  The
    table is declared with [primary: 'id'], so a second row is never added. *)
Inductive DupPolicy := RejectDuplicate | ReplaceExisting.

(** How the database answers an update whose new values name the primary
    key (the code passes [cacheData], which carries [id], to
    [database.set]). *)
Inductive KeyPolicy := RejectKeyUpdate | AcceptKeyUpdate.

(** Behaviour of the collaborators that the plugin does not change. *)
Record Env := {
  remoteSearch : string -> outcome (list SearchResult);
  remoteUrl : string -> outcome (option SongUrl);
  remoteBlob : string -> outcome string;
  dbSetFail : gset string;      (* ids whose [database.set] throws *)
  unlinkFail : gset string;     (* existing paths [fs.unlink] cannot remove *)
  dupPolicy : DupPolicy;
  keyPolicy : KeyPolicy;
  hasFfmpeg : bool;
}.

Record World := {
  (* closure state of [apply] *)
  searchSessions : gmap string SearchSession;
  rateLimitMap : gmap string Z;
  downloadLocks : gset string;
  (* collaborators *)
  table : list MusicCache;
  files : gset string;
  timers : gmap nat (Z * string);  (* pending [setTimeout]s: due time, session key *)
  nextTimer : nat;
  now : Z;                         (* [Date.now()] *)
  dbGetPlan : list bool;           (* outcomes of the next [database.get] calls: [true] throws *)
  log : list Event;
  env : Env;
}.

Definition set_searchSessions (f : gmap string SearchSession -> gmap string SearchSession) (w : World) : World :=
  {| searchSessions := f (searchSessions w); rateLimitMap := rateLimitMap w;
     downloadLocks := downloadLocks w; table := table w; files := files w;
     timers := timers w; nextTimer := nextTimer w; now := now w;
     dbGetPlan := dbGetPlan w; log := log w; env := env w |}.

Definition set_rateLimitMap (f : gmap string Z -> gmap string Z) (w : World) : World :=
  {| searchSessions := searchSessions w; rateLimitMap := f (rateLimitMap w);
     downloadLocks := downloadLocks w; table := table w; files := files w;
     timers := timers w; nextTimer := nextTimer w; now := now w;
     dbGetPlan := dbGetPlan w; log := log w; env := env w |}.

Definition set_downloadLocks (f : gset string -> gset string) (w : World) : World :=
  {| searchSessions := searchSessions w; rateLimitMap := rateLimitMap w;
     downloadLocks := f (downloadLocks w); table := table w; files := files w;
     timers := timers w; nextTimer := nextTimer w; now := now w;
     dbGetPlan := dbGetPlan w; log := log w; env := env w |}.

Definition set_table (f : list MusicCache -> list MusicCache) (w : World) : World :=
  {| searchSessions := searchSessions w; rateLimitMap := rateLimitMap w;
     downloadLocks := downloadLocks w; table := f (table w); files := files w;
     timers := timers w; nextTimer := nextTimer w; now := now w;
     dbGetPlan := dbGetPlan w; log := log w; env := env w |}.

Definition set_files (f : gset string -> gset string) (w : World) : World :=
  {| searchSessions := searchSessions w; rateLimitMap := rateLimitMap w;
     downloadLocks := downloadLocks w; table := table w; files := f (files w);
     timers := timers w; nextTimer := nextTimer w; now := now w;
     dbGetPlan := dbGetPlan w; log := log w; env := env w |}.

Definition set_timers (f : gmap nat (Z * string) -> gmap nat (Z * string)) (w : World) : World :=
  {| searchSessions := searchSessions w; rateLimitMap := rateLimitMap w;
     downloadLocks := downloadLocks w; table := table w; files := files w;
     timers := f (timers w); nextTimer := nextTimer w; now := now w;
     dbGetPlan := dbGetPlan w; log := log w; env := env w |}.

Definition set_nextTimer (n : nat) (w : World) : World :=
  {| searchSessions := searchSessions w; rateLimitMap := rateLimitMap w;
     downloadLocks := downloadLocks w; table := table w; files := files w;
     timers := timers w; nextTimer := n; now := now w;
     dbGetPlan := dbGetPlan w; log := log w; env := env w |}.

Definition set_now (t : Z) (w : World) : World :=
  {| searchSessions := searchSessions w; rateLimitMap := rateLimitMap w;
     downloadLocks := downloadLocks w; table := table w; files := files w;
     timers := timers w; nextTimer := nextTimer w; now := t;
     dbGetPlan := dbGetPlan w; log := log w; env := env w |}.

Definition set_dbGetPlan (p : list bool) (w : World) : World :=
  {| searchSessions := searchSessions w; rateLimitMap := rateLimitMap w;
     downloadLocks := downloadLocks w; table := table w; files := files w;
     timers := timers w; nextTimer := nextTimer w; now := now w;
     dbGetPlan := p; log := log w; env := env w |}.

Definition emit (e : Event) (w : World) : World :=
  {| searchSessions := searchSessions w; rateLimitMap := rateLimitMap w;
     downloadLocks := downloadLocks w; table := table w; files := files w;
     timers := timers w; nextTimer := nextTimer w; now := now w;
     dbGetPlan := dbGetPlan w; log := log w ++ [e]; env := env w |}.

(** [getSessionKey]. *)
Definition getSessionKey (s : Session) : string :=
  platform s +:+ ":" +:+ default (userId s) (truthy (channelId s)) +:+ ":" +:+ userId s.

(** ** Awaited operations *)

Inductive Op : Type -> Type :=
| DbGet (q : Query) : Op (list MusicCache)
| DbSet (id : string) (namesKey : bool) (upd : MusicCache -> MusicCache) : Op unit
| DbCreate (row : MusicCache) : Op unit
| FsAccess (path : string) : Op unit
| FsUnlink (path : string) : Op unit
| FsMkdir (path : string) : Op unit
| FsWriteFile (path : string) (data : string) : Op unit
| FsReadFile (path : string) : Op string
| HttpGet (url : string) : Op string
| GetSongUrl (id : string) (br : Z) : Op (option SongUrl)
| SearchMusic (keyword : string) (limit : Z) : Op (list SearchResult)
| SessionSend (s : Session) (m : Msg) : Op unit
| FfmpegRun (input output : string) : Op unit.

Definition updateWhere (i : string) (upd : MusicCache -> MusicCache) (rows : list MusicCache) : list MusicCache :=
  (fun c => if String.eqb (mc_id c) i then upd c else c) <$> rows.

Definition hasRow (i : string) (rows : list MusicCache) : bool :=
  existsb (fun c => String.eqb (mc_id c) i) rows.

(** [database.get] follows the plan: the head says whether this call throws.
    With no plan left every call answers. *)
Definition nextGetFails (w : World) : bool :=
  match dbGetPlan w with
  | fails :: _ => fails
  | [] => false
  end.

Definition afterGet (w : World) : World := set_dbGetPlan (tail (dbGetPlan w)) w.

(** The effect of one operation when it completes.  A missing file makes
    [fs.access], [fs.unlink] and [fs.readFile] throw; [database.set] on an id
    without a row changes nothing, and one whose values name the primary
    key follows the key policy; [session.send] always delivers; a file has
    no content here, so [fs.readFile] answers with the path. *)
Definition perform {X} (op : Op X) (w : World) : outcome X * World :=
  match op in Op T return outcome T * World with
  | DbGet q =>
      (if nextGetFails w then Err DbError
       else Ok (filter (fun c => matches q c = true) (table w)),
       afterGet w)
  | DbSet i namesKey upd =>
      match namesKey, keyPolicy (env w) with
      | true, RejectKeyUpdate => (Err PrimaryKeyUpdate, w)
      | _, _ =>
          if decide (i ∈ dbSetFail (env w)) then (Err DbError, w)
          else (Ok tt, emit (EDbSet i) (set_table (updateWhere i upd) w))
      end
  | DbCreate row =>
      if hasRow (mc_id row) (table w) then
        match dupPolicy (env w) with
        | RejectDuplicate => (Err DuplicateEntry, w)
        | ReplaceExisting =>
            (Ok tt, emit (EDbCreated (mc_id row)) (set_table (updateWhere (mc_id row) (fun _ => row)) w))
        end
      else (Ok tt, emit (EDbCreated (mc_id row)) (set_table (fun t => t ++ [row]) w))
  | FsAccess p =>
      if decide (p ∈ files w) then (Ok tt, w) else (Err (FsError p), w)
  | FsUnlink p =>
      if decide (p ∈ files w ∧ p ∉ unlinkFail (env w))
      then (Ok tt, emit (EUnlinked p) (set_files (fun fs => fs ∖ {[p]}) w))
      else (Err (FsError p), w)
  | FsMkdir p => (Ok tt, w)
  | FsWriteFile p data => (Ok tt, emit (EWritten p) (set_files (fun fs => {[p]} ∪ fs) w))
  | FsReadFile p =>
      if decide (p ∈ files w) then (Ok p, w) else (Err (FsError p), w)
  | HttpGet u => (remoteBlob (env w) u, w)
  | GetSongUrl i br => (remoteUrl (env w) i, emit (EResolved i) w)
  | SearchMusic kw limit => (remoteSearch (env w) kw, w)
  | SessionSend s m => (Ok tt, emit (ESent (getSessionKey s) m) w)
  | FfmpegRun input output =>
      if hasFfmpeg (env w) && bool_decide (input ∈ files w)
      then (Ok tt, set_files (fun fs => {[output]} ∪ fs) w)
      else (Err FfmpegError, w)
  end.

(** ** Resumable programs *)

Inductive Prog (A : Type) : Type :=
| Ret (a : A)
| Throw (e : exn)
| Sync {X : Type} (f : World -> X * World) (k : X -> Prog A)
| Await {X : Type} (op : Op X) (k : outcome X -> Prog A).
Arguments Ret {A} a.
Arguments Throw {A} e.
Arguments Sync {A X} f k.
Arguments Await {A X} op k.

Fixpoint bind {A B} (p : Prog A) (f : A -> Prog B) : Prog B :=
  match p with
  | Ret a => f a
  | Throw e => Throw e
  | Sync g k => Sync g (fun x => bind (k x) f)
  | Await op k => Await op (fun r => bind (k r) f)
  end.

#[export] Instance Prog_ret : MRet Prog := @Ret.
#[export] Instance Prog_bind : MBind Prog := fun A B f p => bind p f.

(** [try { p } catch (e) { h e }] *)
Fixpoint try_catch {A} (p : Prog A) (h : exn -> Prog A) : Prog A :=
  match p with
  | Ret a => Ret a
  | Throw e => h e
  | Sync g k => Sync g (fun x => try_catch (k x) h)
  | Await op k => Await op (fun r => try_catch (k r) h)
  end.

(** [try { p } finally { q }] *)
Fixpoint try_finally {A} (p : Prog A) (q : Prog unit) : Prog A :=
  match p with
  | Ret a => bind q (fun _ => Ret a)
  | Throw e => bind q (fun _ => Throw e)
  | Sync g k => Sync g (fun x => try_finally (k x) q)
  | Await op k => Await op (fun r => try_finally (k r) q)
  end.

(** [await op]: suspend on [op]; a rejected promise is rethrown. *)
Definition await {X} (op : Op X) : Prog X :=
  Await op (fun r => match r with Ok x => Ret x | Err e => Throw e end).

Definition sync {X} (f : World -> X * World) : Prog X := Sync f Ret.
Definition read {X} (f : World -> X) : Prog X := Sync (fun w => (f w, w)) Ret.
Definition modify (f : World -> World) : Prog unit := Sync (fun w => (tt, f w)) Ret.

(** Running a program to completion with nothing interleaved. *)
Fixpoint run {A} (p : Prog A) (w : World) : outcome A * World :=
  match p with
  | Ret a => (Ok a, w)
  | Throw e => (Err e, w)
  | Sync f k => let '(x, w') := f w in run (k x) w'
  | Await op k => let '(r, w') := perform op w in run (k r) w'
  end.

(** The synchronous prefix of a program: everything up to its next [await]. *)
Fixpoint advance {A} (p : Prog A) (w : World) : Prog A * World :=
  match p with
  | Sync f k => let '(x, w') := f w in advance (k x) w'
  | other => (other, w)
  end.

(** One turn of the event loop for a suspended task: the awaited operation
    completes and the task runs on to its next suspension. *)
Definition resume {A} (p : Prog A) (w : World) : Prog A * World :=
  match p with
  | Await op k => let '(r, w') := perform op w in advance (k r) w'
  | other => advance other w
  end.

(** ** Strings *)

Fixpoint filterString (f : ascii -> bool) (s : string) : string :=
  match s with
  | EmptyString => EmptyString
  | String c rest => if f c then String c (filterString f rest) else filterString f rest
  end.

Fixpoint allChars (f : ascii -> bool) (s : string) : bool :=
  match s with
  | EmptyString => true
  | String c rest => f c && allChars f rest
  end.

Definition charBetween (lo hi : nat) (c : ascii) : bool :=
  (lo <=? nat_of_ascii c)%nat && (nat_of_ascii c <=? hi)%nat.

Definition isDigit : ascii -> bool := charBetween 48 57.
Definition isUpper : ascii -> bool := charBetween 65 90.
Definition isLower : ascii -> bool := charBetween 97 122.
Definition isAlnum (c : ascii) : bool := isLower c || isUpper c || isDigit c.
Definition isHyphen (c : ascii) : bool := (nat_of_ascii c =? 45)%nat.

(** The white space of [String.prototype.trim] and of [\s]: tab, LF, VT,
    FF, CR, space, U+00A0, U+1680, U+2000 to U+200A, U+2028, U+2029, U+202F,
    U+205F, U+3000 and U+FEFF. *)
Definition isSpace (c : N) : bool :=
  ((9 <=? c) && (c <=? 13) || (c =? 32) || (c =? 0xa0) || (c =? 0x1680)
   || (0x2000 <=? c) && (c <=? 0x200a) || (c =? 0x2028) || (c =? 0x2029)
   || (c =? 0x202f) || (c =? 0x205f) || (c =? 0x3000) || (c =? 0xfeff))%N.

Fixpoint trimStart (s : jsString) : jsString :=
  match s with
  | c :: rest => if isSpace c then trimStart rest else s
  | [] => []
  end.

Definition trim (s : jsString) : jsString :=
  reverse (trimStart (reverse (trimStart s))).

(** [\d]: the digits [0] to [9]. *)
Definition isDigitUnit (c : N) : bool := ((48 <=? c) && (c <=? 57))%N.

(** [/^\d+$/.test(s)] *)
Definition allDigits (s : jsString) : bool :=
  match s with
  | [] => false
  | _ => forallb isDigitUnit s
  end.

Fixpoint digitsValue (acc : Z) (s : jsString) : option Z :=
  match s with
  | [] => Some acc
  | c :: rest =>
      if isDigitUnit c then digitsValue (acc * 10 + (Z.of_N c - 48)) rest else None
  end.

(** [parseInt(s)] for a string of decimal digits, as the integer it
    denotes; [None] stands for what [parseInt] gives on the strings the
    middleware's test rejects before it parses.  (The code holds the value
    as a binary64 number: it is this integer below 2^53, and above that a
    number that is beyond every array index as well.) *)
Definition parseInt (s : jsString) : option Z :=
  match s with
  | [] => None
  | _ => digitsValue 0 s
  end.

(** [String(song.id).replace(/[^a-zA-Z0-9-]/g, '')] *)
Definition sanitizeId (i : string) : string :=
  filterString (fun c => isAlnum c || isHyphen c) i.

(** ** Sorting *)

(** [Array.prototype.sort] with a numeric comparator: a stable sort. *)
Fixpoint insertBy {A} (cmp : A -> A -> Z) (x : A) (l : list A) : list A :=
  match l with
  | [] => [x]
  | y :: rest => if cmp x y <=? 0 then x :: y :: rest else y :: insertBy cmp x rest
  end.

Definition sortBy {A} (cmp : A -> A -> Z) (l : list A) : list A :=
  foldr (insertBy cmp) [] l.

(** ** [path.resolve] for POSIX paths *)

Module Path.

(** [s.split('/')] *)
Fixpoint segments (s : string) : list string :=
  match s with
  | EmptyString => [EmptyString]
  | String c rest =>
      if Ascii.eqb c "/" then EmptyString :: segments rest
      else
        match segments rest with
        | seg :: segs => String c seg :: segs
        | [] => [String c EmptyString]
        end
  end.

(** What [normalizeString] does with one segment: an empty segment and [.]
    change nothing; [..] removes the segment before it, and where there is
    none (or it is [..] itself) it is kept if [allowAboveRoot] and dropped
    otherwise; any other segment is added.  [res] holds the segments kept
    so far, last one first. *)
Definition normalizeStep (allowAboveRoot : bool) (res : list string) (seg : string)
    : list string :=
  if decide (seg = "" \/ seg = ".") then res
  else if decide (seg = "..") then
    match res with
    | prev :: before =>
        if decide (prev = "..") then (if allowAboveRoot then seg :: res else res)
        else before
    | [] => if allowAboveRoot then [seg] else []
    end
  else seg :: res.

Definition normalize (allowAboveRoot : bool) (segs : list string) : list string :=
  reverse (foldl (normalizeStep allowAboveRoot) [] segs).

(** The loop of [resolve], from the last argument down to the working
    directory: empty paths are skipped, each other path is put in front, and
    the loop stops after an absolute one.  [resolvedPath] holds the paths
    that [`${path}/${resolvedPath}`] joins. *)
Fixpoint resolveLoop (paths : list string) (resolvedPath : list string)
    : list string * bool :=
  match paths with
  | [] => (resolvedPath, false)
  | path :: rest =>
      if decide (path = "") then resolveLoop rest resolvedPath
      else if String.prefix "/" path then (path :: resolvedPath, true)
      else resolveLoop rest (path :: resolvedPath)
  end.

(** [path.resolve(...args)] in the working directory [cwd]. *)
Definition resolve (cwd : string) (args : list string) : string :=
  let '(parts, resolvedAbsolute) := resolveLoop (reverse args ++ [cwd]) [] in
  let resolvedPath :=
    String.concat "/" (normalize (negb resolvedAbsolute) (concat (segments <$> parts))) in
  if resolvedAbsolute then "/" +:+ resolvedPath
  else if decide (resolvedPath = "") then "." else resolvedPath.

End Path.

(** ** Functions of Node and of the chat framework that the plugin calls

    [parseArgs] (the tokenizer of the command line) and [resultText] (the
    numbered candidate list) only produce the keyword, the flags and a text
    for this part of the model; the command takes them with the library
    functions. *)

Record ParsedOptions := {
  opt_audio : bool;
  opt_file : bool;
  opt_compress : bool;
}.

Record Host := {
  cwd : string;                              (* [process.cwd()] *)
  path_dirname : string -> string;
  path_basename : string -> string -> string;
  pathToFileURL : string -> string;
  toBase64 : string -> string;
  normalizeNFKD : jsString -> jsString;
  parseArgs : string -> string * ParsedOptions;
  resultText : list SearchResult -> string;
}.

Definition path_resolve (host : Host) (parts : list string) : string :=
  Path.resolve (cwd host) parts.

(** ** The plugin: the closure of [apply(ctx, config)] *)

Section Plugin.
Context (cfg : Config) (host : Host).

Definition logger (level : LogLevel) (what : string) : Prog unit :=
  modify (emit (ELogged level what)).

Definition send (session : Session) (m : Msg) : Prog unit :=
  await (SessionSend session m).

(** *** Rate limiter *)

Definition limiterKey (session : Session) : string :=
  if rateLimitGlobal cfg then "global"
  else platform session +:+ ":" +:+ default (userId session) (truthy (channelId session)).

Definition checkRateLimit (session : Session) (w : World) : bool * World :=
  if negb (rateLimitEnabled cfg) then (true, w)
  else
    let key := limiterKey session in
    let now := now w in
    let lastCall := default 0 (rateLimitMap w !! key) in
    if now - lastCall <? rateLimitInterval cfg * 1000 then (false, w)
    else (true, set_rateLimitMap (insert key now) w).

(** The body of [rateLimitCleanupInterval]. *)
Definition rateLimitCleanup (w : World) : World :=
  let now := now w in
  let expiry := rateLimitInterval cfg * 1000 * 10 in
  set_rateLimitMap (filter (fun kt => ¬ (now - kt.2 > expiry))) w.

(** *** Selection sessions and their timers *)

Definition setTimeout (key : string) (delay : Z) (w : World) : nat * World :=
  let handle := nextTimer w in
  (handle, set_nextTimer (S handle) (set_timers (insert handle (now w + delay, key)) w)).

Definition clearTimeout (handle : nat) (w : World) : World :=
  set_timers (delete handle) w.

Definition clearSearchSession (sessionKey : string) (w : World) : World :=
  match searchSessions w !! sessionKey with
  | Some session => set_searchSessions (delete sessionKey) (clearTimeout (ss_timeout session) w)
  | None => w
  end.

(** A pending timer that is due fires: its callback is
    [() => clearSearchSession(sessionKey)]. *)
Definition fireTimer (handle : nat) (w : World) : option World :=
  match timers w !! handle with
  | Some (due, key) =>
      if due <=? now w then Some (clearSearchSession key (set_timers (delete handle) w))
      else None
  | None => None
  end.

(** *** Cache accounting and eviction *)

Definition getCacheTotalSize : Prog Z :=
  try_catch
    (caches ← await (DbGet (QCached true));
     mret (foldl (fun sum c => sum + orZero (mc_fileSize c)) 0 caches))
    (fun _ => mret 0).

(** [{ cached: false, cachePath: null, fileSize: 0 }] *)
Definition evictedFields (c : MusicCache) : MusicCache :=
  {| mc_id := mc_id c; mc_name := mc_name c; mc_artist := mc_artist c;
     mc_url := mc_url c; mc_cached := false; mc_cachePath := None;
     mc_fileSize := Some 0; mc_cacheTime := mc_cacheTime c;
     mc_bitrate := mc_bitrate c |}.

(** The body of the [for] loop after its [break] test; the result is the
    new value of [freedSpace]. *)
Definition evictOne (cache : MusicCache) (freedSpace : Z) : Prog Z :=
  try_catch
    (match truthy (mc_cachePath cache) with
     | Some p => await (FsUnlink p)
     | None => mret tt
     end;;
     await (DbSet (mc_id cache) false evictedFields);;
     mret (freedSpace + orZero (mc_fileSize cache)))
    (fun e => logger LWarn ("清理缓存失败: " +:+ mc_id cache);; mret freedSpace).

Fixpoint sweep (maxBytes currentSize requiredSpace : Z)
    (caches : list MusicCache) (freedSpace : Z) : Prog unit :=
  match caches with
  | [] => mret tt
  | cache :: rest =>
      if currentSize - freedSpace + requiredSpace <=? maxBytes then mret tt
      else
        freedSpace' ← evictOne cache freedSpace;
        sweep maxBytes currentSize requiredSpace rest freedSpace'
  end.

Definition byCacheTime (a b : MusicCache) : Z :=
  orZero (mc_cacheTime a) - orZero (mc_cacheTime b).

Definition cleanOldCache (requiredSpace : Z) : Prog unit :=
  let maxBytes := cacheMaxSize cfg * 1024 * 1024 in
  currentSize ← getCacheTotalSize;
  if currentSize + requiredSpace <=? maxBytes then mret tt
  else
    caches ← await (DbGet (QCached true));
    sweep maxBytes currentSize requiredSpace (sortBy byCacheTime caches) 0.

(** *** Sending a cached song *)

(** The characters the first [replace] turns into a hyphen: backslash,
    slash, colon, asterisk, question mark, double quote, angle brackets and
    the vertical bar. *)
Definition isReservedChar (c : N) : bool :=
  bool_decide (c ∈ [92; 47; 58; 42; 63; 34; 60; 62; 124]%N).

(** [/[\x00-\x1f\x7f]/] *)
Definition isControlChar (c : N) : bool := ((c <=? 31) || (c =? 127))%N.

(** [name.replace(/\s+/g, ' ')] *)
Fixpoint collapseSpaces (s : jsString) : jsString :=
  match s with
  | [] => []
  | c :: rest =>
      if isSpace c then
        match rest with
        | d :: _ => if isSpace d then collapseSpaces rest else 32%N :: collapseSpaces rest
        | [] => [32%N]
        end
      else c :: collapseSpaces rest
  end.

Definition sanitizeFilename (name : jsString) : jsString :=
  if decide (name = []) then lit "file"
  else
    let name := normalizeNFKD host name in
    let name := (fun c => if isReservedChar c then 45%N else c) <$> name in
    let name := filter (fun c => isControlChar c = false) name in
    let name := trim (collapseSpaces name) in
    let name := if (120 <? length name)%nat then trim (take 120 name) else name in
    if decide (name = []) then lit "file" else name.

Definition compressAudio (inputPath outputPath : string) : Prog unit :=
  await (FfmpegRun inputPath outputPath).

(** The clean-up [fs.unlink(compressedPath).catch(...)] in the [finally]
    block is not awaited by the code; here it completes before the function
    returns. *)

Definition sendCachedSong (session : Session) (cache : MusicCache)
    (sendFormatOverride : option SendFormat) (compress : bool) : Prog unit :=
  try_catch
    (match truthy (mc_cachePath cache) with
     | None => Throw MissingCachePath
     | Some cachePath_ =>
         let filename :=
           sanitizeFilename (mc_artist cache ++ lit " - " ++ mc_name cache) ++ lit ".mp3" in
         ffmpeg ← read (fun w => hasFfmpeg (env w));
         paths ←
           (if compress && ffmpeg then
              try_catch
                (send session (Text "commands.ncmget.messages.compressing");;
                 let compressedPath :=
                   path_resolve host
                     [path_dirname host cachePath_;
                      path_basename host cachePath_ ".mp3" +:+ "_compressed.mp3"] in
                 compressAudio cachePath_ compressedPath;;
                 mret (compressedPath, Some compressedPath))
                (fun e =>
                   logger LWarn "音频压缩失败";;
                   send session (Text "commands.ncmget.messages.compress-error");;
                   mret (cachePath_, None))
            else mret (cachePath_, None));
         let filePath : string := paths.1 in
         let compressedPath : option string := paths.2 in
         let fileUrl := pathToFileURL host filePath in
         src ←
           (if onebot session then
              data ← await (FsReadFile filePath);
              mret ("base64://" +:+ toBase64 host data)
            else mret fileUrl);
         let format := if compress then FmtAudio else default (sendFormat cfg) sendFormatOverride in
         try_finally
           (match format with
            | FmtAudio => send session (Audio src filename)
            | FmtFile => send session (FileMsg src filename)
            end)
           (match compressedPath with
            | Some p => try_catch (await (FsUnlink p)) (fun _ => mret tt)
            | None => mret tt
            end)
     end)
    (fun e =>
       logger LError "发送歌曲失败";;
       send session (Text "commands.ncmget.messages.send-error")).

(** *** Fetching a song *)

(** [NcmService.downloadSong] *)
Definition downloadSong (url savePath : string) : Prog unit :=
  try_catch
    (response ← await (HttpGet url);
     await (FsMkdir (path_dirname host savePath));;
     await (FsWriteFile savePath response))
    (fun e => logger LError "下载失败";; Throw e).

(** [{ cached: false, cachePath: null }] *)
Definition invalidatedFields (c : MusicCache) : MusicCache :=
  {| mc_id := mc_id c; mc_name := mc_name c; mc_artist := mc_artist c;
     mc_url := mc_url c; mc_cached := false; mc_cachePath := None;
     mc_fileSize := mc_fileSize c; mc_cacheTime := mc_cacheTime c;
     mc_bitrate := mc_bitrate c |}.

Definition cacheDataOf (song : SearchResult) (urlInfo : SongUrl) (savePath : string) (now : Z) : MusicCache :=
  {| mc_id := sr_id song; mc_name := sr_name song; mc_artist := sr_artist song;
     mc_url := su_url urlInfo; mc_cached := true; mc_cachePath := Some savePath;
     mc_fileSize := Some (su_size urlInfo); mc_cacheTime := Some now;
     mc_bitrate := su_br urlInfo |}.

Definition savePathOf (sanitizedId : string) : string :=
  path_resolve host [cachePath cfg; sanitizedId +:+ ".mp3"].

(** The inner [try] block of [handleSongRequest] (lines 386-401). *)
Definition downloadAndCommit (session : Session) (song : SearchResult)
    (cacheEntry : option MusicCache) (urlInfo : SongUrl) (savePath : string)
    (sendFormatOverride : option SendFormat) (compress : bool) : Prog unit :=
  cleanOldCache (su_size urlInfo);;
  downloadSong (su_url urlInfo) savePath;;
  now ← read now;
  let cacheData := cacheDataOf song urlInfo savePath now in
  match cacheEntry with
  | Some _ => await (DbSet (sr_id song) true (fun _ => cacheData))
  | None => await (DbCreate cacheData)
  end;;
  sendCachedSong session cacheData sendFormatOverride compress.

(** [handleSongRequest] from the call of [getSongUrl] on (lines 357-407):
    what runs when the cache did not serve the request. *)
Definition fetchSong (session : Session) (song : SearchResult)
    (cacheEntry : option MusicCache)
    (sendFormatOverride : option SendFormat) (compress : bool) : Prog unit :=
  urlInfo ← await (GetSongUrl (sr_id song) (bitrate cfg));
  match urlInfo with
  | None => send session (Text "commands.ncmget.messages.song-unavailable")
  | Some urlInfo =>
      if decide (su_url urlInfo = "") then
        send session (Text "commands.ncmget.messages.song-unavailable")
      else
        let sanitizedId := sanitizeId (sr_id song) in
        if decide (sanitizedId = "") then
          logger LError "非法歌曲ID";;
          send session (Text "commands.ncmget.messages.download-error")
        else
          locked ← read (fun w => bool_decide (sanitizedId ∈ downloadLocks w));
          if locked : bool then
            send session (Text "commands.ncmget.messages.downloading")
          else
            let savePath := savePathOf sanitizedId in
            if negb (String.prefix (path_resolve host [cachePath cfg]) savePath) then
              logger LError "路径安全检查失败";;
              send session (Text "commands.ncmget.messages.download-error")
            else
              send session (Text "commands.ncmget.messages.downloading");;
              modify (set_downloadLocks (fun l => {[sanitizedId]} ∪ l));;
              try_finally
                (try_catch
                   (downloadAndCommit session song cacheEntry urlInfo savePath
                      sendFormatOverride compress)
                   (fun e =>
                      logger LError "获取歌曲失败";;
                      send session (Text "commands.ncmget.messages.download-error")))
                (modify (set_downloadLocks (fun l => l ∖ {[sanitizedId]})))
  end.

(** The cache check (lines 343-355): [None] when the song was served from
    the cache and the handler returned, otherwise the value [cacheEntry]
    holds when the check is left. *)
Definition cacheCheck (session : Session) (song : SearchResult)
    (sendFormatOverride : option SendFormat) (compress : bool)
    : Prog (option (option MusicCache)) :=
  cache ← await (DbGet (QId (sr_id song)));
  let cacheEntry := head cache in
  match cacheEntry with
  | Some entry =>
      match mc_cached entry, truthy (mc_cachePath entry) with
      | true, Some p =>
          try_catch
            (await (FsAccess p);;
             sendCachedSong session entry sendFormatOverride compress;;
             mret None)
            (fun _ =>
               await (DbSet (sr_id song) false invalidatedFields);;
               mret (Some None))
      | _, _ => mret (Some cacheEntry)
      end
  | None => mret (Some cacheEntry)
  end.

(** The outer [catch] of [handleSongRequest] (lines 408-411). *)
Definition onRequestError (session : Session) (e : exn) : Prog unit :=
  logger LError "处理歌曲请求异常";;
  send session (Text "commands.ncmget.messages.download-error").

Definition handleSongRequest (session : Session) (song : SearchResult)
    (sendFormatOverride : option SendFormat) (compress : bool) : Prog unit :=
  try_catch
    (checked ← cacheCheck session song sendFormatOverride compress;
     match checked with
     | None => mret tt
     | Some cacheEntry => fetchSong session song cacheEntry sendFormatOverride compress
     end)
    (onRequestError session).

(** *** The [ncmget] command

    [ncm] is constructed unconditionally, so the [!ncm] guard never fires;
    the value returned is the reply the framework sends, if any. *)

Definition ncmget (session : Session) (options : ParsedOptions) (keyword : string)
    : Prog (option Msg) :=
  if decide (keyword = "") then mret (Some (Text "commands.ncmget.messages.no-keyword"))
  else
    allowed ← sync (checkRateLimit session);
    if negb allowed then mret None
    else
      let parsed := parseArgs host keyword in
      let keyword := parsed.1 in
      if decide (keyword = "") then mret (Some (Text "commands.ncmget.messages.no-keyword"))
      else
        let audio := opt_audio parsed.2 || opt_audio options in
        let file := opt_file parsed.2 || opt_file options in
        let compress := opt_compress parsed.2 || opt_compress options in
        ffmpeg ← read (fun w => hasFfmpeg (env w));
        if compress && negb ffmpeg then
          mret (Some (Text "commands.ncmget.messages.ffmpeg-missing"))
        else
          let sessionKey := getSessionKey session in
          let forcedSendFormat :=
            if compress then Some FmtAudio
            else if audio then Some FmtAudio
            else if file then Some FmtFile
            else None in
          try_catch
            (results ← await (SearchMusic keyword (searchPageSize cfg));
             match results with
             | [] => mret (Some (Text "commands.ncmget.messages.no-results"))
             | [song] =>
                 handleSongRequest session song forcedSendFormat compress;;
                 mret None
             | _ =>
                 send session (SearchPrompt (mergeSearchResults cfg) (resultText host results));;
                 timeout ← sync (setTimeout sessionKey (searchTimeout cfg * 1000));
                 modify (set_searchSessions (insert sessionKey
                   {| ss_results := results; ss_timeout := timeout;
                      ss_sendFormat := forcedSendFormat; ss_compress := compress |}));;
                 mret None
             end)
            (fun e =>
               logger LError "搜索失败";;
               mret (Some (Text "commands.ncmget.messages.search-error"))).

(** *** The selection middleware *)

Inductive MwResult := MwNext | MwHandled.

(** [session.stripped?.content?.trim() ?? session.content?.trim()] *)
Definition replyText (session : Session) : option jsString :=
  match strippedContent session with
  | Some c => Some (trim c)
  | None => trim <$> content session
  end.

Definition middleware (session : Session) : Prog MwResult :=
  let sessionKey := getSessionKey session in
  searchSession ← read (fun w => searchSessions w !! sessionKey);
  match searchSession with
  | None => mret MwNext
  | Some searchSession =>
      let input := replyText session in
      match truthyText input with
      | None => mret MwNext
      | Some input =>
          if negb (allDigits input) then mret MwNext
          else
          match parseInt input with
          | None => mret MwNext
          | Some n =>
              let index := n - 1 in
              if index =? -1 then
                modify (clearSearchSession sessionKey);;
                send session (Text "commands.ncmget.messages.search-cancelled");;
                mret MwHandled
              else if (0 <=? index) && (index <? Z.of_nat (length (ss_results searchSession))) then
                modify (clearSearchSession sessionKey);;
                match ss_results searchSession !! Z.to_nat index with
                | Some song =>
                    handleSongRequest session song (ss_sendFormat searchSession)
                      (ss_compress searchSession)
                | None => mret tt
                end;;
                mret MwHandled
              else mret MwNext
          end
      end
  end.

End Plugin.

(** ** Notions the properties are stated with *)

Definition sizeOf (c : MusicCache) : Z := orZero (mc_fileSize c).

Definition timeOf (c : MusicCache) : Z := orZero (mc_cacheTime c).

Definition totalSize (rows : list MusicCache) : Z :=
  foldl (fun sum c => sum + orZero (mc_fileSize c)) 0 rows.

Definition cachedOf (t : list MusicCache) : list MusicCache :=
  filter (fun c => matches (QCached true) c = true) t.

Definition cachedRows (w : World) : list MusicCache := cachedOf (table w).

Definition totalCachedBytes (w : World) : Z := totalSize (cachedRows w).

Definition maxBytes (cfg : Config) : Z := cacheMaxSize cfg * 1024 * 1024.

Definition blobOf (c : MusicCache) : option string := truthy (mc_cachePath c).

Definition unlinkOk (w : World) (c : MusicCache) : bool :=
  match blobOf c with
  | Some p => bool_decide (p ∈ files w ∧ p ∉ unlinkFail (env w))
  | None => true
  end.

Definition setOk (w : World) (c : MusicCache) : bool :=
  bool_decide (mc_id c ∉ dbSetFail (env w)).

Definition evictable (w : World) (c : MusicCache) : bool := unlinkOk w c && setOk w c.


Definition dbSetIds (l : list Event) : list string :=
  omap (fun e => match e with EDbSet i => Some i | _ => None end) l.

Definition unlinkedPaths (l : list Event) : list string :=
  omap (fun e => match e with EUnlinked p => Some p | _ => None end) l.

Definition olderOrSame (a b : MusicCache) : Prop := timeOf a <= timeOf b.

Definition afterUnlink (w : World) (c : MusicCache) : World :=
  match blobOf c with
  | Some p => emit (EUnlinked p) (set_files (fun fs => fs ∖ {[p]}) w)
  | None => w
  end.

Definition evictWarning (c : MusicCache) : Event :=
  ELogged LWarn ("清理缓存失败: " +:+ mc_id c).

Definition afterEvict (w : World) (c : MusicCache) : World :=
  if unlinkOk w c then
    if setOk w c then
      emit (EDbSet (mc_id c)) (set_table (updateWhere (mc_id c) evictedFields) (afterUnlink w c))
    else emit (evictWarning c) (afterUnlink w c)
  else emit (evictWarning c) w.

Definition clearRows (t : list MusicCache) (ev : list MusicCache) : list MusicCache :=
  foldl (fun t c => updateWhere (mc_id c) evictedFields t) t ev.

Definition isWarning (e : Event) : bool :=
  match e with
  | ELogged LWarn _ => true
  | _ => false
  end.

Definition warnCount (l : list Event) : nat :=
  length (filter (fun e => isWarning e = true) l).

Definition writtenPaths (l : list Event) : list string :=
  omap (fun e => match e with EWritten p => Some p | _ => None end) l.

(** [respects R p]: every step of [p], synchronous or awaited, takes a world
    to one related to it by [R]. *)
Inductive respects (R : World -> World -> Prop) {A : Type} : Prog A -> Prop :=
| respects_Ret (a : A) : respects R (Ret a)
| respects_Throw (e : exn) : respects R (Throw e)
| respects_Sync {X} (f : World -> X * World) (k : X -> Prog A) :
    (forall w, R w (f w).2) -> (forall x, respects R (k x)) -> respects R (Sync f k)
| respects_Await {X} (op : Op X) (k : outcome X -> Prog A) :
    (forall w, R w (perform op w).2) -> (forall r, respects R (k r)) ->
    respects R (Await op k).







(** [session.send] on the session [s]. *)
Definition isSendTo (s : Session) {X} (op : Op X) : Prop :=
  match op with
  | SessionSend s' _ => s' = s
  | _ => False
  end.

(** [answers s Q T p]: every path through [p] passes a [session.send] on
    [s], unless it ends by returning a value that satisfies [Q] or, if [T],
    by throwing. *)
Fixpoint answers (s : Session) {A} (Q : A -> Prop) (T : Prop) (p : Prog A) : Prop :=
  match p with
  | Ret a => Q a
  | Throw _ => T
  | Sync _ k => forall x, answers s Q T (k x)
  | Await op k => isSendTo s op \/ forall r, answers s Q T (k r)
  end.

(** Between [w] and [w'] a message was sent on the session [s]. *)
Definition answered (s : Session) (w w' : World) : Prop :=
  exists before m after,
    log w' = log w ++ before ++ ESent (getSessionKey s) m :: after.

(** The log of [w'] continues the log of [w]. *)
Definition logGrows (w w' : World) : Prop := log w `prefix_of` log w'.

(** The two worlds hold the same download locks. *)
Definition sameLocks (w w' : World) : Prop := downloadLocks w' = downloadLocks w.


Definition writeTarget {X} (op : Op X) : option string :=
  match op with
  | FsWriteFile p _ => Some p
  | _ => None
  end.

(** ** The event loop *)

(** The tasks in flight, each suspended on an [await], and the world they
    share. *)
Record System := {
  tasks : list (Prog unit);
  world : World;
}.

(** Calling an [async] function: it runs up to its first [await]. *)
Definition spawn (p : Prog unit) (σ : System) : System :=
  let '(p', w') := advance p (world σ) in
  {| tasks := tasks σ ++ [p']; world := w' |}.

(** The event loop resumes task [i]. *)
Definition turn (σ : System) (i : nat) : System :=
  match tasks σ !! i with
  | Some p =>
      let '(p', w') := resume p (world σ) in
      {| tasks := <[i := p']> (tasks σ); world := w' |}
  | None => σ
  end.

Definition schedule (order : list nat) (σ : System) : System := foldl turn σ order.

(** The path a suspended task is writing, if it is suspended in
    [fs.writeFile]. *)
Definition pendingWrite (p : Prog unit) : option string :=
  match p with
  | Await op _ => writeTarget op
  | _ => None
  end.

(** The call a task is suspended in. *)
Definition awaited {X} (op : Op X) : string :=
  match op with
  | DbGet _ => "database.get"
  | DbSet _ _ _ => "database.set"
  | DbCreate _ => "database.create"
  | FsAccess _ => "fs.access"
  | FsUnlink _ => "fs.unlink"
  | FsMkdir _ => "fs.mkdir"
  | FsWriteFile _ _ => "fs.writeFile"
  | FsReadFile _ => "fs.readFile"
  | HttpGet _ => "http.get"
  | GetSongUrl _ _ => "ncm.getSongUrl"
  | SearchMusic _ _ => "ncm.searchMusic"
  | SessionSend _ _ => "session.send"
  | FfmpegRun _ _ => "ffmpeg.run"
  end.

Definition suspendedIn (p : Prog unit) : string :=
  match p with
  | Await op _ => awaited op
  | Sync _ _ => "running"
  | Ret _ => "returned"
  | Throw _ => "thrown"
  end.

Definition writersOf (path : string) (σ : System) : nat :=
  length (filter (fun p => pendingWrite p = Some path) (tasks σ)).

Definition finished (p : Prog unit) : bool :=
  match p with
  | Ret _ | Throw _ => true
  | _ => false
  end.

(** The decimal numeral of [k], as a user types it. *)
Fixpoint decimalDigits (fuel : nat) (n : Z) (acc : jsString) : jsString :=
  match fuel with
  | O => acc
  | S fuel' =>
      let acc' := (48 + Z.to_N (n mod 10))%N :: acc in
      if n / 10 =? 0 then acc' else decimalDigits fuel' (n / 10) acc'
  end.

Definition decimal (k : N) : jsString :=
  decimalDigits (S (Z.to_nat (Z.log2 (Z.of_N k)))) (Z.of_N k) [].

(** ** Histories of rate-limited calls *)

(** The calls [(session, time)] made one after the other, with the verdict
    of [checkRateLimit] for each. *)
Fixpoint replay (cfg : Config) (calls : list (Session * Z)) (w : World) : list bool * World :=
  match calls with
  | [] => ([], w)
  | (s, t) :: rest =>
      let '(ok, w1) := checkRateLimit cfg s (set_now t w) in
      let '(oks, w2) := replay cfg rest w1 in
      (ok :: oks, w2)
  end.

(** The times of the accepted calls under [key], oldest first. *)
Fixpoint acceptedTimes (cfg : Config) (key : string) (calls : list (Session * Z))
    (oks : list bool) : list Z :=
  match calls, oks with
  | (s, t) :: calls, ok :: oks =>
      (if ok && String.eqb (limiterKey cfg s) key then [t] else [])
      ++ acceptedTimes cfg key calls oks
  | _, _ => []
  end.

(** ** Histories of the limiter with its periodic sweep *)

(** What reaches the limiter, in order: a call at a time, or a run of the
    [rateLimitCleanupInterval] callback at a time. *)
Inductive LimiterEvent :=
| Call (s : Session) (t : Z)
| Sweep (t : Z).

Definition eventTime (e : LimiterEvent) : Z :=
  match e with Call _ t | Sweep t => t end.

(** The verdicts of the calls of a history, with the sweeps run in between. *)
Fixpoint replaySwept (cfg : Config) (events : list LimiterEvent) (w : World)
    : list bool * World :=
  match events with
  | [] => ([], w)
  | Call s t :: rest =>
      let '(ok, w1) := checkRateLimit cfg s (set_now t w) in
      let '(oks, w2) := replaySwept cfg rest w1 in
      (ok :: oks, w2)
  | Sweep t :: rest => replaySwept cfg rest (rateLimitCleanup cfg (set_now t w))
  end.

(** The calls of a history, without its sweeps. *)
Definition callsOf (events : list LimiterEvent) : list (Session * Z) :=
  omap (fun e => match e with Call s t => Some (s, t) | Sweep _ => None end) events.

(** Every timestamp the limiter holds is a time at or after the epoch. *)
Definition stampsFromEpoch (w : World) : Prop :=
  forall key t, rateLimitMap w !! key = Some t -> 0 <= t.

(** The limiter map of [swept] is that of [kept] without some timestamps
    that were more than ten intervals old at time [T]. *)
Definition sweptOf (cfg : Config) (T : Z) (swept kept : World) : Prop :=
  forall key,
    rateLimitMap swept !! key = rateLimitMap kept !! key
    \/ (rateLimitMap swept !! key = None
        /\ exists t, rateLimitMap kept !! key = Some t
                     /\ T - t > rateLimitInterval cfg * 1000 * 10).

(** ** Selection sessions over time *)

(** What the plugin reacts to, one thing after the other: a [ncmget]
    command, a message that reaches the middleware, a pending timer that
    comes due, a run of the limiter's sweep, and the clock moving. *)
Inductive Input :=
| Command (s : Session) (options : ParsedOptions) (keyword : string)
| Message (s : Session)
| TimerDue (handle : nat)
| LimiterSweep
| ClockAt (t : Z).

Definition react (cfg : Config) (host : Host) (w : World) (i : Input) : World :=
  match i with
  | Command s options keyword => (run (ncmget cfg host s options keyword) w).2
  | Message s => (run (middleware cfg host s) w).2
  | TimerDue handle => default w (fireTimer handle w)
  | LimiterSweep => rateLimitCleanup cfg w
  | ClockAt t => set_now t w
  end.

(** Every open selection session has its timer pending, under the
    session's own key, and every pending timer has a handle that
    [setTimeout] has already given out. *)
Definition sessionsTimed (w : World) : Prop :=
  (forall key ss, searchSessions w !! key = Some ss ->
     exists due, timers w !! ss_timeout ss = Some (due, key))
  /\ (forall handle, is_Some (timers w !! handle) -> (handle < nextTimer w)%nat).

(** The sessions and the timers of [w'] are those of [w]. *)
Definition sameSessions (w w' : World) : Prop :=
  searchSessions w' = searchSessions w
  /\ timers w' = timers w
  /\ nextTimer w' = nextTimer w.

(** Running [p] to its end keeps [I]. *)
Definition keeps (I : World -> Prop) {A} (p : Prog A) : Prop :=
  forall w, I w -> I (run p w).2.

(** The selection session under [key] is the same in [w'] as in [w]. *)
Definition sameSessionAt (key : string) (w w' : World) : Prop :=
  searchSessions w' !! key = searchSessions w !! key.

(** The calls of a history that fall under the limiter key [key], each
    with the verdict it got. *)
Definition verdictsUnder (cfg : Config) (key : string) (calls : list (Session * Z))
    (oks : list bool) : list bool :=
  (filter (fun judged : (Session * Z) * bool => limiterKey cfg judged.1.1 = key)
     (zip calls oks)).*2.

(** ** Concrete configurations and worlds *)

Definition sampleHost : Host :=
  {| cwd := "/srv";
     path_dirname := fun p => "/srv/data/ncm-cache";
     path_basename := fun p ext => p;
     pathToFileURL := fun p => "file://" +:+ p;
     toBase64 := fun d => d;
     normalizeNFKD := fun s => s;
     parseArgs := fun s =>
       (s, {| opt_audio := false; opt_file := false; opt_compress := false |});
     resultText := fun _ => "1. ..." |}.

(** The defaults of the schema, with a 1 MB cache. *)
Definition sampleConfig : Config :=
  {| cookie := ""; bitrate := 320000; searchTimeout := 30; searchPageSize := 5;
     mergeSearchResults := false; sendFormat := FmtFile; rateLimitEnabled := true;
     rateLimitInterval := 2; rateLimitGlobal := true; cacheMaxSize := 1;
     cachePath := "data/ncm-cache" |}.

Definition song42 : SearchResult :=
  {| sr_id := "42"; sr_name := lit "Song"; sr_artist := lit "Artist";
     sr_album := lit "Album"; sr_duration := 180000; sr_fee := 0 |}.

Definition song43 : SearchResult :=
  {| sr_id := "43"; sr_name := lit "Other"; sr_artist := lit "Artist"; sr_album := lit "Album";
     sr_duration := 200000; sr_fee := 1 |}.

Definition url42 : SongUrl :=
  {| su_id := "42"; su_url := "http://m.example/42.mp3"; su_br := 320000;
     su_size := 200000; su_md5 := ""; su_type := "mp3" |}.

Definition sampleEnv : Env :=
  {| remoteSearch := fun _ => Ok [song42; song43];
     remoteUrl := fun _ => Ok (Some url42);
     remoteBlob := fun _ => Ok "ID3";
     dbSetFail := ∅; unlinkFail := ∅;
     dupPolicy := RejectDuplicate; keyPolicy := RejectKeyUpdate; hasFfmpeg := false |}.

Definition rowOf (i : string) (size time : Z) : MusicCache :=
  {| mc_id := i; mc_name := lit "n"; mc_artist := lit "a"; mc_url := "u"; mc_cached := true;
     mc_cachePath := Some ("/srv/data/ncm-cache/" +:+ i +:+ ".mp3");
     mc_fileSize := Some size; mc_cacheTime := Some time; mc_bitrate := 320000 |}.

Definition emptyWorld : World :=
  {| searchSessions := ∅; rateLimitMap := ∅; downloadLocks := ∅; table := [];
     files := ∅; timers := ∅; nextTimer := 0%nat; now := 1700000000000;
     dbGetPlan := []; log := []; env := sampleEnv |}.

(** Two cached songs, 1,000,000 bytes together; ["7"] is the older one. *)
Definition twoSongs : World :=
  set_files (fun _ => {["/srv/data/ncm-cache/7.mp3"; "/srv/data/ncm-cache/8.mp3"]})
    (set_table (fun _ => [rowOf "8" 600000 20; rowOf "7" 400000 10]) emptyWorld).

(** A candidate whose id contains a hyphen, and one whose id has no
    character that survives sanitizing. *)
Definition songHyphen : SearchResult :=
  {| sr_id := "4-2"; sr_name := lit "Song"; sr_artist := lit "Artist"; sr_album := lit "Album";
     sr_duration := 180000; sr_fee := 0 |}.


Definition alice : Session :=
  {| platform := "onebot"; channelId := Some "100"; userId := "alice";
     content := Some (lit "2"); strippedContent := Some (lit "2"); onebot := false |}.

(** Song 42 is flagged as cached but its blob is gone from the disk. *)
Definition staleWorld : World :=
  set_table (fun _ => [rowOf "42" 200000 10]) emptyWorld.

Definition withPolicy (d : DupPolicy) (w : World) : World :=
  {| searchSessions := searchSessions w; rateLimitMap := rateLimitMap w;
     downloadLocks := downloadLocks w; table := table w; files := files w;
     timers := timers w; nextTimer := nextTimer w; now := now w;
     dbGetPlan := dbGetPlan w; log := log w;
     env := {| remoteSearch := remoteSearch (env w); remoteUrl := remoteUrl (env w);
               remoteBlob := remoteBlob (env w); dbSetFail := dbSetFail (env w);
               unlinkFail := unlinkFail (env w); dupPolicy := d;
               keyPolicy := keyPolicy (env w); hasFfmpeg := hasFfmpeg (env w) |} |}.

Definition sentMessages (l : list Event) : list Msg :=
  omap (fun e => match e with ESent _ m => Some m | _ => None end) l.

Definition bob : Session :=
  {| platform := "onebot"; channelId := Some "100"; userId := "bob";
     content := Some (lit "1"); strippedContent := Some (lit "1"); onebot := false |}.

(** Alice and Bob both ask for song 42, which is not cached. *)
Definition twoRequests : System :=
  spawn (handleSongRequest sampleConfig sampleHost bob song42 None false)
    (spawn (handleSongRequest sampleConfig sampleHost alice song42 None false)
       {| tasks := []; world := emptyWorld |}).

(** Bob's request reaches the lock test while Alice's is suspended in
    [session.send] between her own test and [downloadLocks.add]. *)
Definition racingOrder : list nat :=
  [0; 0; 1; 1; 0; 0; 0; 0; 1; 1; 1; 1]%nat.

(** The same race, with both requests then run to their end. *)
Definition racingToTheEnd : list nat :=
  racingOrder ++ [0; 0; 0; 1; 1; 1; 1; 1]%nat.

(** Alice's request has taken the lock before Bob's reaches the test. *)
Definition politeOrder : list nat :=
  [0; 0; 0; 1; 1; 1; 0; 0; 0]%nat.

(** Alice has an open selection among three candidates; its timer is 7. *)
Definition threeCandidates : SearchSession :=
  {| ss_results := [song42; song43; songHyphen]; ss_timeout := 7%nat;
     ss_sendFormat := None; ss_compress := false |}.

Definition awaitingChoice : World :=
  set_timers (insert 7%nat (1700000030000, getSessionKey alice))
    (set_searchSessions (insert (getSessionKey alice) threeCandidates) emptyWorld).

Definition replying (text : jsString) (s : Session) : Session :=
  {| platform := platform s; channelId := channelId s; userId := userId s;
     content := Some text; strippedContent := Some text; onebot := onebot s |}.

Definition noOptions : ParsedOptions :=
  {| opt_audio := false; opt_file := false; opt_compress := false |}.

(** Alice searches (two candidates come back), and searches again twenty
    seconds later, before she has chosen; ten seconds after that the timer of
    the first search is due. *)
Definition searchedOnce : World :=
  (run (ncmget sampleConfig sampleHost alice noOptions "song") emptyWorld).2.

Definition searchedTwice : World :=
  (run (ncmget sampleConfig sampleHost alice noOptions "song")
     (set_now (1700000000000 + 20000) searchedOnce)).2.

Definition firstTimerDue : World := set_now (1700000000000 + 30000) searchedTwice.

(** The remote reports a 1,500,000-byte file for every song. *)
Definition withLargeDownload (w : World) : World :=
  {| searchSessions := searchSessions w; rateLimitMap := rateLimitMap w;
     downloadLocks := downloadLocks w; table := table w; files := files w;
     timers := timers w; nextTimer := nextTimer w; now := now w;
     dbGetPlan := dbGetPlan w; log := log w;
     env := {| remoteSearch := remoteSearch (env w);
               remoteUrl := fun _ =>
                 Ok (Some {| su_id := "42"; su_url := "http://m.example/42.mp3";
                             su_br := 320000; su_size := 1500000; su_md5 := "";
                             su_type := "mp3" |});
               remoteBlob := remoteBlob (env w); dbSetFail := dbSetFail (env w);
               unlinkFail := unlinkFail (env w); dupPolicy := dupPolicy (env w);
               keyPolicy := keyPolicy (env w); hasFfmpeg := hasFfmpeg (env w) |} |}.

(** Song 42 is cached and its blob is on the disk. *)
Definition cachedWorld : World :=
  set_files (fun _ => {["/srv/data/ncm-cache/42.mp3"]}) staleWorld.

(** ** The request envelope ([service.ts]: [weapi], [aesEncrypt],
       [rsaEncrypt], [powMod]) *)

Module Envelope.

(** *** Built-ins on strings and [BigInt]s *)

Definition hexChar (d : Z) : ascii :=
  match d with
  | 0 => "0" | 1 => "1" | 2 => "2" | 3 => "3" | 4 => "4" | 5 => "5" | 6 => "6"
  | 7 => "7" | 8 => "8" | 9 => "9" | 10 => "a" | 11 => "b" | 12 => "c"
  | 13 => "d" | 14 => "e" | _ => "f"
  end%char.

Definition hexValue (c : ascii) : option Z :=
  let n := Z.of_nat (nat_of_ascii c) in
  if (48 <=? n) && (n <=? 57) then Some (n - 48)
  else if (97 <=? n) && (n <=? 102) then Some (n - 87)
  else if (65 <=? n) && (n <=? 70) then Some (n - 55)
  else None.

Definition isLowerHex (c : ascii) : bool :=
  isDigit c || charBetween 97 102 c.

Definition codeOf (c : ascii) : Z := Z.of_nat (nat_of_ascii c).

(** [Buffer.from(s).toString('hex')] for a string of one-byte characters. *)
Fixpoint toHexBytes (s : string) : string :=
  match s with
  | EmptyString => EmptyString
  | String c rest =>
      String (hexChar (codeOf c / 16)) (String (hexChar (codeOf c mod 16)) (toHexBytes rest))
  end.

Fixpoint parseHexFrom (acc : Z) (digits : string) : option Z :=
  match digits with
  | EmptyString => Some acc
  | String c rest =>
      match hexValue c with
      | Some d => parseHexFrom (acc * 16 + d) rest
      | None => None
      end
  end.

(** [BigInt(s)] for the literals the code builds, ['0x' + hex]; [None] is
    the [SyntaxError]. *)
Definition BigInt (s : string) : option Z :=
  match s with
  | String "0" (String "x" (String c rest)) => parseHexFrom 0 (String c rest)
  | _ => None
  end.

(** [n.toString(16)] for [n >= 0]. *)
Fixpoint toHexDigits (fuel : nat) (n : Z) (acc : string) : string :=
  match fuel with
  | O => acc
  | S fuel' =>
      let acc' := String (hexChar (n mod 16)) acc in
      if n / 16 =? 0 then acc' else toHexDigits fuel' (n / 16) acc'
  end.

Definition toString16 (n : Z) : string :=
  toHexDigits (S (Z.to_nat (Z.log2 n))) n EmptyString.

Fixpoint repeatChar (n : nat) (c : ascii) : string :=
  match n with
  | O => EmptyString
  | S n' => String c (repeatChar n' c)
  end.

(** [s.padStart(width, fill)] with a one-character [fill]. *)
Definition padStart (width : nat) (fill : ascii) (s : string) : string :=
  repeatChar (width - String.length s) fill +:+ s.

(** [text.split('').reverse().join('')] *)
Definition reverseString (text : string) : string :=
  String.string_of_list_ascii (reverse (String.list_ascii_of_string text)).

(** *** [powMod] *)

(** The [while (exp > 0)] loop; [%] and [/] on [BigInt] truncate. *)
Fixpoint powModLoop (fuel : nat) (result base exp mod_ : Z) : option Z :=
  if 0 <? exp then
    match fuel with
    | O => None
    | S fuel' =>
        let result := if Z.rem exp 2 =? 1 then Z.rem (result * base) mod_ else result in
        let exp := Z.quot exp 2 in
        let base := Z.rem (base * base) mod_ in
        powModLoop fuel' result base exp mod_
    end
  else Some result.

(** The loop halves [exp], so it runs once per binary digit of [exp]. *)
Definition powMod (base exp mod_ : Z) : option Z :=
  if mod_ =? 0 then None
  else powModLoop (S (Z.to_nat (Z.log2 exp))) 1 (Z.rem base mod_) exp mod_.

(** *** The encoder *)

Definition alphabet : string :=
  "abcdefghijklmnopqrstuvwxyzABCDEFGHIJKLMNOPQRSTUVWXYZ0123456789".

(** A value of [Math.random()]: the binary64 number
    [mantissa * 2^(-scale)], where [0 <= mantissa < 2^53] and
    [53 <= scale <= 1074].  Every binary64 number in [0, 1) is of this
    form. *)
Record Double01 := {
  mantissa : Z;
  scale : Z;
}.

Definition isDouble01 (r : Double01) : Prop :=
  0 <= mantissa r < 2 ^ 53 /\ 53 <= scale r <= 1074.

(** [p / 2^d] rounded to the nearest integer, a tie to the even one. *)
Definition roundHalfEven (p d : Z) : Z :=
  let q := p / 2 ^ d in
  let rest := p mod 2 ^ d in
  let half := 2 ^ (d - 1) in
  if rest <? half then q
  else if half <? rest then q + 1
  else if Z.even q then q else q + 1.

(** [Math.floor(r * 62)].  The product is a binary64 number: of the exact
    product [62 * mantissa], at the same scale, the 53 leading bits are kept
    and the [d] bits below them are rounded away. *)
Definition floorTimes62 (r : Double01) : Z :=
  let p := 62 * mantissa r in
  let d := Z.log2 p - 52 in
  let product := if 0 <? d then roundHalfEven p d * 2 ^ d else p in
  product / 2 ^ scale r.

(** ['...'[Math.floor(r * 62)]] for a value [r] of [Math.random()]. *)
Definition pick (r : Double01) : option ascii :=
  String.get (Z.to_nat (floorTimes62 r)) alphabet.

(** [Array.from({ length: 16 }, () => ...).join('')]; [rnd i] is the
    [i]-th value [Math.random()] returns. *)
Definition secKeyOf (rnd : nat -> Double01) : string :=
  String.string_of_list_ascii (omap (fun i => pick (rnd i)) (seq 0 16)).

Definition rsaEncrypt (text : string) : option string :=
  let reversed := reverseString text in
  let hex := toHexBytes reversed in
  bi ← BigInt ("0x" +:+ hex);
  modulus ← BigInt "0x00e0b509f6259df8642dbc35662901477df22677ec152b5ff68ace615bb7b725152b3ab17a876aea8a5aa76d2e417629ec4ee341f56135fccf695280104e0312ecbda92557c93870114af6c9d05c4f7f0c3685b7a46bee255932575cce10b424d813cfe4875d3e82047b97ddef52741d546b8e289dc6935b3ece0462db0a22b8e7";
  exponent ← BigInt "0x010001";
  encrypted ← powMod bi exponent modulus;
  Some (padStart 256 "0" (toString16 encrypted)).

Section Weapi.
(** [JSON.stringify], [crypto.createCipheriv(alg, key, iv)] followed by
    [update(text, 'utf8', 'base64') + final('base64')], and
    [encodeURIComponent]. *)
Context {Params : Type}.
Context (JSON_stringify : Params -> string).
Context (cipherBase64 : string -> string -> string -> string -> string).
Context (encodeURIComponent : string -> string).

Definition aesEncrypt (text key : string) : string :=
  cipherBase64 "aes-128-cbc" key "0102030405060708" text.

Definition weapi (rnd : nat -> Double01) (params : Params) : option string :=
  let text := JSON_stringify params in
  let secKey := secKeyOf rnd in
  let encText := aesEncrypt (aesEncrypt text "0CoJUm6Qyw8W8jud") secKey in
  encSecKey ← rsaEncrypt secKey;
  Some ("params=" +:+ encodeURIComponent encText
        +:+ "&encSecKey=" +:+ encodeURIComponent encSecKey).
End Weapi.

(** *** The transform in the words of the specification *)

(** [y] is the multiple of [2^d] nearest to [p], the even multiple when two
    are equally near: what rounding to binary64 keeps of an integer [p]
    that has [d] bits more than the 53 of a mantissa. *)
Definition nearestTiesEven (p d y : Z) : Prop :=
  exists n, y = n * 2 ^ d
            /\ 2 * Z.abs (p - y) <= 2 ^ d
            /\ (2 * Z.abs (p - y) = 2 ^ d -> Z.even n = true).

(** The integer whose big-endian bytes are the byte-reversed secret: the
    first character of the secret is the least significant byte. *)
Fixpoint byteReversedValue (secret : string) : Z :=
  match secret with
  | EmptyString => 0
  | String c rest => codeOf c + 256 * byteReversedValue rest
  end.

(** The big-endian value of the bytes of [s], continuing from [acc]. *)
Fixpoint bigEndianFrom (acc : Z) (s : string) : Z :=
  match s with
  | EmptyString => acc
  | String c rest => bigEndianFrom (acc * 256 + codeOf c) rest
  end.

Definition publicModulus : Z :=
  0x00e0b509f6259df8642dbc35662901477df22677ec152b5ff68ace615bb7b725152b3ab17a876aea8a5aa76d2e417629ec4ee341f56135fccf695280104e0312ecbda92557c93870114af6c9d05c4f7f0c3685b7a46bee255932575cce10b424d813cfe4875d3e82047b97ddef52741d546b8e289dc6935b3ece0462db0a22b8e7.

Definition publicExponent : Z := 0x010001.

Definition sharedSecret : string := "0CoJUm6Qyw8W8jud".
Definition fixedIV : string := "0102030405060708".

End Envelope.
(** ** The argument tokenizer ([index.ts]: [parseArgs], [KNOWN_FLAGS])

    The command line is read by code unit; the white space is that of
    [\s], which [isSpace] gives. *)

Module Args.

(** [/[a-zA-Z]/.test(c)] *)
Definition isLetter (c : N) : bool :=
  ((65 <=? c) && (c <=? 90) || (97 <=? c) && (c <=? 122))%N.

(** [quoteMap]: the closing quote of an opening one. *)
Definition quoteMap (c : N) : option N :=
  if (c =? 34)%N then Some 34%N
  else if (c =? 39)%N then Some 39%N
  else if (c =? 0x201c)%N then Some 0x201d%N
  else if (c =? 0x2018)%N then Some 0x2019%N
  else None.

(** [KNOWN_FLAGS.has(c)]: ['a'], ['f'], ['z']. *)
Definition KNOWN_FLAGS (c : N) : bool := ((c =? 97) || (c =? 102) || (c =? 122))%N.

(** [while (j < raw.length && P(raw[j])) j++], on the code units from [j]
    on. *)
Fixpoint skipWhile (P : N -> bool) (rest : list N) (j : nat) : nat :=
  match rest with
  | c :: rest' => if P c then skipWhile P rest' (S j) else j
  | [] => j
  end.

Fixpoint indexFrom (c : N) (rest : list N) (j : nat) : option nat :=
  match rest with
  | x :: rest' => if (x =? c)%N then Some j else indexFrom c rest' (S j)
  | [] => None
  end.

(** [raw.indexOf(c, start)] for a one-unit [c]; [None] is [-1]. *)
Definition indexOf (c : N) (raw : list N) (start : nat) : option nat :=
  indexFrom c (drop start raw) start.

(** [raw.slice(start, end)] *)
Definition slice (raw : list N) (start end_ : nat) : list N :=
  take (end_ - start) (drop start raw).

(** The body of [for (const c of chars)]. *)
Definition setFlag (options : ParsedOptions) (c : N) : ParsedOptions :=
  {| opt_audio := opt_audio options || (c =? 97)%N;
     opt_file := opt_file options || (c =? 102)%N;
     opt_compress := opt_compress options || (c =? 122)%N |}.

Definition setFlags (chars : list N) (options : ParsedOptions) : ParsedOptions :=
  foldl setFlag options chars.

(** [parts.join(sep)] *)
Fixpoint join (sep : list N) (parts : list (list N)) : list N :=
  match parts with
  | [] => []
  | [p] => p
  | p :: rest => p ++ sep ++ join sep rest
  end.

(** The [while (i < raw.length)] loop.  Every iteration moves [i] forward,
    so [length raw] iterations are enough. *)
Fixpoint scan (fuel : nat) (raw : list N) (i : nat) (parts : list (list N))
    (options : ParsedOptions) : option (list (list N) * ParsedOptions) :=
  match raw !! i with
  | None => Some (parts, options)
  | Some c =>
      match fuel with
      | O => None
      | S fuel =>
          if isSpace c then scan fuel raw (S i) parts options
          else
            match close ← quoteMap c; indexOf close raw (S i) with
            | Some end_ =>
                scan fuel raw (S end_) (parts ++ [slice raw (S i) end_]) options
            | None =>
                let token :=
                  let j := skipWhile (fun c => negb (isSpace c)) (drop i raw) i in
                  scan fuel raw j (parts ++ [slice raw i j]) options in
                if (c =? 45)%N && from_option isLetter false (raw !! S i) then
                  let j := skipWhile isLetter (drop (S i) raw) (S i) in
                  if (length raw <=? j)%nat || from_option isSpace false (raw !! j) then
                    let chars := slice raw (S i) j in
                    if forallb KNOWN_FLAGS chars then
                      scan fuel raw j parts (setFlags chars options)
                    else scan fuel raw j (parts ++ [slice raw i j]) options
                  else token
                else token
            end
      end
  end.

Definition parseArgs (raw : list N) : option (list N * ParsedOptions) :=
  '(parts, options) ← scan (length raw) raw 0 [] noOptions;
  Some (join [32%N] parts, options).

End Args.

(** *** What a user types, token by token *)

Module Typed.

Inductive Token :=
| Word (w : list N)
| Dash (letters : list N)
| Quoted (q : N) (body : list N).

(** A hyphen followed by letters only. *)
Definition optionLike (w : list N) : bool :=
  match w with
  | c :: (_ :: _) as letters => (c =? 45)%N && forallb Args.isLetter letters
  | _ => false
  end.

Definition closing (q : N) : N := default q (Args.quoteMap q).

Definition render (t : Token) : list N :=
  match t with
  | Word w => w
  | Dash letters => 45%N :: letters
  | Quoted q body => q :: body ++ [closing q]
  end.

(** A word is not empty, holds no whitespace, does not open a quotation and
    is not a hyphen followed by letters only; the body of a quotation does
    not hold its closing quote. *)
Definition wellFormed (t : Token) : Prop :=
  match t with
  | Word w =>
      w ≠ [] /\ forallb (fun c => negb (isSpace c)) w = true
      /\ (head w ≫= Args.quoteMap) = None /\ optionLike w = false
  | Dash letters => letters ≠ [] /\ forallb Args.isLetter letters = true
  | Quoted q body => is_Some (Args.quoteMap q) /\ closing q ∉ body
  end.

(** A word or a hyphen group ends at whitespace or at the end of the input;
    a quotation ends at its closing quote. *)
Definition needsGap (t : Token) : bool :=
  match t with
  | Quoted _ _ => false
  | _ => true
  end.

(** The tokens with the whitespace typed after each. *)
Fixpoint wellSpaced (items : list (Token * list N)) : Prop :=
  match items with
  | [] => True
  | (t, gap) :: rest =>
      wellFormed t /\ forallb isSpace gap = true
      /\ (needsGap t = true -> gap = [] -> rest = [])
      /\ wellSpaced rest
  end.

Definition typed (lead : list N) (items : list (Token * list N)) : list N :=
  lead ++ concat ((fun item => render item.1 ++ item.2) <$> items).

(** What each token stands for: a part of the keyword, or flags. *)
Definition partOf (t : Token) : option (list N) :=
  match t with
  | Word w => Some w
  | Dash letters =>
      if forallb Args.KNOWN_FLAGS letters then None else Some (45%N :: letters)
  | Quoted _ body => Some body
  end.

Definition flagsOf (options : ParsedOptions) (t : Token) : ParsedOptions :=
  match t with
  | Dash letters =>
      if forallb Args.KNOWN_FLAGS letters then
        {| opt_audio := opt_audio options || bool_decide (97%N ∈ letters);
           opt_file := opt_file options || bool_decide (102%N ∈ letters);
           opt_compress := opt_compress options || bool_decide (122%N ∈ letters) |}
      else options
  | _ => options
  end.

(** The end of a token: nothing, or whitespace. *)
Definition atBoundary (rest : list N) : Prop :=
  from_option isSpace true (head rest) = true.

(** What one run of the loop may add: parts cut out of [raw], and a flag
    only when [raw] holds a hyphen and the flag's letter. *)
Definition grows (raw : list N) (before after : list (list N) * ParsedOptions) : Prop :=
  (exists new, after.1 = before.1 ++ new /\ Forall (fun part => part ⊆ raw) new)
  /\ (opt_audio after.2 = true -> opt_audio before.2 = true \/ 45%N ∈ raw /\ 97%N ∈ raw)
  /\ (opt_file after.2 = true -> opt_file before.2 = true \/ 45%N ∈ raw /\ 102%N ∈ raw)
  /\ (opt_compress after.2 = true ->
      opt_compress before.2 = true \/ 45%N ∈ raw /\ 122%N ∈ raw).

End Typed.

(** ** The [dispose] listener ([index.ts], lines 178-184)

    [clearInterval] stops the limiter's sweep, which has no state of its
    own here; the loop clears the timer of every open session, and the map
    of sessions is emptied. *)
Definition clearTimerOf (w : World) (entry : string * SearchSession) : World :=
  clearTimeout (ss_timeout entry.2) w.

Definition dispose (w : World) : World :=
  set_searchSessions (fun _ => ∅) (foldl clearTimerOf w (map_to_list (searchSessions w))).

(** ** The cookie store ([service.ts]: [loadCookies], [getCookieString]) *)

Module Cookies.

(** [s.split(sep)] for a separator of one code unit: the pieces between the
    separators, at least one. *)
Fixpoint split (sep : N) (s : jsString) : list jsString :=
  match s with
  | [] => [[]]
  | c :: rest =>
      if (c =? sep)%N then [] :: split sep rest
      else
        match split sep rest with
        | piece :: pieces => (c :: piece) :: pieces
        | [] => [[c]]
        end
  end.

(** [cookieStore], a plain object, as the list of its own properties in the
    order [Object.entries] lists them.  This is the order of creation for
    keys that are not array indices; a key made only of digits would be
    listed first, and [__proto__] would not become a property at all, so
    the model is of stores whose keys are [plainKey]s. *)
Definition Store := list (jsString * jsString).

Definition plainKey (key : jsString) : bool :=
  negb (allDigits key) && bool_decide (key ≠ lit "__proto__").

(** [store[key] = value]: a key that is there keeps its place. *)
Fixpoint assign (key value : jsString) (store : Store) : Store :=
  match store with
  | [] => [(key, value)]
  | (k, v) :: rest =>
      if decide (k = key) then (k, value) :: rest else (k, v) :: assign key value rest
  end.

(** The callback of [forEach] in the [key=value] branch:
    [const [key, value] = pair.trim().split('=')], then
    [if (key && value) this.cookieStore[key] = value]. *)
Definition addPair (store : Store) (pair : jsString) : Store :=
  match split 61 (trim pair) with
  | key :: value :: _ =>
      match key, value with
      | _ :: _, _ :: _ => assign key value store
      | _, _ => store
      end
  | _ => store
  end.

(** [s.startsWith(c)] for one code unit. *)
Definition startsWith (c : N) (s : jsString) : bool :=
  match s with
  | x :: _ => (x =? c)%N
  | [] => false
  end.

Section Load.
(** The JSON branch, with the [catch] around it. *)
Context (loadJson : jsString -> Store -> Store).

Definition loadCookies (cookie : jsString) (store : Store) : Store :=
  match cookie with
  | [] => store
  | _ =>
      if startsWith 91 (trim cookie) || startsWith 123 (trim cookie)
      then loadJson cookie store
      else foldl addPair store (split 59 cookie)
  end.
End Load.

(** [Object.entries(store).map(([k, v]) => `${k}=${v}`).join('; ')] *)
Definition getCookieString (store : Store) : jsString :=
  Args.join (lit "; ") ((fun entry => entry.1 ++ [61%N] ++ entry.2) <$> store).

(** The part of [s] before its first [sep]. *)
Fixpoint upTo (sep : N) (s : jsString) : jsString :=
  match s with
  | [] => []
  | c :: rest => if (c =? sep)%N then [] else c :: upTo sep rest
  end.

(** A key as it can be written in a [key=value; ...] string: not empty, no
    [;] and no [=], no white space in front, and a [plainKey]. *)
Definition writableKey (key : jsString) : Prop :=
  key ≠ [] /\ Forall (fun c => c ≠ 59%N /\ c ≠ 61%N) key
  /\ from_option isSpace false (head key) = false
  /\ plainKey key = true.

(** A value as it can be written: no [;], no white space at the end, and
    something before its first [=]. *)
Definition writableValue (value : jsString) : Prop :=
  upTo 61 value ≠ [] /\ Forall (fun c => c ≠ 59%N) value
  /\ from_option isSpace false (last value) = false.

End Cookies.

(** ** Durations ([service.ts]: [formatDuration])

    A duration is a whole number of milliseconds below 2^53.  For such a
    number the binary64 quotient by 1000 rounds to a value whose
    [Math.floor] is the integer quotient, and [toString] of the integers
    that arise is their plain decimal numeral. *)

(** [s.padStart(2, '0')] *)
Definition padStart2 (s : jsString) : jsString :=
  replicate (2 - length s) 48%N ++ s.

Definition formatDuration (ms : N) : jsString :=
  let seconds := (ms / 1000)%N in
  let minutes := (seconds / 60)%N in
  let secs := (seconds mod 60)%N in
  decimal minutes ++ [58%N] ++ padStart2 (decimal secs).

(** * Properties *)

(** ** The model on small inputs *)

Example sanitizeId_drops_separators : sanitizeId "12/../3 4" = "1234".
Proof. reflexivity. Qed.

Example trim_both_ends : trim (lit "  2 ") = lit "2".
Proof. reflexivity. Qed.

(** A no-break space and an ideographic space are trimmed like a space. *)
Example trim_unicode_space : trim [0xa0; 50; 0x3000]%N = lit "2".
Proof. reflexivity. Qed.

Example parseInt_leading_zeros : parseInt (lit "007") = Some 7.
Proof. reflexivity. Qed.

Example allDigits_rejects_sign : allDigits (lit "+2") = false /\ allDigits (lit "2") = true.
Proof. split; reflexivity. Qed.

Example resolve_under_cwd :
  path_resolve sampleHost ["data/ncm-cache"; "42.mp3"] = "/srv/data/ncm-cache/42.mp3"
  /\ Path.resolve "/srv/x" ["../a/./b//c/"; ""; "d/.."; "e"] = "/srv/a/b/c/e"
  /\ Path.resolve "/srv/x" ["/../../a"; "../.."] = "/".
Proof. repeat split. Qed.

Example sessionKey_of_alice : getSessionKey alice = "onebot:100:alice".
Proof. reflexivity. Qed.

(** The sort is ascending and keeps the order of rows with equal times. *)
Example sortBy_is_stable :
  mc_id <$> sortBy byCacheTime [rowOf "a" 1 20; rowOf "b" 1 10; rowOf "c" 1 20; rowOf "d" 1 10]
  = ["b"; "d"; "a"; "c"].
Proof. reflexivity. Qed.

(** A first request downloads, commits and sends; a second one is served
    from the cache: nothing is resolved or written again. *)
Example miss_then_hit :
  let first := (run (handleSongRequest sampleConfig sampleHost alice song42 None false)
                  emptyWorld).2 in
  let second := (run (handleSongRequest sampleConfig sampleHost alice song42 None false)
                   first).2 in
  log first
  = [EResolved "42";
     ESent "onebot:100:alice" (Text "commands.ncmget.messages.downloading");
     EWritten "/srv/data/ncm-cache/42.mp3";
     EDbCreated "42";
     ESent "onebot:100:alice"
       (FileMsg "file:///srv/data/ncm-cache/42.mp3" (lit "Artist - Song.mp3"))]
  /\ drop (length (log first)) (log second)
     = [ESent "onebot:100:alice"
          (FileMsg "file:///srv/data/ncm-cache/42.mp3" (lit "Artist - Song.mp3"))].
Proof. vm_compute. split; reflexivity. Qed.

(** Known answer for the public-key step, computed independently with
    arbitrary-precision integers. *)
Example rsaEncrypt_known_answer :
  Envelope.rsaEncrypt "abcdefghijklmnop"
  = Some "d15a1683c992095d0c234c19966605c5c5964911268bbeda8cb8d08d834913e59d53b32358903a121b5fca784c1f5ae44951fd02524df58ecc98e52cc7cf8689b42c2e93ddf05b0592512d87f5960467e2f086c018849d76014d323500e30f13ef4cafbb0cf5a66731a3f1776c75ca35d0062dac70a3e33245afabcf47938487".
Proof. vm_compute. reflexivity. Qed.

(** The random values [i / 16], and one for which the rounding of the
    product decides: 4648877034705028 / 2^53 is just below 32 / 62, the
    product is rounded to 32 and the character picked is [G], not [F]. *)
Example secKeyOf_sixteenths :
  Envelope.secKeyOf
    (fun i => {| Envelope.mantissa := Z.of_nat i * 2 ^ 49; Envelope.scale := 53 |})
  = "adhlptxBFIMQUY26".
Proof. vm_compute. reflexivity. Qed.

Example pick_rounds_the_product :
  Envelope.pick {| Envelope.mantissa := 4648877034705028; Envelope.scale := 53 |} = Some "G"%char
  /\ 62 * 4648877034705028 / 2 ^ 53 = 31.
Proof. vm_compute. split; reflexivity. Qed.

Example powMod_small : Envelope.powMod 4 13 497 = Some 445.
Proof. reflexivity. Qed.


(** ** Running composed programs *)

Lemma run_bind {A B} (p : Prog A) (f : A -> Prog B) w :
  run (p ≫= f) w =
  match run p w with
  | (Ok a, w') => run (f a) w'
  | (Err e, w') => (Err e, w')
  end.
Proof.
  unfold mbind, Prog_bind. revert w.
  induction p as [a|e|X g k IH|X op k IH]; intros w; simpl; try reflexivity.
  - destruct (g w) as [x w']. apply IH.
  - destruct (perform op w) as [r w']. apply IH.
Qed.

Lemma run_try_catch {A} (p : Prog A) (h : exn -> Prog A) w :
  run (try_catch p h) w =
  match run p w with
  | (Ok a, w') => (Ok a, w')
  | (Err e, w') => run (h e) w'
  end.
Proof.
  revert w.
  induction p as [a|e|X g k IH|X op k IH]; intros w; simpl; try reflexivity.
  - destruct (g w) as [x w']. apply IH.
  - destruct (perform op w) as [r w']. apply IH.
Qed.

Lemma run_try_finally {A} (p : Prog A) (q : Prog unit) w :
  run (try_finally p q) w =
  match run p w with
  | (r, w') =>
      match run q w' with
      | (Ok _, w'') => (r, w'')
      | (Err e, w'') => (Err e, w'')
      end
  end.
Proof.
  revert w.
  induction p as [a|e|X g k IH|X op k IH]; intros w; simpl.
  - change (bind q (fun _ => Ret a)) with (q ≫= (fun _ => Ret a)).
    rewrite run_bind. destruct (run q w) as [[[]|e] w']; reflexivity.
  - change (bind q (fun _ => Throw e)) with (q ≫= (fun _ : unit => @Throw A e)).
    rewrite run_bind. destruct (run q w) as [[[]|e'] w']; reflexivity.
  - destruct (g w) as [x w']. apply IH.
  - destruct (perform op w) as [r w']. apply IH.
Qed.

Lemma run_await {X} (op : Op X) w :
  run (await op) w =
  match perform op w with
  | (Ok x, w') => (Ok x, w')
  | (Err e, w') => (Err e, w')
  end.
Proof. simpl. destruct (perform op w) as [[x|e] w']; reflexivity. Qed.





(** ** Sums and sorting *)

Lemma foldl_size_acc rows a :
  foldl (fun sum c => sum + orZero (mc_fileSize c)) a rows = a + totalSize rows.
Proof.
  unfold totalSize. revert a. induction rows as [|c rows IH]; intros a; simpl; [lia|].
  rewrite IH, (IH (0 + _)). lia.
Qed.

Lemma totalSize_cons c rows : totalSize (c :: rows) = sizeOf c + totalSize rows.
Proof. unfold totalSize at 1. simpl. rewrite foldl_size_acc. unfold sizeOf. lia. Qed.

Lemma totalSize_nil : totalSize [] = 0.
Proof. reflexivity. Qed.

Lemma totalSize_app l1 l2 : totalSize (l1 ++ l2) = totalSize l1 + totalSize l2.
Proof.
  induction l1 as [|c l1 IH]; simpl; [rewrite totalSize_nil; lia|].
  rewrite !totalSize_cons, IH. lia.
Qed.


Lemma insertBy_perm {A} (cmp : A -> A -> Z) x l : insertBy cmp x l ≡ₚ x :: l.
Proof.
  induction l as [|y l IH]; simpl; [done|].
  destruct (cmp x y <=? 0); [done|]. rewrite IH. apply Permutation_swap.
Qed.



Lemma insertBy_sorted x l :
  StronglySorted olderOrSame l -> StronglySorted olderOrSame (insertBy byCacheTime x l).
Proof.
  induction 1 as [|y l Hs IH Hy]; simpl.
  - repeat constructor.
  - unfold byCacheTime at 1. fold (timeOf x) (timeOf y).
    destruct (Z.leb_spec (timeOf x - timeOf y) 0) as [Hle|Hgt].
    + constructor; [by constructor|].
      constructor; [unfold olderOrSame; lia|].
      eapply Forall_impl; [exact Hy|]. unfold olderOrSame. intros; lia.
    + constructor; [exact IH|].
      rewrite insertBy_perm. constructor; [unfold olderOrSame; lia | exact Hy].
Qed.

Lemma sortBy_sorted l : StronglySorted olderOrSame (sortBy byCacheTime l).
Proof.
  induction l as [|x l IH]; simpl; [constructor|]. by apply insertBy_sorted.
Qed.

Lemma StronglySorted_sublist {A} (R : A -> A -> Prop) l1 l2 :
  l1 `sublist_of` l2 -> StronglySorted R l2 -> StronglySorted R l1.
Proof.
  induction 1 as [|x l1 l2 Hsub IH|x l1 l2 Hsub IH]; intros Hs.
  - constructor.
  - apply StronglySorted_inv in Hs as [Hs Hx]. constructor; [by apply IH|].
    rewrite Forall_forall in *. intros y Hy. apply Hx.
    by eapply elem_of_sublist.
  - apply StronglySorted_inv in Hs as [Hs _]. by apply IH.
Qed.

(** ** One iteration of the eviction loop *)




Lemma evictOne_run c freed w :
  run (evictOne c freed) w =
  (Ok (if evictable w c then freed + sizeOf c else freed), afterEvict w c).
Proof.
  unfold evictOne, afterEvict, evictable, unlinkOk, setOk, afterUnlink, blobOf.
  rewrite run_try_catch, run_bind.
  destruct (truthy (mc_cachePath c)) as [p|].
  - rewrite run_await. simpl.
    destruct (decide (p ∈ files w ∧ p ∉ unlinkFail (env w))) as [Hp|Hp].
    + rewrite (bool_decide_eq_true_2 _ Hp). simpl.
      destruct (decide (mc_id c ∈ dbSetFail (env w))) as [Hs|Hs]; simpl.
      * rewrite bool_decide_eq_false_2 by (intros H; by apply H). reflexivity.
      * rewrite (bool_decide_eq_true_2 _ Hs). reflexivity.
    + rewrite (bool_decide_eq_false_2 _ Hp). reflexivity.
  - simpl.
    destruct (decide (mc_id c ∈ dbSetFail (env w))) as [Hs|Hs]; simpl.
    + rewrite bool_decide_eq_false_2 by (intros H; by apply H). reflexivity.
    + rewrite (bool_decide_eq_true_2 _ Hs). reflexivity.
Qed.

Lemma afterEvict_env w c : env (afterEvict w c) = env w.
Proof.
  unfold afterEvict, afterUnlink.
  destruct (unlinkOk w c), (setOk w c), (blobOf c); reflexivity.
Qed.

Lemma afterEvict_table w c :
  table (afterEvict w c) =
  if evictable w c then updateWhere (mc_id c) evictedFields (table w) else table w.
Proof.
  unfold afterEvict, afterUnlink, evictable.
  destruct (unlinkOk w c), (setOk w c), (blobOf c); reflexivity.
Qed.

Lemma afterEvict_dbSetIds w c :
  dbSetIds (log (afterEvict w c)) =
  dbSetIds (log w) ++ (if evictable w c then [mc_id c] else []).
Proof.
  unfold afterEvict, afterUnlink, evictable, dbSetIds.
  destruct (unlinkOk w c), (setOk w c), (blobOf c); simpl;
    rewrite ?omap_app; simpl; rewrite ?app_nil_r; reflexivity.
Qed.

Lemma afterEvict_unlinkedPaths w c :
  unlinkedPaths (log (afterEvict w c)) =
  unlinkedPaths (log w) ++ (if unlinkOk w c then omap blobOf [c] else []).
Proof.
  unfold afterEvict, afterUnlink, unlinkedPaths. simpl (omap blobOf [c]).
  destruct (unlinkOk w c), (setOk w c), (blobOf c); simpl;
    rewrite ?omap_app; simpl; rewrite ?app_nil_r; reflexivity.
Qed.

Lemma warnCount_snoc l e :
  warnCount (l ++ [e]) = (warnCount l + if isWarning e then 1 else 0)%nat.
Proof.
  unfold warnCount. rewrite filter_app, length_app. f_equal.
  rewrite filter_cons, filter_nil. destruct (isWarning e); reflexivity.
Qed.

Lemma afterEvict_warnCount w c :
  warnCount (log (afterEvict w c)) =
  (warnCount (log w) + if evictable w c then 0 else 1)%nat.
Proof.
  unfold afterEvict, afterUnlink, evictable.
  destruct (unlinkOk w c), (setOk w c), (blobOf c);
    simpl; rewrite ?warnCount_snoc; simpl; lia.
Qed.

Lemma afterEvict_plan w c : dbGetPlan (afterEvict w c) = dbGetPlan w.
Proof.
  unfold afterEvict, afterUnlink.
  destruct (unlinkOk w c), (setOk w c), (blobOf c); reflexivity.
Qed.

Lemma afterEvict_files w c p :
  blobOf c ≠ Some p -> p ∈ files (afterEvict w c) <-> p ∈ files w.
Proof.
  unfold afterEvict, afterUnlink. intros Hne.
  destruct (unlinkOk w c), (setOk w c), (blobOf c) as [q|]; simpl; try reflexivity;
    rewrite elem_of_difference, elem_of_singleton; split; try tauto;
    (intros Hp; split; [exact Hp | intros ->; by apply Hne]).
Qed.

(** Evicting one row does not change whether a row with another blob can
    be evicted. *)
Lemma afterEvict_evictable w c c' :
  (forall p, blobOf c = Some p -> blobOf c' ≠ Some p) ->
  evictable (afterEvict w c) c' = evictable w c'.
Proof.
  intros Hne. unfold evictable, unlinkOk, setOk. rewrite afterEvict_env.
  destruct (blobOf c') as [p'|] eqn:Hb'; [|reflexivity].
  f_equal. apply bool_decide_ext.
  rewrite afterEvict_files; [reflexivity|].
  intros Hc. by apply (Hne p').
Qed.

(** ** The eviction loop *)

Lemma filter_ext_elem_of {A} (P Q : A -> Prop)
    `{!forall x, Decision (P x), !forall x, Decision (Q x)} (l : list A) :
  (forall x, x ∈ l -> P x <-> Q x) -> filter P l = filter Q l.
Proof.
  induction l as [|x l IH]; intros Hext; [reflexivity|].
  rewrite !filter_cons. rewrite IH by (intros y Hy; apply Hext; by right).
  destruct (decide (P x)) as [HP|HP], (decide (Q x)) as [HQ|HQ]; try reflexivity;
    exfalso; apply (Hext x) in HP || apply (Hext x) in HQ; try done; by left.
Qed.


Lemma sweep_run B cur S caches : forall w freed,
  exists pre suf ev unl w',
    caches = pre ++ suf
    /\ run (sweep B cur S caches freed) w = (Ok tt, w')
    /\ ev `sublist_of` unl /\ unl `sublist_of` pre
    /\ (suf = [] \/ cur - (freed + totalSize ev) + S <= B)
    /\ table w' = clearRows (table w) ev
    /\ dbSetIds (log w') = dbSetIds (log w) ++ fmap mc_id ev
    /\ unlinkedPaths (log w') = unlinkedPaths (log w) ++ omap blobOf unl
    /\ env w' = env w
    /\ dbGetPlan w' = dbGetPlan w
    /\ (warnCount (log w') + length ev = warnCount (log w) + length pre)%nat
    /\ (NoDup (omap blobOf caches) -> ev = filter (fun c => evictable w c = true) pre).
Proof.
  induction caches as [|c rest IH]; intros w freed.
  - exists [], [], [], [], w. simpl. rewrite !app_nil_r, totalSize_nil.
    repeat split; auto.
  - simpl. destruct (Z.leb_spec (cur - freed + S) B) as [Hfit|Hover].
    + exists [], (c :: rest), [], [], w. simpl. rewrite !app_nil_r, totalSize_nil.
      repeat split; auto. right. lia.
    + rewrite run_bind, evictOne_run.
      destruct (IH (afterEvict w c) (if evictable w c then freed + sizeOf c else freed))
        as (pre & suf & ev & unl & w' & -> & Hrun & Hev & Hunl & Hstop & Htab & Hset & Hul & Henv & Hplan & Hwarn & Hnd).
      rewrite afterEvict_env in Henv. rewrite afterEvict_table in Htab.
      rewrite afterEvict_plan in Hplan. rewrite afterEvict_warnCount in Hwarn.
      rewrite afterEvict_dbSetIds in Hset. rewrite afterEvict_unlinkedPaths in Hul.
      assert (Hfilter : NoDup (omap blobOf (c :: pre ++ suf)) ->
                forall l, l ⊆ pre ++ suf ->
                filter (fun c' => evictable (afterEvict w c) c' = true) l
                = filter (fun c' => evictable w c' = true) l).
      { intros Hdup l Hl. apply filter_ext_elem_of.
        intros c' Hc'. rewrite afterEvict_evictable; [done|].
        intros p Hp Hp'. simpl in Hdup. rewrite Hp in Hdup.
        apply NoDup_cons in Hdup as [Hnotin _]. apply Hnotin.
        apply list_elem_of_omap. exists c'. split; [by apply Hl | done]. }
      assert (Htail : NoDup (omap blobOf (c :: pre ++ suf)) -> NoDup (omap blobOf (pre ++ suf))).
      { change (c :: pre ++ suf) with ([c] ++ (pre ++ suf)). rewrite omap_app.
        intros Hdup. by apply NoDup_app in Hdup as (_ & _ & ?). }
      assert (Hrest : NoDup (omap blobOf (c :: pre ++ suf)) ->
                ev = filter (fun c' => evictable w c' = true) pre).
      { intros Hdup. rewrite <- (Hfilter Hdup); [by apply Hnd, Htail|].
        intros x Hx. apply elem_of_app. by left. }
      exists (c :: pre), suf.
      destruct (evictable w c) eqn:Hevc.
      * assert (unlinkOk w c = true) as Hu
          by (unfold evictable in Hevc; by apply andb_true_iff in Hevc as [? _]).
        rewrite Hu in Hul.
        exists (c :: ev), (c :: unl), w'.
        split_and!; try done.
        -- by constructor.
        -- by constructor.
        -- destruct Hstop as [->|Hstop]; [by left|right].
           rewrite totalSize_cons. lia.
        -- by rewrite Hset, <- app_assoc.
        -- rewrite Hul, <- app_assoc, <- omap_app. reflexivity.
        -- simpl. lia.
        -- intros Hdup. rewrite filter_cons, decide_True by done. f_equal. by apply Hrest.
      * destruct (unlinkOk w c) eqn:Hu.
        -- exists ev, (c :: unl), w'.
           split_and!; try done.
           ++ by constructor.
           ++ by constructor.
           ++ by rewrite Hset, app_nil_r.
           ++ rewrite Hul, <- app_assoc, <- omap_app. reflexivity.
           ++ simpl. lia.
           ++ intros Hdup. rewrite filter_cons, decide_False by (rewrite Hevc; done).
              by apply Hrest.
        -- exists ev, unl, w'.
           split_and!; try done.
           ++ by constructor.
           ++ by rewrite Hset, app_nil_r.
           ++ by rewrite Hul, app_nil_r.
           ++ simpl. lia.
           ++ intros Hdup. rewrite filter_cons, decide_False by (rewrite Hevc; done).
              by apply Hrest.
Qed.

(** ** Accounting after rows are cleared *)




Lemma updateWhere_cons i f x t :
  updateWhere i f (x :: t) = (if String.eqb (mc_id x) i then f x else x) :: updateWhere i f t.
Proof. reflexivity. Qed.





(** ** [getCacheTotalSize] and [cleanOldCache] as functions of the world *)



Lemma getCacheTotalSize_run w :
  run getCacheTotalSize w =
  (Ok (if nextGetFails w then 0 else totalCachedBytes w), afterGet w).
Proof.
  unfold getCacheTotalSize. rewrite run_try_catch, run_bind, run_await. simpl.
  destruct (nextGetFails w); reflexivity.
Qed.

Lemma cleanOldCache_run cfg S w :
  run (cleanOldCache cfg S) w =
  let cur := if nextGetFails w then 0 else totalCachedBytes w in
  if cur + S <=? maxBytes cfg then (Ok tt, afterGet w)
  else if nextGetFails (afterGet w) then (Err DbError, afterGet (afterGet w))
  else run (sweep (maxBytes cfg) cur S (sortBy byCacheTime (cachedRows w)) 0)
           (afterGet (afterGet w)).
Proof.
  unfold cleanOldCache. rewrite run_bind, getCacheTotalSize_run.
  fold (maxBytes cfg). cbv zeta. destruct (_ <=? _); [reflexivity|].
  rewrite run_bind, run_await. simpl.
  destruct (nextGetFails (afterGet w)); reflexivity.
Qed.

(** ** Eviction: budget, order, and a failing size query *)






(** C6.  In every call of [cleanOldCache] the candidate rows are taken in
    ascending [cacheTime]: the rows split into the attempted ones [pre] and
    the ones the loop never reached [suf]; the rows whose blob was deleted
    [unl] and the rows whose cache fields were cleared [ev] are
    sub-sequences of [pre] and are sorted by [cacheTime]; every attempted row
    that was not cleared logged a warning; and no attempted row is newer than
    a row that was not reached. *)
Theorem eviction_oldest_first cfg S w :
  let w' := (run (cleanOldCache cfg S) w).2 in
  exists pre suf ev unl,
    pre ++ suf = sortBy byCacheTime (cachedRows w)
    /\ ev `sublist_of` unl /\ unl `sublist_of` pre
    /\ dbSetIds (log w') = dbSetIds (log w) ++ (mc_id <$> ev)
    /\ unlinkedPaths (log w') = unlinkedPaths (log w) ++ omap blobOf unl
    /\ (warnCount (log w') + length ev = warnCount (log w) + length pre)%nat
    /\ table w' = clearRows (table w) ev
    /\ StronglySorted olderOrSame ev
    /\ StronglySorted olderOrSame unl
    /\ (forall e s, e ∈ pre -> s ∈ suf -> timeOf e <= timeOf s).
Proof.
  cbv zeta. rewrite cleanOldCache_run. cbv zeta.
  set (cur := if nextGetFails w then 0 else totalCachedBytes w).
  assert (Hidle : exists pre suf ev unl,
    pre ++ suf = sortBy byCacheTime (cachedRows w)
    /\ ev `sublist_of` unl /\ unl `sublist_of` pre
    /\ dbSetIds (log w) = dbSetIds (log w) ++ (mc_id <$> ev)
    /\ unlinkedPaths (log w) = unlinkedPaths (log w) ++ omap blobOf unl
    /\ (warnCount (log w) + length ev = warnCount (log w) + length pre)%nat
    /\ table w = clearRows (table w) ev
    /\ StronglySorted olderOrSame ev
    /\ StronglySorted olderOrSame unl
    /\ (forall e s, e ∈ pre -> s ∈ suf -> timeOf e <= timeOf s)).
  { exists [], (sortBy byCacheTime (cachedRows w)), [], [].
    split_and!; try done; rewrite ?app_nil_r; try done; try constructor.
    intros e s He. by apply elem_of_nil in He. }
  destruct (cur + S <=? maxBytes cfg); [exact Hidle|].
  destruct (nextGetFails (afterGet w)); [exact Hidle|]. clear Hidle.
  destruct (sweep_run (maxBytes cfg) cur S (sortBy byCacheTime (cachedRows w))
              (afterGet (afterGet w)) 0)
    as (pre & suf & ev & unl & w' & Hsplit & Hrun & Hev & Hunl & Hstop & Htab & Hset
        & Hul & Henv & Hplan' & Hwarn & Hnd).
  rewrite Hrun. cbn [snd].
  pose proof (sortBy_sorted (cachedRows w)) as Hsorted. rewrite Hsplit in Hsorted.
  assert (StronglySorted olderOrSame unl) as Hsunl.
  { eapply StronglySorted_sublist; [exact Hunl|]. by eapply StronglySorted_app_1_l. }
  exists pre, suf, ev, unl. split_and!; try done.
  - by eapply StronglySorted_sublist.
  - intros e s He Hs. by eapply (StronglySorted_app_1_elem_of olderOrSame pre suf).
Qed.

(** C10, as the code has it.  When the query of [getCacheTotalSize] throws,
    the function returns 0; [cleanOldCache] then returns without touching the
    table, the files or the log, provided the incoming size alone is within
    the budget, and whatever follows the call (the download) runs on. *)
Theorem size_query_failure_skips_eviction cfg S w :
  nextGetFails w = true ->
  run getCacheTotalSize w = (Ok 0, afterGet w)
  /\ (S <= maxBytes cfg ->
      run (cleanOldCache cfg S) w = (Ok tt, afterGet w)
      /\ table (afterGet w) = table w
      /\ files (afterGet w) = files w
      /\ log (afterGet w) = log w
      /\ forall (A : Type) (next : Prog A),
           run (cleanOldCache cfg S;; next) w = run next (afterGet w)).
Proof.
  intros Hfail. rewrite getCacheTotalSize_run, Hfail.
  split; [reflexivity|]. intros Hfit.
  assert (Hclean : run (cleanOldCache cfg S) w = (Ok tt, afterGet w)).
  { rewrite cleanOldCache_run, Hfail. cbv zeta.
    destruct (Z.leb_spec (0 + S) (maxBytes cfg)); [done|lia]. }
  split_and!; try done.
  intros A next. by rewrite run_bind, Hclean.
Qed.

Lemma size_query_failure_skips_eviction_witness :
  run (cleanOldCache sampleConfig 200000) (set_dbGetPlan [true] twoSongs)
  = (Ok tt, afterGet (set_dbGetPlan [true] twoSongs)).
Proof.
  apply (size_query_failure_skips_eviction sampleConfig 200000 (set_dbGetPlan [true] twoSongs)).
  - reflexivity.
  - vm_compute. discriminate.
Defined.

(** C10 as stated fails when the incoming size alone exceeds the budget: with
    a 1 MB budget and a 1,500,000-byte download, a size query that throws is
    followed by the second query; if that one answers, both cached songs are
    evicted, and if it throws too, [cleanOldCache] throws and the request
    for song 42 ends with the download-error message and nothing written. *)
Lemma size_query_failure_counterexample :
  nextGetFails (set_dbGetPlan [true] twoSongs) = true
  /\ 1500000 > maxBytes sampleConfig
  /\ dbSetIds (log (run (cleanOldCache sampleConfig 1500000)
                      (set_dbGetPlan [true] twoSongs)).2) = ["7"; "8"]
  /\ (run (cleanOldCache sampleConfig 1500000)
        (set_dbGetPlan [true; true] twoSongs)).1 = Err DbError
  /\ (let w' := (run (handleSongRequest sampleConfig sampleHost alice song42 None false)
                   (withLargeDownload (set_dbGetPlan [false; true; true] twoSongs))).2 in
      sentMessages (log w')
      = [Text "commands.ncmget.messages.downloading";
         Text "commands.ncmget.messages.download-error"]
      /\ writtenPaths (log w') = []).
Proof. vm_compute. repeat split. Qed.

(** ** Step-wise invariants of programs *)

Section Respects.
Context (R : World -> World -> Prop) `{!Reflexive R, !Transitive R}.

Lemma respects_run {A} (p : Prog A) : respects R p -> forall w, R w (run p w).2.
Proof.
  induction 1 as [a|e|X f k Hf Hk IH|X op k Hop Hk IH]; intros w; simpl.
  - reflexivity.
  - reflexivity.
  - specialize (Hf w). destruct (f w) as [x w1]. etrans; [exact Hf|]. apply IH.
  - specialize (Hop w). destruct (perform op w) as [r w1]. etrans; [exact Hop|]. apply IH.
Qed.

Lemma respects_bind {A B} (p : Prog A) (f : A -> Prog B) :
  respects R p -> (forall a, respects R (f a)) -> respects R (p ≫= f).
Proof.
  unfold mbind, Prog_bind. intros Hp Hf.
  induction Hp; simpl; try by constructor. apply Hf.
Qed.

Lemma respects_try_catch {A} (p : Prog A) (h : exn -> Prog A) :
  respects R p -> (forall e, respects R (h e)) -> respects R (try_catch p h).
Proof.
  intros Hp Hh. induction Hp; simpl; try by constructor. apply Hh.
Qed.

Lemma respects_try_finally {A} (p : Prog A) (q : Prog unit) :
  respects R p -> respects R q -> respects R (try_finally p q).
Proof.
  intros Hp Hq. induction Hp; simpl; try by constructor.
  - apply (respects_bind q); [done|]. constructor.
  - apply (respects_bind q); [done|]. constructor.
Qed.

Lemma respects_await {X} (op : Op X) :
  (forall w, R w (perform op w).2) -> respects R (await op).
Proof. intros Hop. constructor; [done|]. intros [x|e]; constructor. Qed.

Lemma respects_modify (f : World -> World) :
  (forall w, R w (f w)) -> respects R (modify f).
Proof. intros Hf. constructor; [done|]. constructor. Qed.

Lemma respects_read {X} (f : World -> X) : respects R (read f).
Proof. constructor; [reflexivity|]. constructor. Qed.
End Respects.

(** ** What a request may write *)


Section WritesOnly.
Context (P : string -> Prop).














End WritesOnly.




(** What [fetchSong] does for an id with no character left after sanitizing,
    once the remote has resolved the song. *)
Lemma fetchSong_rejects_empty_id cfg host session song cacheEntry fmt compress w u :
  sanitizeId (sr_id song) = "" ->
  remoteUrl (env w) (sr_id song) = Ok (Some u) -> su_url u ≠ "" ->
  run (fetchSong cfg host session song cacheEntry fmt compress) w =
  (Ok tt,
   emit (ESent (getSessionKey session) (Text "commands.ncmget.messages.download-error"))
     (emit (ELogged LError "非法歌曲ID") (emit (EResolved (sr_id song)) w))).
Proof.
  intros Hid Hurl Hnonempty. unfold fetchSong.
  rewrite run_bind, run_await. simpl. rewrite Hurl.
  destruct (decide (su_url u = "")); [done|]. rewrite Hid. reflexivity.
Qed.

(** ** [path.resolve] *)

Section PathProperties.
Import Path.












End PathProperties.

(** ** The path of a download *)






(** ** Programs that never start a download *)

Section Avoids.
Context (P : forall X, Op X -> bool).






End Avoids.











(** ** A cache row whose blob is gone *)

Lemma filter_id_updateWhere i f t :
  (forall c, mc_id (f c) = mc_id c) ->
  filter (fun c => matches (QId i) c = true) (updateWhere i f t)
  = f <$> filter (fun c => matches (QId i) c = true) t.
Proof.
  intros Hf. induction t as [|x t IH]; [reflexivity|].
  rewrite updateWhere_cons, !filter_cons. simpl matches.
  destruct (String.eqb (mc_id x) i) eqn:Hx.
  - rewrite Hf, Hx. rewrite !decide_True by done. rewrite fmap_cons. by f_equal.
  - rewrite Hx. rewrite !decide_False by done. exact IH.
Qed.

Lemma filter_id_absent i t :
  (forall c, c ∈ t -> mc_id c ≠ i) ->
  filter (fun c => matches (QId i) c = true) t = [].
Proof.
  induction t as [|x t IH]; intros Hno; [reflexivity|].
  rewrite filter_cons_False.
  - apply IH. intros c Hc. apply Hno. by right.
  - simpl. intros Heq. apply String.eqb_eq in Heq. by apply (Hno x); [left|].
Qed.

Lemma cacheCheck_invalidates cfg host session song fmt compress w entry p :
  nextGetFails w = false ->
  head (filter (fun c => matches (QId (sr_id song)) c = true) (table w)) = Some entry ->
  mc_cached entry = true -> truthy (mc_cachePath entry) = Some p -> p ∉ files w ->
  sr_id song ∉ dbSetFail (env w) ->
  run (cacheCheck cfg host session song fmt compress) w =
  (Ok (Some None),
   emit (EDbSet (sr_id song))
     (set_table (updateWhere (sr_id song) invalidatedFields) (afterGet w))).
Proof.
  intros Hget Hhead Hcached Hpath Hgone Hset. unfold cacheCheck.
  rewrite run_bind, run_await. cbn [perform]. rewrite Hget. cbv beta iota zeta.
  rewrite Hhead, Hcached, Hpath.
  rewrite run_try_catch, run_bind, run_await. simpl.
  rewrite decide_False by done. simpl.
  rewrite decide_False by done. reflexivity.
Qed.

Lemma cacheCheck_uncached cfg host session song fmt compress w entry :
  nextGetFails w = false ->
  head (filter (fun c => matches (QId (sr_id song)) c = true) (table w)) = Some entry ->
  mc_cached entry = false ->
  run (cacheCheck cfg host session song fmt compress) w = (Ok (Some (Some entry)), afterGet w).
Proof.
  intros Hget Hhead Hcached. unfold cacheCheck.
  rewrite run_bind, run_await. cbn [perform]. rewrite Hget. cbv beta iota zeta.
  rewrite Hhead, Hcached. reflexivity.
Qed.

Lemma cacheCheck_absent cfg host session song fmt compress w :
  nextGetFails w = false ->
  (forall c, c ∈ table w -> mc_id c ≠ sr_id song) ->
  run (cacheCheck cfg host session song fmt compress) w = (Ok (Some None), afterGet w).
Proof.
  intros Hget Hno. unfold cacheCheck.
  rewrite run_bind, run_await. cbn [perform]. rewrite Hget. cbv beta iota zeta.
  rewrite filter_id_absent by done. reflexivity.
Qed.

Lemma handleSongRequest_after_check cfg host session song fmt compress w w1 cacheEntry :
  run (cacheCheck cfg host session song fmt compress) w = (Ok (Some cacheEntry), w1) ->
  run (handleSongRequest cfg host session song fmt compress) w =
  run (try_catch (fetchSong cfg host session song cacheEntry fmt compress)
         (onRequestError session)) w1.
Proof.
  intros Hcheck. unfold handleSongRequest.
  rewrite !run_try_catch, run_bind, Hcheck. reflexivity.
Qed.

(** What the cache check does for a row whose blob is gone (the lookup and
    the update of the row succeeding): it neither serves nor fails, it clears
    the row's [cached] flag and nulls its path; the handler then continues
    with the program it runs for a song that has no row, although the row is
    still in the table; and a cache check made in the resulting world finds
    the row uncached. *)
Lemma missing_blob_invalidates_row cfg host session song fmt compress w entry p :
  nextGetFails w = false ->
  head (filter (fun c => matches (QId (sr_id song)) c = true) (table w)) = Some entry ->
  mc_cached entry = true -> truthy (mc_cachePath entry) = Some p -> p ∉ files w ->
  sr_id song ∉ dbSetFail (env w) ->
  let w1 := emit (EDbSet (sr_id song))
              (set_table (updateWhere (sr_id song) invalidatedFields) (afterGet w)) in
  run (cacheCheck cfg host session song fmt compress) w = (Ok (Some None), w1)
  /\ (forall c, c ∈ table w1 -> mc_id c = sr_id song ->
        mc_cached c = false /\ mc_cachePath c = None)
  /\ hasRow (sr_id song) (table w1) = true
  /\ run (handleSongRequest cfg host session song fmt compress) w =
     run (try_catch (fetchSong cfg host session song None fmt compress)
            (onRequestError session)) w1
  /\ (nextGetFails w1 = false ->
      exists entry',
        run (cacheCheck cfg host session song fmt compress) w1
        = (Ok (Some (Some entry')), afterGet w1)
        /\ mc_cached entry' = false).
Proof.
  intros Hget Hhead Hcached Hpath Hgone Hset w1.
  assert (Hcheck : run (cacheCheck cfg host session song fmt compress) w = (Ok (Some None), w1))
    by (by eapply cacheCheck_invalidates).
  assert (Hin : entry ∈ table w /\ mc_id entry = sr_id song).
  { destruct (filter _ (table w)) as [|x l] eqn:Hf; [done|]. simpl in Hhead.
    injection Hhead as ->.
    assert (Hx : entry ∈ filter (fun c => matches (QId (sr_id song)) c = true) (table w))
      by (rewrite Hf; left).
    apply list_elem_of_filter in Hx as [Hm Hx]. split; [done|].
    simpl in Hm. by apply String.eqb_eq. }
  split_and!.
  - exact Hcheck.
  - intros c Hc Hid. subst w1. simpl in Hc. unfold updateWhere in Hc.
    apply list_elem_of_fmap in Hc as (c0 & -> & Hc0).
    destruct (String.eqb_spec (mc_id c0) (sr_id song)) as [_|Hne]; [done|].
    by rewrite Hid in Hne.
  - subst w1. simpl table. unfold hasRow. apply existsb_exists.
    destruct Hin as [Hin Hid].
    exists (invalidatedFields entry). split; [|simpl; by apply String.eqb_eq].
    apply list_elem_of_In. unfold updateWhere. apply list_elem_of_fmap.
    exists entry. split; [|done]. destruct (String.eqb_spec (mc_id entry) (sr_id song)); done.
  - by apply handleSongRequest_after_check.
  - intros Hget1. exists (invalidatedFields entry). split; [|reflexivity].
    apply cacheCheck_uncached; [done| |reflexivity].
    subst w1. simpl table. rewrite filter_id_updateWhere by done.
    destruct (filter _ (table w)) as [|x l]; [done|]. simpl in Hhead. injection Hhead as ->.
    reflexivity.
Qed.

(** C8 fails on the code.  Song 42 has a row that says [cached] and its blob
    is gone.  The request clears the row, then fetches: the remote resolves
    the song, the blob is downloaded and written, and the commit inserts a
    row ([database.create]) because the handler has forgotten the row it has
    just cleared ([cacheEntry = undefined]) while that row still holds the
    primary key.  The insert is rejected, the request ends with the
    download-error message, and the row is left uncached next to a blob on
    the disk that no row points to. *)
Theorem missing_blob_refetch_fails :
  let blob := "/srv/data/ncm-cache/42.mp3" in
  let w' := (run (handleSongRequest sampleConfig sampleHost alice song42 None false)
               staleWorld).2 in
  (mc_cached <$> table staleWorld) = [true]
  /\ (mc_cachePath <$> table staleWorld) = [Some blob]
  /\ elements (files staleWorld) = []
  /\ sentMessages (log w')
     = [Text "commands.ncmget.messages.downloading";
        Text "commands.ncmget.messages.download-error"]
  /\ log w'
     = [EDbSet "42"; EResolved "42";
        ESent "onebot:100:alice" (Text "commands.ncmget.messages.downloading");
        EWritten blob;
        ELogged LError "获取歌曲失败";
        ESent "onebot:100:alice" (Text "commands.ncmget.messages.download-error")]
  /\ (mc_cached <$> table w') = [false]
  /\ (mc_cachePath <$> table w') = [None]
  /\ elements (files w') = [blob]
  /\ elements (downloadLocks w') = [].
Proof. vm_compute. repeat split. Qed.

(** How the rest of such a request ends depends on what [database.create]
    does with the id of the row that is still in the table: the handler has
    forgotten the row ([cacheEntry = undefined]) and inserts.  If the insert
    replaces the row, the song is committed and sent; if it is rejected, the
    blob is on disk, the row stays uncached and the user gets the
    download-error message. *)
Lemma refetch_commit_follows_insert_policy :
  let run_with d :=
    (run (handleSongRequest sampleConfig sampleHost alice song42 None false)
       (withPolicy d staleWorld)).2 in
  sentMessages (log (run_with ReplaceExisting))
  = [Text "commands.ncmget.messages.downloading";
     FileMsg "file:///srv/data/ncm-cache/42.mp3" (lit "Artist - Song.mp3")]
  /\ (mc_cached <$> table (run_with ReplaceExisting)) = [true]
  /\ sentMessages (log (run_with RejectDuplicate))
     = [Text "commands.ncmget.messages.downloading";
        Text "commands.ncmget.messages.download-error"]
  /\ (mc_cached <$> table (run_with RejectDuplicate)) = [false]
  /\ writtenPaths (log (run_with RejectDuplicate)) = ["/srv/data/ncm-cache/42.mp3"].
Proof. vm_compute. repeat split. Qed.

(** ** Two requests for the same song *)

(** When the lock is held at the time of the test, the request only sends
    the downloading notice. *)
Lemma fetchSong_busy cfg host session song cacheEntry fmt compress w u :
  remoteUrl (env w) (sr_id song) = Ok (Some u) -> su_url u ≠ "" ->
  sanitizeId (sr_id song) ≠ "" ->
  sanitizeId (sr_id song) ∈ downloadLocks w ->
  run (fetchSong cfg host session song cacheEntry fmt compress) w =
  (Ok tt,
   emit (ESent (getSessionKey session) (Text "commands.ncmget.messages.downloading"))
     (emit (EResolved (sr_id song)) w)).
Proof.
  intros Hurl Hnonempty Hid Hlocked. unfold fetchSong.
  rewrite run_bind, run_await. simpl. rewrite Hurl.
  destruct (decide (su_url u = "")); [done|].
  destruct (decide (sanitizeId (sr_id song) = "")); [done|].
  simpl. rewrite bool_decide_eq_true_2 by done. reflexivity.
Qed.

(** C1 fails on the code.  Bob's request tests the lock while Alice's is
    suspended in [session.send], after her test and before her
    [downloadLocks.add]: the lock set is still empty, so both pass.  With the
    order [racingOrder] both requests for song 42 are then suspended in
    [fs.writeFile] on the same blob path at the same time, while the lock set
    holds the id once; run to the end, the blob is written twice. *)
Theorem two_downloads_in_flight :
  let blob := "/srv/data/ncm-cache/42.mp3" in
  let passed := schedule [0; 0; 1; 1]%nat twoRequests in
  let σ := schedule racingOrder twoRequests in
  (suspendedIn <$> tasks passed) = ["session.send"; "session.send"]
  /\ elements (downloadLocks (world passed)) = []
  /\ (pendingWrite <$> tasks σ) = [Some blob; Some blob]
  /\ writersOf blob σ = 2%nat
  /\ elements (downloadLocks (world σ)) = ["42"]
  /\ sentMessages (log (world σ))
     = [Text "commands.ncmget.messages.downloading";
        Text "commands.ncmget.messages.downloading"]
  /\ writtenPaths (log (world (schedule racingToTheEnd twoRequests))) = [blob; blob].
Proof. vm_compute. repeat split. Qed.

(** The lock does its work when the second request reaches the test after
    the first one has added the id: one writer, and the second request has
    ended with the downloading notice. *)
Lemma lock_taken_before_test :
  let σ := schedule politeOrder twoRequests in
  writersOf "/srv/data/ncm-cache/42.mp3" σ = 1%nat
  /\ (finished <$> tasks σ) = [false; true]
  /\ writtenPaths (log (world σ)) = [].
Proof. vm_compute. repeat split. Qed.

(** ** The selection middleware *)

Lemma run_read {X} (f : World -> X) w : run (read f) w = (Ok (f w), w).
Proof. reflexivity. Qed.

Lemma run_modify (f : World -> World) w : run (modify f) w = (Ok tt, f w).
Proof. reflexivity. Qed.

Lemma run_sync {X} (f : World -> X * World) w :
  run (sync f) w = (Ok (f w).1, (f w).2).
Proof. unfold sync. simpl. by destruct (f w). Qed.

Lemma digitsValue_app s1 s2 : forall a,
  digitsValue a (s1 ++ s2) = digitsValue a s1 ≫= fun v => digitsValue v s2.
Proof.
  induction s1 as [|c s1 IH]; intros a; simpl; [done|].
  destruct (isDigitUnit c); [apply IH|done].
Qed.

Lemma decimalDigits_spec fuel : forall n acc,
  (1 <= fuel)%nat -> 0 <= n < 10 ^ Z.of_nat fuel ->
  exists ds,
    decimalDigits fuel n acc = ds ++ acc
    /\ ds ≠ []
    /\ forallb isDigitUnit ds = true
    /\ forall a, digitsValue a ds = Some (a * 10 ^ Z.of_nat (length ds) + n).
Proof.
  induction fuel as [|fuel IH]; intros n acc Hfuel Hn; [lia|].
  cbn [decimalDigits]. cbv zeta.
  pose proof (Z.div_mod n 10 ltac:(lia)) as Hdm.
  pose proof (Z.mod_pos_bound n 10 ltac:(lia)) as Hdigit.
  set (d := (48 + Z.to_N (n mod 10))%N).
  assert (Hd : isDigitUnit d = true /\ Z.of_N d - 48 = n mod 10).
  { unfold isDigitUnit, d. split; [|lia].
    apply andb_true_iff. split; apply N.leb_le; lia. }
  destruct Hd as [Hunit Hvalue].
  destruct (Z.eqb_spec (n / 10) 0) as [Hlast|Hmore].
  - exists [d]. split_and!; try done.
    + simpl. by rewrite Hunit.
    + intros a. simpl. rewrite Hunit, Hvalue. f_equal. lia.
  - assert (0 < n / 10) as Hq.
    { assert (0 <= n / 10) by (apply Z.div_pos; lia). lia. }
    rewrite Nat2Z.inj_succ, Z.pow_succ_r in Hn by lia.
    assert (1 <= fuel)%nat as Hfuel'.
    { destruct fuel; [|lia]. change (10 ^ Z.of_nat 0) with 1 in Hn. lia. }
    destruct (IH (n / 10) (d :: acc) Hfuel') as (ds & Hds & Hne & Hunits & Hval).
    { split; [lia|]. apply Z.div_lt_upper_bound; lia. }
    exists (ds ++ [d]). split_and!.
    + by rewrite Hds, <- app_assoc.
    + by destruct ds.
    + rewrite forallb_app, Hunits. simpl. by rewrite Hunit.
    + intros a. rewrite digitsValue_app, Hval. simpl. rewrite Hunit, Hvalue.
      rewrite length_app. simpl.
      rewrite Nat2Z.inj_add, Z.pow_add_r by lia. f_equal. change (10 ^ Z.of_nat 1) with 10. lia.
Qed.

Lemma decimal_spec k :
  decimal k ≠ [] /\ forallb isDigitUnit (decimal k) = true
  /\ digitsValue 0 (decimal k) = Some (Z.of_N k).
Proof.
  unfold decimal.
  destruct (decimalDigits_spec (S (Z.to_nat (Z.log2 (Z.of_N k)))) (Z.of_N k) [])
    as (ds & Hds & Hne & Hunits & Hval); [lia| |].
  { split; [lia|]. rewrite Nat2Z.inj_succ, Z2Nat.id by apply Z.log2_nonneg.
    destruct (N.eq_dec k 0%N) as [->|Hnz]; [done|].
    pose proof (Z.log2_spec (Z.of_N k) ltac:(lia)) as [_ Hlt].
    eapply Z.lt_le_trans; [exact Hlt|].
    apply Z.pow_le_mono_l. lia. }
  rewrite Hds, app_nil_r. split_and!; [done|done|]. rewrite Hval. done.
Qed.

Lemma decimal_nonempty k : decimal k ≠ [].
Proof. apply decimal_spec. Qed.

Lemma decimal_digits k : allDigits (decimal k) = true.
Proof.
  unfold allDigits. destruct (decimal_spec k) as (Hne & Hunits & _).
  by destruct (decimal k).
Qed.

Lemma parseInt_decimal k : parseInt (decimal k) = Some (Z.of_N k).
Proof.
  unfold parseInt. destruct (decimal_spec k) as (Hne & _ & Hval).
  by destruct (decimal k).
Qed.

(** Every string of digits is read as a natural number. *)
Lemma parseInt_digits s :
  allDigits s = true -> exists k : N, parseInt s = Some (Z.of_N k).
Proof.
  unfold allDigits, parseInt. destruct s as [|c s]; [done|]. intros Hdigits.
  assert (Hread : forall s (a : N), forallb isDigitUnit s = true ->
            exists k : N, digitsValue (Z.of_N a) s = Some (Z.of_N k)).
  { clear. induction s as [|c s IH]; intros a; [by exists a|].
    cbn [forallb digitsValue]. intros [Hc Hs]%andb_true_iff. rewrite Hc.
    replace (Z.of_N a * 10 + (Z.of_N c - 48)) with (Z.of_N (a * 10 + (c - 48))).
    - by apply IH.
    - unfold isDigitUnit in Hc. apply andb_true_iff in Hc as [Hlo%N.leb_le _]. lia. }
  apply (Hread (c :: s) 0%N Hdigits).
Qed.

Lemma truthyText_nonempty s : s ≠ [] -> truthyText (Some s) = Some s.
Proof. by destruct s. Qed.

Lemma clearSearchSession_gone key ss w :
  searchSessions w !! key = Some ss ->
  searchSessions (clearSearchSession key w) !! key = None
  /\ timers (clearSearchSession key w) !! ss_timeout ss = None.
Proof.
  intros Hss. unfold clearSearchSession. rewrite Hss. simpl.
  by rewrite !lookup_delete_eq.
Qed.

(** C4.  With a selection session of [n] candidates open for the requester:
    a reply that is empty or not a string of digits is passed on and the
    world is unchanged; a numeric reply of value 0 destroys the session (its
    timer too), sends the cancelled message and is consumed; a numeric reply
    of value [k] with [1 <= k <= n] destroys the session and runs
    [handleSongRequest] on candidate [k - 1] with the session's format and
    compress settings; a numeric reply of value [k > n] is passed on and the
    world is unchanged.  The value of a reply is what [parseInt] reads, and
    the decimal numeral of [k] reads as [k]. *)
Theorem selection_reply cfg host session ss w :
  searchSessions w !! getSessionKey session = Some ss ->
  let key := getSessionKey session in
  let n := length (ss_results ss) in
  let cleared := clearSearchSession key w in
  (searchSessions cleared !! key = None /\ timers cleared !! ss_timeout ss = None)
  /\ (forall k : N, allDigits (decimal k) = true /\ parseInt (decimal k) = Some (Z.of_N k))
  /\ (replyText session = None -> run (middleware cfg host session) w = (Ok MwNext, w))
  /\ (forall input, replyText session = Some input ->
        input = [] \/ allDigits input = false ->
        run (middleware cfg host session) w = (Ok MwNext, w))
  /\ (forall input (k : N), replyText session = Some input ->
        allDigits input = true -> parseInt input = Some (Z.of_N k) ->
        (k = 0%N ->
           run (middleware cfg host session) w =
           (Ok MwHandled,
            emit (ESent key (Text "commands.ncmget.messages.search-cancelled")) cleared))
        /\ ((1 <= k)%N /\ (N.to_nat k <= n)%nat ->
            exists song,
              ss_results ss !! (N.to_nat k - 1)%nat = Some song
              /\ run (middleware cfg host session) w =
                 run (handleSongRequest cfg host session song (ss_sendFormat ss) (ss_compress ss);;
                      mret MwHandled) cleared)
        /\ ((n < N.to_nat k)%nat ->
            run (middleware cfg host session) w = (Ok MwNext, w))).
Proof.
  intros Hss key n cleared.
  assert (Hstart : forall k : option SearchSession -> Prog MwResult,
            run (read (fun w => searchSessions w !! key) ≫= k) w = run (k (Some ss)) w).
  { intros k. rewrite run_bind, run_read. subst key. by rewrite Hss. }
  split_and!.
  - exact (proj1 (clearSearchSession_gone key ss w Hss)).
  - exact (proj2 (clearSearchSession_gone key ss w Hss)).
  - intros k. split; [apply decimal_digits | apply parseInt_decimal].
  - intros Hnone. unfold middleware. cbv zeta. rewrite Hstart, Hnone. reflexivity.
  - intros input Hinput Hbad. unfold middleware. cbv zeta. rewrite Hstart, Hinput.
    destruct Hbad as [->|Hbad]; [reflexivity|].
    destruct input; [reflexivity|]. cbn [truthyText]. rewrite Hbad. reflexivity.
  - intros input k Hinput Hdigits Hvalue.
    assert (Hparsed :
              run (middleware cfg host session) w =
              run (let index := Z.of_N k - 1 in
                   if index =? -1 then
                     modify (clearSearchSession key);;
                     send session (Text "commands.ncmget.messages.search-cancelled");;
                     mret MwHandled
                   else if (0 <=? index) && (index <? Z.of_nat n) then
                     modify (clearSearchSession key);;
                     match ss_results ss !! Z.to_nat index with
                     | Some song =>
                         handleSongRequest cfg host session song (ss_sendFormat ss)
                           (ss_compress ss)
                     | None => mret tt
                     end;;
                     mret MwHandled
                   else mret MwNext) w).
    { unfold middleware. cbv zeta. rewrite Hstart, Hinput.
      rewrite truthyText_nonempty by (intros ->; discriminate Hdigits).
      by rewrite Hdigits, Hvalue. }
    rewrite Hparsed. cbv zeta. clear Hparsed Hstart.
    split_and!.
    + intros ->. reflexivity.
    + intros [Hlo Hhi].
      destruct (lookup_lt_is_Some_2 (ss_results ss) (N.to_nat k - 1)) as [song Hsong]; [lia|].
      exists song. split; [done|].
      destruct (Z.eqb_spec (Z.of_N k - 1) (-1)); [lia|].
      destruct (Z.leb_spec 0 (Z.of_N k - 1)); [|lia].
      destruct (Z.ltb_spec (Z.of_N k - 1) (Z.of_nat n)); [|lia]. cbn [andb].
      replace (Z.to_nat (Z.of_N k - 1)) with (N.to_nat k - 1)%nat by lia.
      rewrite Hsong. by rewrite run_bind, run_modify.
    + intros Hbig.
      destruct (Z.eqb_spec (Z.of_N k - 1) (-1)); [lia|].
      destruct (Z.ltb_spec (Z.of_N k - 1) (Z.of_nat n)); [lia|].
      by rewrite andb_false_r.
Qed.

Lemma selection_reply_witness :
  let key := getSessionKey alice in
  run (middleware sampleConfig sampleHost (replying (lit "2") alice)) awaitingChoice
  = run (handleSongRequest sampleConfig sampleHost (replying (lit "2") alice) song43 None false;;
         mret MwHandled) (clearSearchSession key awaitingChoice)
  /\ run (middleware sampleConfig sampleHost (replying (lit "0") alice)) awaitingChoice
     = (Ok MwHandled,
        emit (ESent key (Text "commands.ncmget.messages.search-cancelled"))
          (clearSearchSession key awaitingChoice))
  /\ run (middleware sampleConfig sampleHost (replying (lit "7") alice)) awaitingChoice
     = (Ok MwNext, awaitingChoice).
Proof.
  cbv zeta. split_and!.
  - destruct (selection_reply sampleConfig sampleHost (replying (lit "2") alice)
                threeCandidates awaitingChoice) as (_ & _ & _ & _ & Hk); [reflexivity|].
    destruct (Hk (lit "2") 2%N) as (_ & Hpick & _); [reflexivity..|].
    destruct Hpick as (song & Hsong & Hrun); [split; vm_compute; [discriminate|lia]|].
    injection Hsong as <-. exact Hrun.
  - destruct (selection_reply sampleConfig sampleHost (replying (lit "0") alice)
                threeCandidates awaitingChoice) as (_ & _ & _ & _ & Hk); [reflexivity|].
    destruct (Hk (lit "0") 0%N) as (Hzero & _); [reflexivity..|]. by apply Hzero.
  - destruct (selection_reply sampleConfig sampleHost (replying (lit "7") alice)
                threeCandidates awaitingChoice) as (_ & _ & _ & _ & Hk); [reflexivity|].
    destruct (Hk (lit "7") 7%N) as (_ & _ & Hbig); [reflexivity..|]. apply Hbig. vm_compute. lia.
Defined.

(** A reply padded with a no-break space and an ideographic space is the
    number between them: it is consumed and selects the second candidate. *)
Example reply_with_unicode_space :
  replyText (replying [0xa0; 50; 0x3000]%N alice) = Some (lit "2")
  /\ run (middleware sampleConfig sampleHost (replying [0xa0; 50; 0x3000]%N alice)) awaitingChoice
     = run (handleSongRequest sampleConfig sampleHost (replying [0xa0; 50; 0x3000]%N alice)
              song43 None false;;
            mret MwHandled) (clearSearchSession (getSessionKey alice) awaitingChoice).
Proof. split; reflexivity. Qed.

(** ** A second search while a selection is open *)

Lemma checkRateLimit_frame cfg s w :
  searchSessions (checkRateLimit cfg s w).2 = searchSessions w
  /\ timers (checkRateLimit cfg s w).2 = timers w
  /\ nextTimer (checkRateLimit cfg s w).2 = nextTimer w
  /\ now (checkRateLimit cfg s w).2 = now w
  /\ env (checkRateLimit cfg s w).2 = env w.
Proof.
  unfold checkRateLimit. destruct (negb _); [done|]. cbv zeta.
  destruct (_ <? _); done.
Qed.

(** What a search with two or more candidates leaves behind. *)
Lemma ncmget_opens_session cfg host s opts kw w results :
  kw ≠ "" ->
  (checkRateLimit cfg s w).1 = true ->
  (parseArgs host kw).1 ≠ "" ->
  hasFfmpeg (env w) = true ->
  remoteSearch (env w) (parseArgs host kw).1 = Ok results ->
  (2 <= length results)%nat ->
  let w' := (run (ncmget cfg host s opts kw) w).2 in
  timers w' = <[nextTimer w := (now w + searchTimeout cfg * 1000, getSessionKey s)]> (timers w)
  /\ (ss_timeout <$> searchSessions w' !! getSessionKey s) = Some (nextTimer w)
  /\ (ss_results <$> searchSessions w' !! getSessionKey s) = Some results.
Proof.
  intros Hkw Hrate Hparsed Hffmpeg Hsearch Hmany.
  destruct (checkRateLimit_frame cfg s w) as (Hss & Htimers & Hnext & Hnow & Henv).
  cbv zeta. unfold ncmget. rewrite decide_False by done.
  rewrite run_bind, run_sync, Hrate. cbn [negb]. cbv zeta.
  rewrite decide_False by done.
  rewrite run_bind, run_read, Henv, Hffmpeg, andb_false_r.
  rewrite run_try_catch, run_bind, run_await. cbn [perform].
  rewrite Henv, Hsearch.
  destruct results as [|r1 [|r2 results]]; [simpl in Hmany; lia..|].
  simpl. rewrite Htimers, Hnext, Hnow, !lookup_insert_eq. done.
Qed.

(** A search that replaces an open session leaves the old session's timer
    pending, and that timer, once due, deletes the replacement. *)
Lemma replaced_session_keeps_old_timer cfg host s opts kw w results old due :
  kw ≠ "" ->
  (checkRateLimit cfg s w).1 = true ->
  (parseArgs host kw).1 ≠ "" ->
  hasFfmpeg (env w) = true ->
  remoteSearch (env w) (parseArgs host kw).1 = Ok results ->
  (2 <= length results)%nat ->
  searchSessions w !! getSessionKey s = Some old ->
  timers w !! ss_timeout old = Some (due, getSessionKey s) ->
  (ss_timeout old < nextTimer w)%nat ->
  let w' := (run (ncmget cfg host s opts kw) w).2 in
  timers w' !! ss_timeout old = Some (due, getSessionKey s)
  /\ (ss_timeout <$> searchSessions w' !! getSessionKey s) = Some (nextTimer w)
  /\ forall t, due <= t ->
       exists w'', fireTimer (ss_timeout old) (set_now t w') = Some w''
                   /\ searchSessions w'' !! getSessionKey s = None.
Proof.
  intros Hkw Hrate Hparsed Hffmpeg Hsearch Hmany Hold Htimer Hfresh.
  destruct (ncmget_opens_session cfg host s opts kw w results) as (Htimers & Hnew & _);
    try done.
  cbv zeta. set (w' := (run (ncmget cfg host s opts kw) w).2) in *.
  assert (Hpending : timers w' !! ss_timeout old = Some (due, getSessionKey s)).
  { rewrite Htimers, lookup_insert_ne by lia. exact Htimer. }
  split_and!; [exact Hpending | exact Hnew |].
  intros t Hdue. unfold fireTimer. simpl timers. rewrite Hpending. simpl now.
  destruct (Z.leb_spec due t); [|lia]. eexists. split; [reflexivity|].
  unfold clearSearchSession. simpl searchSessions.
  destruct (searchSessions w' !! getSessionKey s) as [new|] eqn:Hlive; [|done].
  simpl. by rewrite lookup_delete_eq.
Qed.

(** C3 fails on the code.  The second search replaces Alice's session but the
    timer of the first search (handle 0, due at +30 s) is still pending; when
    it fires it finds the replacement under the same key and destroys it,
    twenty seconds before the replacement's own timer (handle 1, due at
    +50 s). *)
Theorem stale_timer_destroys_replacement :
  let key := getSessionKey alice in
  (ss_timeout <$> searchSessions searchedOnce !! key) = Some 0%nat
  /\ (ss_timeout <$> searchSessions searchedTwice !! key) = Some 1%nat
  /\ timers searchedTwice !! 0%nat = Some (1700000030000, key)
  /\ timers searchedTwice !! 1%nat = Some (1700000050000, key)
  /\ (searchSessions <$> fireTimer 0 firstTimerDue) = Some ∅
  /\ (timers <$> fireTimer 0 firstTimerDue) = Some ∅.
Proof. vm_compute. repeat split. Qed.

(** ** The rate limiter *)

Lemma checkRateLimit_cases cfg s w :
  rateLimitEnabled cfg = true ->
  checkRateLimit cfg s w =
  if now w - default 0 (rateLimitMap w !! limiterKey cfg s) <? rateLimitInterval cfg * 1000
  then (false, w)
  else (true, set_rateLimitMap (insert (limiterKey cfg s) (now w)) w).
Proof. intros Hon. unfold checkRateLimit. by rewrite Hon. Qed.

Lemma last_app_singleton {A} (x : A) (l : list A) :
  last ([x] ++ l) = Some (default x (last l)).
Proof.
  change ([x] ++ l) with (x :: l). revert x.
  induction l as [|y l IH]; intros x; [reflexivity|].
  change (last (x :: y :: l)) with (last (y :: l)). by rewrite !IH.
Qed.

(** The timestamp stored under a key is the time of the last accepted call
    under that key. *)
Lemma replay_stores_last_accepted cfg key calls : forall w,
  rateLimitEnabled cfg = true ->
  rateLimitMap (replay cfg calls w).2 !! key =
  match last (acceptedTimes cfg key calls (replay cfg calls w).1) with
  | Some t => Some t
  | None => rateLimitMap w !! key
  end.
Proof.
  induction calls as [|[s t] calls IH]; intros w Hon; [reflexivity|].
  simpl. rewrite checkRateLimit_cases by done. simpl.
  destruct (_ <? _).
  - specialize (IH (set_now t w) Hon).
    destruct (replay cfg calls (set_now t w)) as [oks w2]. simpl in *. exact IH.
  - specialize (IH (set_rateLimitMap (insert (limiterKey cfg s) t) (set_now t w)) Hon).
    destruct (replay cfg calls _) as [oks w2]. simpl in *.
    destruct (String.eqb_spec (limiterKey cfg s) key) as [Hkey|Hkey].
    + rewrite last_app_singleton. rewrite IH, Hkey, lookup_insert_eq.
      by destruct (last (acceptedTimes cfg key calls oks)).
    + simpl. rewrite IH. by rewrite lookup_insert_ne.
Qed.

Lemma ncmget_rate_limited cfg host s opts kw w :
  kw ≠ "" -> (checkRateLimit cfg s w).1 = false ->
  run (ncmget cfg host s opts kw) w = (Ok None, (checkRateLimit cfg s w).2).
Proof.
  intros Hkw Hno. unfold ncmget. rewrite decide_False by done.
  rewrite run_bind, run_sync, Hno. reflexivity.
Qed.

(** C7.  After any history of calls, with rate limiting enabled: the next
    call under a key is rejected iff
    less than [rateLimitInterval] seconds have passed since the last accepted
    call under that key; an accepted call stores the current time under the
    key; a rejected call changes nothing, and the command then returns
    without a reply and without sending anything. *)
Theorem rate_limit_gate cfg host calls w0 s t :
  rateLimitEnabled cfg = true ->
  let w := set_now t (replay cfg calls w0).2 in
  let oks := (replay cfg calls w0).1 in
  let verdict := (checkRateLimit cfg s w).1 in
  let w' := (checkRateLimit cfg s w).2 in
  (forall lastAccepted,
     last (acceptedTimes cfg (limiterKey cfg s) calls oks) = Some lastAccepted ->
     (verdict = false <-> t - lastAccepted < rateLimitInterval cfg * 1000))
  /\ (verdict = true -> rateLimitMap w' = <[limiterKey cfg s := t]> (rateLimitMap w))
  /\ (verdict = false ->
      w' = w
      /\ forall opts kw, kw ≠ "" -> run (ncmget cfg host s opts kw) w = (Ok None, w)).
Proof.
  intros Hon. cbv zeta.
  pose proof (replay_stores_last_accepted cfg (limiterKey cfg s) calls w0 Hon) as Hstored.
  rewrite (checkRateLimit_cases cfg s _ Hon). simpl now. simpl rateLimitMap.
  split_and!.
  - intros lastAccepted Hlast. rewrite Hlast in Hstored. rewrite Hstored. simpl.
    destruct (Z.ltb_spec (t - lastAccepted) (rateLimitInterval cfg * 1000)); simpl;
      split; intros; try done; lia.
  - destruct (_ <? _); [done|]. reflexivity.
  - destruct (_ <? _) eqn:Hlt; [|done]. intros _. split; [reflexivity|].
    intros opts kw Hkw. rewrite ncmget_rate_limited; [|done|].
    + rewrite (checkRateLimit_cases cfg s _ Hon). simpl now. simpl rateLimitMap.
      by rewrite Hlt.
    + rewrite (checkRateLimit_cases cfg s _ Hon). simpl now. simpl rateLimitMap.
      by rewrite Hlt.
Qed.

(** With the default interval of 2 s: after an accepted call, a call one
    second later is rejected and a call 2.5 s later is accepted. *)
Lemma rate_limit_gate_witness :
  let w := (replay sampleConfig [(alice, 1700000000000)] emptyWorld).2 in
  (replay sampleConfig [(alice, 1700000000000)] emptyWorld).1 = [true]
  /\ (checkRateLimit sampleConfig alice (set_now (1700000000000 + 1000) w)).1 = false
  /\ (checkRateLimit sampleConfig alice (set_now (1700000000000 + 2500) w)).1 = true.
Proof.
  cbv zeta. split; [reflexivity|]. split.
  - destruct (rate_limit_gate sampleConfig sampleHost [(alice, 1700000000000)] emptyWorld
                alice (1700000000000 + 1000)) as (Hiff & _); [reflexivity|].
    apply (Hiff 1700000000000); [reflexivity|]. vm_compute. reflexivity.
  - destruct (rate_limit_gate sampleConfig sampleHost [(alice, 1700000000000)] emptyWorld
                alice (1700000000000 + 2500)) as (Hiff & _); [reflexivity|].
    apply not_false_iff_true. intros Hrej.
    apply (Hiff 1700000000000) in Hrej; [|reflexivity]. vm_compute in Hrej. discriminate.
Defined.

(** A key with no stored timestamp is compared with time 0 ([|| 0]): its
    first call is accepted unless the clock is within one interval of the
    epoch. *)
Lemma first_call_compares_with_epoch cfg s w :
  rateLimitEnabled cfg = true ->
  rateLimitMap w !! limiterKey cfg s = None ->
  (checkRateLimit cfg s w).1 = negb (now w <? rateLimitInterval cfg * 1000).
Proof.
  intros Hon Hnone. rewrite checkRateLimit_cases, Hnone by done. simpl.
  rewrite Z.sub_0_r. by destruct (_ <? _).
Qed.

(** The periodic sweep of the limiter map drops only timestamps that are
    more than ten intervals old, which never changes a verdict. *)
Lemma cleanup_keeps_verdict cfg s w :
  rateLimitEnabled cfg = true ->
  0 <= rateLimitInterval cfg ->
  (forall k t, rateLimitMap w !! k = Some t -> 0 <= t) ->
  (checkRateLimit cfg s (rateLimitCleanup cfg w)).1 = (checkRateLimit cfg s w).1.
Proof.
  intros Hon Hinterval Htimes. rewrite !checkRateLimit_cases by done.
  unfold rateLimitCleanup. simpl now. simpl rateLimitMap.
  destruct (rateLimitMap w !! limiterKey cfg s) as [t|] eqn:Hstored.
  - specialize (Htimes _ _ Hstored).
    destruct (decide (now w - t > rateLimitInterval cfg * 1000 * 10)) as [Hold|Hfresh].
    + rewrite (proj2 (map_lookup_filter_None _ _ _)).
      2:{ right. intros t' Ht'. rewrite Hstored in Ht'. injection Ht' as <-. simpl. lia. }
      simpl.
      destruct (Z.ltb_spec (now w - 0) (rateLimitInterval cfg * 1000)),
               (Z.ltb_spec (now w - t) (rateLimitInterval cfg * 1000)); try reflexivity; lia.
    + rewrite (map_lookup_filter_Some_2 _ _ _ t); [|done|done].
      by destruct (_ <? _).
  - rewrite (proj2 (map_lookup_filter_None _ _ _)) by (by left).
    by destruct (_ <? _).
Qed.

(** ** The request envelope *)

Section EnvelopeProperties.
Import Envelope.

Lemma codeOf_range c : 0 <= codeOf c < 256.
Proof. unfold codeOf. pose proof (nat_ascii_bounded c). lia. Qed.

Lemma hexChar_spec d :
  0 <= d < 16 -> hexValue (hexChar d) = Some d /\ isLowerHex (hexChar d) = true.
Proof.
  intros Hd. destruct d as [|p|p]; [done| |lia].
  do 4 (try destruct p as [p|p|]); try lia; done.
Qed.

Lemma parseHexFrom_toHexBytes s : forall acc,
  parseHexFrom acc (toHexBytes s) = Some (bigEndianFrom acc s).
Proof.
  induction s as [|c s IH]; intros acc; [reflexivity|].
  pose proof (codeOf_range c) as Hc.
  cbn [toHexBytes parseHexFrom bigEndianFrom].
  destruct (hexChar_spec (codeOf c / 16)) as [-> _];
    [split; [apply Z.div_pos|apply Z.div_lt_upper_bound]; lia|].
  destruct (hexChar_spec (codeOf c mod 16)) as [-> _]; [apply Z.mod_pos_bound; lia|].
  rewrite IH. do 2 f_equal.
  pose proof (Z.div_mod (codeOf c) 16). lia.
Qed.

Lemma bigEndianFrom_app s1 s2 acc :
  bigEndianFrom acc (s1 +:+ s2) = bigEndianFrom (bigEndianFrom acc s1) s2.
Proof. revert acc. induction s1 as [|c s1 IH]; intros acc; [reflexivity|]. apply IH. Qed.

Lemma string_of_list_ascii_snoc l c :
  String.string_of_list_ascii (l ++ [c])
  = String.string_of_list_ascii l +:+ String c EmptyString.
Proof. induction l as [|x l IH]; [reflexivity|]. simpl. by rewrite IH. Qed.

(** Reading the reversed secret big-endian reads the secret
    little-endian. *)
Lemma bigEndian_reverse s : bigEndianFrom 0 (reverseString s) = byteReversedValue s.
Proof.
  unfold reverseString. induction s as [|c s IH]; [reflexivity|].
  cbn [String.list_ascii_of_string byteReversedValue].
  rewrite reverse_cons, string_of_list_ascii_snoc, bigEndianFrom_app, IH.
  simpl. lia.
Qed.

Lemma toHexBytes_nonempty s : s ≠ "" -> exists c rest, toHexBytes s = String c rest.
Proof. destruct s as [|c s]; [done|]. intros _. simpl. eauto. Qed.

Lemma reverseString_length s : String.length (reverseString s) = String.length s.
Proof.
  unfold reverseString.
  rewrite <- (String.string_of_list_ascii_of_string s) at 2.
  generalize (String.list_ascii_of_string s). intros l.
  assert (Hlen : forall l, String.length (String.string_of_list_ascii l) = length l).
  { clear. induction l as [|x l IH]; [reflexivity|]. simpl. by rewrite IH. }
  by rewrite !Hlen, length_reverse.
Qed.

Lemma BigInt_of_bytes s :
  s ≠ "" -> BigInt ("0x" +:+ toHexBytes (reverseString s)) = Some (byteReversedValue s).
Proof.
  intros Hs.
  destruct (toHexBytes_nonempty (reverseString s)) as (c & rest & Hhex).
  { intros Hrev. apply Hs. pose proof (reverseString_length s) as Hlen.
    rewrite Hrev in Hlen. by destruct s. }
  pose proof (parseHexFrom_toHexBytes (reverseString s) 0) as Hparse.
  rewrite bigEndian_reverse in Hparse. rewrite Hhex in *. exact Hparse.
Qed.

(** *** [powMod] is modular exponentiation *)

Lemma powModLoop_correct fuel : forall result base exp m,
  0 < m -> 0 <= result -> 0 <= base -> 0 <= exp < 2 ^ Z.of_nat fuel ->
  powModLoop fuel result base exp m =
  Some (if exp =? 0 then result else (result * base ^ exp) mod m).
Proof.
  induction fuel as [|fuel IH]; intros result base exp m Hm Hr Hb He.
  - simpl in *. assert (exp = 0) as -> by lia. reflexivity.
  - cbn [powModLoop]. destruct (Z.ltb_spec 0 exp) as [Hpos|Hzero].
    2:{ assert (exp = 0) as -> by lia. reflexivity. }
    cbv zeta.
    rewrite (Z.rem_mod_nonneg exp 2), (Z.quot_div_nonneg exp 2) by lia.
    rewrite (Z.rem_mod_nonneg (base * base) m) by nia.
    pose proof (Z.div_mod exp 2 ltac:(lia)) as Hdm.
    pose proof (Z.mod_pos_bound exp 2 ltac:(lia)) as Hbit.
    assert (Hhalf : 0 <= exp / 2 < 2 ^ Z.of_nat fuel).
    { rewrite Nat2Z.inj_succ, Z.pow_succ_r in He by lia.
      split; [apply Z.div_pos; lia | apply Z.div_lt_upper_bound; lia]. }
    assert (Hsq : forall k, 0 <= k -> ((base * base) mod m) ^ k mod m = base ^ (2 * k) mod m).
    { intros k Hk. rewrite Z.mod_pow_l.
      by rewrite Z.pow_mul_r, Z.pow_2_r by lia. }
    destruct (Z.eqb_spec exp 0) as [|_]; [lia|].
    destruct (Z.eqb_spec (exp mod 2) 1) as [Hodd|Heven].
    + rewrite (Z.rem_mod_nonneg (result * base) m) by nia.
      rewrite IH; [|lia|apply Z.mod_pos_bound; lia|apply Z.mod_pos_bound; lia|lia].
      f_equal. destruct (Z.eqb_spec (exp / 2) 0) as [Hz|Hnz].
      * assert (exp = 1) as -> by lia. by rewrite Z.pow_1_r.
      * assert (base ^ exp = base * base ^ (2 * (exp / 2))) as ->
          by (rewrite <- Z.pow_succ_r by lia; f_equal; lia).
        rewrite Z.mul_mod, Z.mod_mod, Hsq, <- Z.mul_mod by lia.
        f_equal. ring.
    + rewrite IH; [|lia|lia|apply Z.mod_pos_bound; lia|lia].
      f_equal. destruct (Z.eqb_spec (exp / 2) 0) as [Hz|Hnz]; [lia|].
      assert (base ^ exp = base ^ (2 * (exp / 2))) as -> by (f_equal; lia).
      by rewrite Z.mul_mod, Hsq, <- Z.mul_mod by lia.
Qed.

Lemma powMod_correct base exp m :
  0 <= base -> 0 < exp -> 0 < m -> powMod base exp m = Some (base ^ exp mod m).
Proof.
  intros Hb He Hm. unfold powMod.
  destruct (Z.eqb_spec m 0); [lia|].
  rewrite (Z.rem_mod_nonneg base m) by lia.
  rewrite powModLoop_correct; try lia.
  - destruct (Z.eqb_spec exp 0); [lia|]. f_equal.
    rewrite Z.mul_1_l. apply Z.mod_pow_l.
  - apply Z.mod_pos_bound. lia.
  - pose proof (Z.log2_spec exp He) as [_ Hlt]. pose proof (Z.log2_nonneg exp).
    rewrite Nat2Z.inj_succ, Z2Nat.id by lia. lia.
Qed.

(** *** Printing in base 16 and padding *)

Lemma toHexDigits_spec fuel : forall n acc,
  (1 <= fuel)%nat -> 0 <= n < 16 ^ Z.of_nat fuel ->
  exists len : nat,
    (1 <= len)%nat
    /\ n < 16 ^ Z.of_nat len
    /\ (len = 1%nat \/ 16 ^ (Z.of_nat len - 1) <= n)
    /\ String.length (toHexDigits fuel n acc) = (len + String.length acc)%nat
    /\ (forall a, parseHexFrom a (toHexDigits fuel n acc)
                  = parseHexFrom (a * 16 ^ Z.of_nat len + n) acc)
    /\ (allChars isLowerHex acc = true ->
        allChars isLowerHex (toHexDigits fuel n acc) = true).
Proof.
  induction fuel as [|fuel IH]; intros n acc Hfuel Hn; [lia|].
  cbn [toHexDigits]. cbv zeta.
  pose proof (Z.div_mod n 16 ltac:(lia)) as Hdm.
  pose proof (Z.mod_pos_bound n 16 ltac:(lia)) as Hdigit.
  destruct (hexChar_spec (n mod 16) Hdigit) as [Hval Hlow].
  destruct (Z.eqb_spec (n / 16) 0) as [Hlast|Hmore].
  - exists 1%nat. split_and!; try done.
    + change (16 ^ Z.of_nat 1) with 16. lia.
    + by left.
    + intros a. cbn [parseHexFrom]. rewrite Hval. f_equal.
      change (16 ^ Z.of_nat 1) with 16. lia.
    + intros Hacc. cbn [allChars]. by rewrite Hlow, Hacc.
  - assert (0 < n / 16) as Hq.
    { assert (0 <= n / 16) by (apply Z.div_pos; lia). lia. }
    rewrite Nat2Z.inj_succ, Z.pow_succ_r in Hn by lia.
    assert (1 <= fuel)%nat as Hfuel'.
    { destruct fuel; [|lia]. change (16 ^ Z.of_nat 0) with 1 in Hn. lia. }
    destruct (IH (n / 16) (String (hexChar (n mod 16)) acc) Hfuel')
      as (len & Hlen & Hupper & Hlower & Hlength & Hparse & Hchars).
    { split; [lia|]. apply Z.div_lt_upper_bound; lia. }
    exists (S len). rewrite Nat2Z.inj_succ, Z.pow_succ_r by lia. split_and!.
    + lia.
    + lia.
    + right. replace (Z.succ (Z.of_nat len) - 1) with (Z.of_nat len) by lia.
      destruct Hlower as [->|Hlower].
      * change (16 ^ Z.of_nat 1) with 16. lia.
      * replace (Z.of_nat len) with (Z.succ (Z.of_nat len - 1)) by lia.
        rewrite Z.pow_succ_r by lia. lia.
    + rewrite Hlength. simpl. lia.
    + intros a. rewrite Hparse. cbn [parseHexFrom]. rewrite Hval. f_equal. lia.
    + intros Hacc. apply Hchars. cbn [allChars]. by rewrite Hlow, Hacc.
Qed.

Lemma toString16_spec n bound :
  0 <= n < 16 ^ Z.of_nat bound -> (1 <= bound)%nat ->
  (String.length (toString16 n) <= bound)%nat
  /\ (1 <= String.length (toString16 n))%nat
  /\ parseHexFrom 0 (toString16 n) = Some n
  /\ allChars isLowerHex (toString16 n) = true.
Proof.
  intros Hn Hbound. unfold toString16.
  destruct (toHexDigits_spec (S (Z.to_nat (Z.log2 n))) n EmptyString)
    as (len & Hlen & Hupper & Hlower & Hlength & Hparse & Hchars); [lia| |].
  { split; [lia|]. rewrite Nat2Z.inj_succ, Z2Nat.id by apply Z.log2_nonneg.
    destruct (Z.eq_dec n 0) as [->|Hnz]; [done|].
    pose proof (Z.log2_spec n ltac:(lia)) as [_ Hlt].
    eapply Z.lt_le_trans; [exact Hlt|].
    apply Z.pow_le_mono_l. lia. }
  rewrite Hlength, Hparse. simpl String.length. rewrite Nat.add_0_r.
  split_and!.
  - destruct Hlower as [->|Hlower]; [lia|].
    destruct (Nat.le_gt_cases len bound) as [|Hgt]; [done|]. exfalso.
    assert (16 ^ Z.of_nat bound <= 16 ^ (Z.of_nat len - 1))
      by (apply Z.pow_le_mono_r; lia).
    lia.
  - exact Hlen.
  - reflexivity.
  - by apply Hchars.
Qed.

Lemma length_append s1 s2 :
  String.length (s1 +:+ s2) = (String.length s1 + String.length s2)%nat.
Proof. induction s1 as [|c s1 IH]; [reflexivity|]. simpl. by rewrite IH. Qed.

Lemma repeatChar_length n c : String.length (repeatChar n c) = n.
Proof. induction n as [|n IH]; [reflexivity|]. simpl. by rewrite IH. Qed.

Lemma padStart_zeros width s :
  (String.length s <= width)%nat ->
  String.length (padStart width "0" s) = width
  /\ parseHexFrom 0 (padStart width "0" s) = parseHexFrom 0 s
  /\ (allChars isLowerHex s = true -> allChars isLowerHex (padStart width "0" s) = true).
Proof.
  intros Hlen. unfold padStart. split_and!.
  - rewrite length_append, repeatChar_length. lia.
  - induction (width - String.length s)%nat as [|k IH]; [reflexivity|]. exact IH.
  - intros Hs. induction (width - String.length s)%nat as [|k IH]; [exact Hs|]. exact IH.
Qed.

(** *** The random secret *)

Lemma alphabet_get n :
  (n < 62)%nat -> exists c, String.get n alphabet = Some c /\ isAlnum c = true.
Proof.
  intros Hn.
  do 62 (destruct n as [|n]; [eexists; split; reflexivity|]). lia.
Qed.

Lemma roundHalfEven_bounds p d :
  0 <= p -> 1 <= d ->
  p / 2 ^ d <= roundHalfEven p d
  /\ roundHalfEven p d * 2 ^ d <= p + 2 ^ (d - 1).
Proof.
  intros Hp Hd. unfold roundHalfEven. cbv zeta.
  assert (Hpow : 2 ^ d = 2 * 2 ^ (d - 1)).
  { rewrite <- Z.pow_succ_r by lia. f_equal. lia. }
  assert (0 < 2 ^ (d - 1)) by (apply Z.pow_pos_nonneg; lia).
  pose proof (Z.div_mod p (2 ^ d) ltac:(lia)) as Hdm.
  pose proof (Z.mod_pos_bound p (2 ^ d) ltac:(lia)) as Hrest.
  destruct (Z.ltb_spec (p mod 2 ^ d) (2 ^ (d - 1))); [split; nia|].
  destruct (Z.ltb_spec (2 ^ (d - 1)) (p mod 2 ^ d)); [split; nia|].
  destruct (Z.even (p / 2 ^ d)); split; nia.
Qed.

Lemma roundHalfEven_nearest p d :
  0 <= p -> 1 <= d -> nearestTiesEven p d (roundHalfEven p d * 2 ^ d).
Proof.
  intros Hp Hd. exists (roundHalfEven p d). split; [done|].
  unfold roundHalfEven. cbv zeta.
  assert (Hpow : 2 ^ d = 2 * 2 ^ (d - 1)).
  { rewrite <- Z.pow_succ_r by lia. f_equal. lia. }
  assert (0 < 2 ^ (d - 1)) by (apply Z.pow_pos_nonneg; lia).
  pose proof (Z.div_mod p (2 ^ d) ltac:(lia)) as Hdm.
  pose proof (Z.mod_pos_bound p (2 ^ d) ltac:(lia)) as Hrest.
  destruct (Z.ltb_spec (p mod 2 ^ d) (2 ^ (d - 1))); [split; lia|].
  destruct (Z.ltb_spec (2 ^ (d - 1)) (p mod 2 ^ d)); [split; lia|].
  destruct (Z.even (p / 2 ^ d)) eqn:Heven; (split; [lia|intros _]); [done|].
  rewrite Z.even_add, Heven. reflexivity.
Qed.

(** The rounded value is determined by [p] and [d]. *)
Lemma nearestTiesEven_unique p d y1 y2 :
  0 <= d -> nearestTiesEven p d y1 -> nearestTiesEven p d y2 -> y1 = y2.
Proof.
  intros Hd (n1 & -> & Hnear1 & Htie1) (n2 & -> & Hnear2 & Htie2).
  assert (Hpos : 0 < 2 ^ d) by (apply Z.pow_pos_nonneg; lia).
  destruct (Z.eq_dec n1 n2) as [Heq|Hne]; [by rewrite Heq|exfalso].
  assert (Hstep : n1 = n2 + 1 \/ n2 = n1 + 1) by nia.
  assert (Heven : Z.even n1 = true /\ Z.even n2 = true).
  { split; [apply Htie1|apply Htie2]; nia. }
  destruct Heven as [He1 He2].
  destruct Hstep as [Hs|Hs]; rewrite Hs, Z.even_add in *; rewrite ?He1, ?He2 in *; done.
Qed.

(** Whether the product is rounded: it is when it has more than 53 bits. *)
Lemma floorTimes62_product r :
  isDouble01 r ->
  exists product,
    floorTimes62 r = product / 2 ^ scale r
    /\ if 62 * mantissa r <? 2 ^ 53 then product = 62 * mantissa r
       else nearestTiesEven (62 * mantissa r) (Z.log2 (62 * mantissa r) - 52) product.
Proof.
  intros [[Hm0 Hm] _]. unfold floorTimes62. cbv zeta.
  set (p := 62 * mantissa r). assert (Hp : 0 <= p) by (unfold p; lia).
  destruct (Z.ltb_spec p (2 ^ 53)) as [Hsmall|Hbig].
  - exists p. split; [|done].
    destruct (Z.ltb_spec 0 (Z.log2 p - 52)) as [Hd|_]; [|done].
    assert (Hppos : 0 < p).
    { destruct (Z.eq_dec p 0) as [Hz|]; [rewrite Hz in Hd; simpl in Hd; lia|lia]. }
    apply Z.log2_lt_pow2 in Hsmall; lia.
  - assert (Hd : 53 <= Z.log2 p) by (apply Z.log2_le_pow2; lia).
    destruct (Z.ltb_spec 0 (Z.log2 p - 52)) as [_|]; [|lia].
    eexists. split; [reflexivity|]. apply roundHalfEven_nearest; lia.
Qed.

(** The index [Math.floor(r * 62)] is the integer part of the exact product
    or, when the product is within 2^-48 below an integer, that integer; it
    is below 62. *)
Lemma floorTimes62_bounds r :
  isDouble01 r ->
  62 * mantissa r / 2 ^ scale r <= floorTimes62 r
  /\ floorTimes62 r <= (62 * mantissa r * 2 ^ 48 + 2 ^ scale r) / 2 ^ (scale r + 48)
  /\ 0 <= floorTimes62 r <= 61.
Proof.
  intros [[Hm0 Hm] [Hs _]]. unfold floorTimes62. cbv zeta.
  set (p := 62 * mantissa r). set (s := scale r) in *.
  assert (Hp : 0 <= p <= 62 * 2 ^ 53 - 62) by (unfold p; lia).
  assert (Hs53 : 2 ^ 53 <= 2 ^ s) by (apply Z.pow_le_mono_r; lia).
  assert (Hspos : 0 < 2 ^ s) by lia.
  assert (Hsplit : 2 ^ (s + 48) = 2 ^ s * 2 ^ 48) by (apply Z.pow_add_r; lia).
  assert (Hwide : forall x, 0 <= x -> x <= p + 32 ->
            p / 2 ^ s <= x / 2 ^ s \/ True ->
            x / 2 ^ s <= (p * 2 ^ 48 + 2 ^ s) / 2 ^ (s + 48) /\ x / 2 ^ s <= 61).
  { intros x Hx0 Hx _. split.
    - rewrite Hsplit. rewrite <- (Z.div_mul_cancel_r x (2 ^ s) (2 ^ 48)) by lia.
      apply Z.div_le_mono; [lia|]. lia.
    - assert (x / 2 ^ s < 62); [|lia]. apply Z.div_lt_upper_bound; lia. }
  destruct (Z.ltb_spec 0 (Z.log2 p - 52)) as [Hd|Hd].
  - assert (Hppos : 0 < p).
    { destruct (Z.eq_dec p 0) as [Hz|]; [rewrite Hz in Hd; simpl in Hd; lia|lia]. }
    assert (Hd6 : Z.log2 p - 52 <= 6).
    { assert (Z.log2 p < 59); [|lia]. apply Z.log2_lt_pow2; lia. }
    set (d := Z.log2 p - 52) in *.
    destruct (roundHalfEven_bounds p d) as [Hlo Hhi]; [lia..|].
    assert (H32 : 2 ^ (d - 1) <= 32).
    { change 32 with (2 ^ 5). apply Z.pow_le_mono_r; lia. }
    assert (Hdpos : 0 < 2 ^ d) by (apply Z.pow_pos_nonneg; lia).
    assert (Hx0 : 0 <= roundHalfEven p d * 2 ^ d).
    { assert (0 <= p / 2 ^ d) by (apply Z.div_pos; lia). nia. }
    destruct (Hwide (roundHalfEven p d * 2 ^ d)) as [Hup H61]; [lia|lia|by right|].
    split_and!; [|done| |done].
    + apply Z.div_le_lower_bound; [lia|].
      (* a multiple of 2^s below p is a multiple of 2^d below p *)
      assert (Hsd : 2 ^ s = 2 ^ d * 2 ^ (s - d)).
      { rewrite <- Z.pow_add_r by lia. f_equal. lia. }
      pose proof (Z.mul_div_le p (2 ^ s) Hspos) as Hk.
      assert (2 ^ (s - d) * (p / 2 ^ s) <= p / 2 ^ d).
      { apply Z.div_le_lower_bound; [lia|]. rewrite Hsd in Hk at 1. lia. }
      rewrite Hsd at 1. nia.
    + apply Z.div_pos; lia.
  - destruct (Hwide p) as [Hup H61]; [lia|lia|by left|].
    split_and!; [lia|done| |done]. apply Z.div_pos; lia.
Qed.

Lemma pick_alnum r :
  isDouble01 r -> exists c, pick r = Some c /\ isAlnum c = true.
Proof.
  intros Hr. unfold pick. apply alphabet_get.
  destruct (floorTimes62_bounds r Hr) as (_ & _ & Hrange). lia.
Qed.

Lemma omap_total {A B} (f : A -> option B) (P : B -> Prop) (l : list A) :
  (forall i, i ∈ l -> exists c, f i = Some c /\ P c) ->
  length (omap f l) = length l
  /\ Forall P (omap f l)
  /\ forall k, omap f l !! k = l !! k ≫= f.
Proof.
  induction l as [|x l IH]; intros Hall.
  - split_and!; [done|constructor|]. by intros [|k].
  - destruct (Hall x) as (c & Hc & HP); [by left|].
    destruct IH as (Hlen & Hforall & Hlookup); [intros i Hi; apply Hall; by right|].
    cbn. rewrite Hc. cbn. split_and!.
    + by rewrite Hlen.
    + by constructor.
    + intros [|k]; [by cbn; rewrite Hc|apply Hlookup].
Qed.

Lemma string_of_list_length l : String.length (String.string_of_list_ascii l) = length l.
Proof. induction l as [|x l IH]; [reflexivity|]. simpl. by rewrite IH. Qed.

Lemma string_of_list_allChars f l :
  Forall (fun c => f c = true) l -> allChars f (String.string_of_list_ascii l) = true.
Proof. induction 1 as [|c l Hc _ IH]; [reflexivity|]. simpl. by rewrite Hc, IH. Qed.

Lemma string_of_list_get l k : String.get k (String.string_of_list_ascii l) = l !! k.
Proof.
  revert k. induction l as [|x l IH]; intros [|k]; try reflexivity. simpl. apply IH.
Qed.

Lemma secKeyOf_spec rnd :
  (forall i, (i < 16)%nat -> isDouble01 (rnd i)) ->
  String.length (secKeyOf rnd) = 16%nat
  /\ allChars isAlnum (secKeyOf rnd) = true
  /\ forall i, (i < 16)%nat -> String.get i (secKeyOf rnd) = pick (rnd i).
Proof.
  intros Hrnd. unfold secKeyOf.
  destruct (omap_total (fun i => pick (rnd i)) (fun c => isAlnum c = true) (seq 0 16))
    as (Hlen & Hall & Hlookup).
  { intros i Hi. apply elem_of_seq in Hi. apply pick_alnum, Hrnd. lia. }
  split_and!.
  - by rewrite string_of_list_length, Hlen.
  - by apply string_of_list_allChars.
  - intros i Hi. rewrite string_of_list_get, Hlookup.
    rewrite lookup_seq_lt by done. reflexivity.
Qed.

(** Every character of the alphabet is drawn by some random value. *)
Lemma every_character_is_drawn j :
  (j < 62)%nat ->
  exists r, isDouble01 r /\ pick r = String.get j alphabet.
Proof.
  intros Hj.
  exists {| mantissa := (2 * Z.of_nat j + 1) * 2 ^ 53 / 124; scale := 53 |}.
  do 62 (destruct j as [|j]; [split; [by vm_compute|reflexivity]|]). lia.
Qed.

Lemma publicModulus_parsed :
  BigInt "0x00e0b509f6259df8642dbc35662901477df22677ec152b5ff68ace615bb7b725152b3ab17a876aea8a5aa76d2e417629ec4ee341f56135fccf695280104e0312ecbda92557c93870114af6c9d05c4f7f0c3685b7a46bee255932575cce10b424d813cfe4875d3e82047b97ddef52741d546b8e289dc6935b3ece0462db0a22b8e7"
  = Some publicModulus
  /\ BigInt "0x010001" = Some publicExponent
  /\ 0 < publicModulus < 16 ^ 256.
Proof. vm_compute. repeat split. Qed.

Lemma rsaEncrypt_spec secret :
  secret ≠ "" ->
  exists encSecKey,
    rsaEncrypt secret = Some encSecKey
    /\ String.length encSecKey = 256%nat
    /\ allChars isLowerHex encSecKey = true
    /\ parseHexFrom 0 encSecKey
       = Some (byteReversedValue secret ^ publicExponent mod publicModulus).
Proof.
  intros Hsecret. unfold rsaEncrypt. cbv zeta.
  destruct publicModulus_parsed as (Hmod & Hexp & Hrange).
  rewrite (BigInt_of_bytes secret Hsecret). cbn [mbind option_bind].
  rewrite Hmod. cbn [mbind option_bind]. rewrite Hexp. cbn [mbind option_bind].
  assert (0 <= byteReversedValue secret) as Hnonneg.
  { clear. induction secret as [|c s IH]; simpl; [lia|].
    pose proof (codeOf_range c). lia. }
  rewrite powMod_correct by (try done; lia). cbn [mbind option_bind].
  set (encrypted := byteReversedValue secret ^ publicExponent mod publicModulus).
  assert (0 <= encrypted < 16 ^ Z.of_nat 256) as Henc.
  { subst encrypted. pose proof (Z.mod_pos_bound
      (byteReversedValue secret ^ publicExponent) publicModulus ltac:(lia)).
    change (Z.of_nat 256) with 256. lia. }
  destruct (toString16_spec encrypted 256 Henc ltac:(lia))
    as (Hshort & _ & Hvalue & Hchars).
  destruct (padStart_zeros 256 (toString16 encrypted) Hshort) as (Hlen & Hsame & Hpad).
  eexists. split; [reflexivity|]. split_and!.
  - exact Hlen.
  - by apply Hpad.
  - by rewrite Hsame.
Qed.

Context {Params : Type}.
Context (JSON_stringify : Params -> string).
Context (cipherBase64 : string -> string -> string -> string -> string).
Context (encodeURIComponent : string -> string).

(** C9.  For every payload and all sixteen values of [Math.random()]
    (binary64 numbers in [[0, 1)]), [weapi] returns the two form fields
    [params] and [encSecKey], where: the secret has 16 characters; its
    [i]-th character is the character of the 62-character alphanumeric
    alphabet at the index [Math.floor(r * 62)] for the [i]-th random value
    [r = mantissa / 2^scale]: the integer part of the product [62 r] as
    binary64 holds it (the exact product if it has at most 53 bits, else
    the nearest number with 53 bits, ties to even), which is between 0 and
    61 and is the integer part of [62 r] or, when [62 r] is within 2^-48
    below an integer, that integer; [params] is the URI-encoded result of
    AES-128-CBC with IV [0102030405060708] applied to the JSON text with the
    shared secret and then to that result with the random secret;
    [encSecKey] is the URI-encoded string of 256 lower-case hex digits whose
    value is the byte-reversed secret, as a big integer, raised to the
    exponent 0x010001 modulo the fixed modulus. *)
Theorem weapi_envelope (rnd : nat -> Double01) (params : Params) :
  (forall i, (i < 16)%nat -> isDouble01 (rnd i)) ->
  exists secKey encSecKey,
    weapi JSON_stringify cipherBase64 encodeURIComponent rnd params
    = Some ("params="
            +:+ encodeURIComponent
                  (cipherBase64 "aes-128-cbc" secKey fixedIV
                     (cipherBase64 "aes-128-cbc" sharedSecret fixedIV
                        (JSON_stringify params)))
            +:+ "&encSecKey=" +:+ encodeURIComponent encSecKey)
    /\ String.length secKey = 16%nat
    /\ allChars isAlnum secKey = true
    /\ (forall i, (i < 16)%nat ->
          exists index product,
            String.get i secKey
            = String.get (Z.to_nat index)
                "abcdefghijklmnopqrstuvwxyzABCDEFGHIJKLMNOPQRSTUVWXYZ0123456789"
            /\ index = product / 2 ^ scale (rnd i)
            /\ (if 62 * mantissa (rnd i) <? 2 ^ 53 then product = 62 * mantissa (rnd i)
                else nearestTiesEven (62 * mantissa (rnd i))
                       (Z.log2 (62 * mantissa (rnd i)) - 52) product)
            /\ 0 <= index <= 61
            /\ 62 * mantissa (rnd i) / 2 ^ scale (rnd i) <= index
            /\ index <= (62 * mantissa (rnd i) * 2 ^ 48 + 2 ^ scale (rnd i))
                        / 2 ^ (scale (rnd i) + 48))
    /\ String.length encSecKey = 256%nat
    /\ allChars isLowerHex encSecKey = true
    /\ parseHexFrom 0 encSecKey
       = Some (byteReversedValue secKey ^ publicExponent mod publicModulus).
Proof.
  intros Hrnd. destruct (secKeyOf_spec rnd Hrnd) as (Hlen & Halnum & Hpick).
  destruct (rsaEncrypt_spec (secKeyOf rnd)) as (encSecKey & Hrsa & Hl & Hc & Hv).
  { intros Hempty. by rewrite Hempty in Hlen. }
  exists (secKeyOf rnd), encSecKey. split_and!; try done.
  - unfold weapi. cbv zeta. rewrite Hrsa. reflexivity.
  - intros i Hi.
    destruct (floorTimes62_product (rnd i) (Hrnd i Hi)) as (product & Hfloor & Hproduct).
    exists (floorTimes62 (rnd i)), product.
    destruct (floorTimes62_bounds (rnd i) (Hrnd i Hi)) as (Hlo & Hhi & Hrange).
    split_and!; [by rewrite Hpick|done|done|lia|lia|done|done].
Qed.
End EnvelopeProperties.

Lemma weapi_envelope_witness :
  exists secKey encSecKey,
    Envelope.weapi (fun n : nat => "{}") (fun alg key iv text => text +:+ key) (fun s => s)
      (fun i => {| Envelope.mantissa := Z.of_nat i * 2 ^ 49; Envelope.scale := 53 |}) 0%nat
    = Some ("params={}0CoJUm6Qyw8W8jud" +:+ secKey +:+ "&encSecKey=" +:+ encSecKey)
    /\ String.length secKey = 16%nat
    /\ String.get 1 secKey = Some "d"%char
    /\ String.length encSecKey = 256%nat.
Proof.
  destruct (weapi_envelope (fun n : nat => "{}") (fun alg key iv text => text +:+ key)
              (fun s => s)
              (fun i => {| Envelope.mantissa := Z.of_nat i * 2 ^ 49; Envelope.scale := 53 |})
              0%nat)
    as (secKey & encSecKey & Hweapi & Hlen & _ & Hchars & Hlen' & _).
  - intros i Hi. unfold Envelope.isDouble01. simpl. lia.
  - exists secKey, encSecKey. split_and!; [|done| |done].
    + rewrite Hweapi. reflexivity.
    + destruct (Hchars 1%nat) as (index & product & Hget & _ & _ & _ & Hlo & Hhi); [lia|].
      cbn [Envelope.mantissa Envelope.scale] in Hlo, Hhi.
      assert (H1 : 62 * (Z.of_nat 1 * 2 ^ 49) / 2 ^ 53 = 3) by reflexivity.
      assert (H2 : (62 * (Z.of_nat 1 * 2 ^ 49) * 2 ^ 48 + 2 ^ 53) / 2 ^ (53 + 48) = 3)
        by reflexivity.
      rewrite H1 in Hlo. rewrite H2 in Hhi. assert (index = 3) as -> by lia.
      exact Hget.
Defined.
(** ** The argument tokenizer *)

Section ArgsProperties.
Import Args.

Lemma skipWhile_ge P l : forall j, (j <= skipWhile P l j)%nat.
Proof.
  induction l as [|c l IH]; intros j; simpl; [lia|].
  destruct (P c); [|lia]. specialize (IH (S j)). lia.
Qed.

Lemma skipWhile_le P l : forall j, (skipWhile P l j <= j + length l)%nat.
Proof.
  induction l as [|c l IH]; intros j; simpl; [lia|].
  destruct (P c); [|lia]. specialize (IH (S j)). lia.
Qed.

Lemma skipWhile_shift P l a : forall j, skipWhile P l (a + j) = (a + skipWhile P l j)%nat.
Proof.
  induction l as [|c l IH]; intros j; simpl; [done|].
  destruct (P c); [|done]. by rewrite <- IH, Nat.add_succ_r.
Qed.

Lemma skipWhile_app P w rest j :
  forallb P w = true -> from_option P false (head rest) = false ->
  skipWhile P (w ++ rest) j = (j + length w)%nat.
Proof.
  revert j. induction w as [|c w IH]; intros j Hw Hrest; simpl.
  - destruct rest as [|d rest]; simpl in *; [lia|]. rewrite Hrest. lia.
  - simpl in Hw. apply andb_true_iff in Hw as [-> Hw]. rewrite IH by done. lia.
Qed.

Lemma indexFrom_shift c l a : forall j, indexFrom c l (a + j) = (Nat.add a) <$> indexFrom c l j.
Proof.
  induction l as [|x l IH]; intros j; simpl; [done|].
  destruct (x =? c)%N; [done|]. by rewrite <- IH, Nat.add_succ_r.
Qed.

Lemma indexFrom_bounds c l : forall j e,
  indexFrom c l j = Some e -> (j <= e < j + length l)%nat.
Proof.
  induction l as [|x l IH]; intros j e; simpl; [done|].
  destruct (x =? c)%N; [intros [= <-]; lia|]. intros He%IH. lia.
Qed.

Lemma indexFrom_found c body rest : forall j,
  c ∉ body -> indexFrom c (body ++ c :: rest) j = Some (j + length body)%nat.
Proof.
  induction body as [|x body IH]; intros j Hc; simpl.
  - rewrite N.eqb_refl. f_equal. lia.
  - apply not_elem_of_cons in Hc as [Hx Hc].
    destruct (N.eqb_spec x c) as [->|_]; [done|]. rewrite IH by done. f_equal. lia.
Qed.

Lemma indexFrom_absent c l j : c ∉ l -> indexFrom c l j = None.
Proof.
  revert j. induction l as [|x l IH]; intros j Hc; simpl; [done|].
  apply not_elem_of_cons in Hc as [Hx Hc].
  destruct (N.eqb_spec x c) as [->|_]; [done|]. by apply IH.
Qed.

(** The loop looks at [raw] from [i] on only. *)
Lemma scan_shift pre raw fuel : forall i parts options,
  scan fuel (pre ++ raw) (length pre + i) parts options = scan fuel raw i parts options.
Proof.
  assert (Hlook : forall i, (pre ++ raw) !! (length pre + i)%nat = raw !! i).
  { intros i. rewrite lookup_app_r by lia. f_equal. lia. }
  assert (Hdrop : forall i, drop (length pre + i) (pre ++ raw) = drop i raw).
  { intros i. by rewrite drop_app_add. }
  assert (Hslice : forall a b,
            slice (pre ++ raw) (length pre + a) (length pre + b) = slice raw a b).
  { intros a b. unfold slice. rewrite Hdrop. f_equal. lia. }
  assert (Hleb : forall j, (length (pre ++ raw) <=? length pre + j)%nat = (length raw <=? j)%nat).
  { intros j. rewrite length_app. apply eq_true_iff_eq. rewrite !Nat.leb_le. lia. }
  induction fuel as [|fuel IH]; intros i parts options; simpl; rewrite Hlook; [done|].
  destruct (raw !! i) as [c|]; [|done].
  change (S (length pre + i)) with (S (length pre) + i)%nat.
  rewrite !Nat.add_succ_comm.
  rewrite !Hlook, !Hdrop, !IH.
  destruct (isSpace c); [done|].
  destruct (quoteMap c) as [close|]; simpl.
  - unfold indexOf. rewrite Hdrop, indexFrom_shift.
    destruct (indexFrom close (drop (S i) raw) (S i)) as [e|] eqn:He; simpl.
    + change (S (length pre + e)) with (S (length pre) + e)%nat.
      by rewrite Nat.add_succ_comm, IH, Hslice.
    + by rewrite !skipWhile_shift, !Hlook, !Hslice, !IH, Hleb.
  - by rewrite !skipWhile_shift, !Hlook, !Hslice, !IH, Hleb.
Qed.

(** More fuel than the code units left changes nothing. *)
Lemma scan_fuel raw f1 : forall f2 i parts options,
  (length raw - i <= f1)%nat -> (length raw - i <= f2)%nat ->
  scan f1 raw i parts options = scan f2 raw i parts options.
Proof.
  induction f1 as [|f1 IH]; intros f2 i parts options H1 H2.
  - destruct f2; simpl; destruct (raw !! i) eqn:Hi; try done;
      apply lookup_lt_Some in Hi; lia.
  - simpl. destruct (raw !! i) as [c|] eqn:Hi; [|by destruct f2; simpl; rewrite Hi].
    pose proof (lookup_lt_Some _ _ _ Hi) as Hlt.
    destruct f2 as [|f2]; [lia|]. simpl. rewrite Hi.
    destruct (isSpace c) eqn:Hc; [apply IH; lia|].
    assert (Hword : (S i <= skipWhile (fun c => negb (isSpace c)) (drop i raw) i)%nat).
    { rewrite (drop_S _ c) by done. simpl. rewrite Hc. simpl. apply skipWhile_ge. }
    pose proof (skipWhile_ge isLetter (drop (S i) raw) (S i)) as Hflag.
    destruct (quoteMap c ≫= _) as [e|] eqn:He.
    + destruct (quoteMap c) as [close|]; [|done]. simpl in He.
      apply indexFrom_bounds in He. apply IH; lia.
    + rewrite !(IH f2) by lia. done.
Qed.

End ArgsProperties.

Section ArgsTokens.
Import Args Typed.

Lemma scan_from pre rest fuel parts options :
  (length rest <= fuel)%nat ->
  scan fuel (pre ++ rest) (length pre) parts options
  = scan (length rest) rest 0 parts options.
Proof.
  intros Hfuel. rewrite <- (Nat.add_0_r (length pre)), scan_shift.
  apply scan_fuel; lia.
Qed.

Lemma scan_space c rest parts options :
  isSpace c = true ->
  scan (length (c :: rest)) (c :: rest) 0 parts options
  = scan (length rest) rest 0 parts options.
Proof.
  intros Hc. simpl. rewrite Hc. by apply (scan_from [c]).
Qed.

Lemma scan_spaces gap rest parts options :
  forallb isSpace gap = true ->
  scan (length (gap ++ rest)) (gap ++ rest) 0 parts options
  = scan (length rest) rest 0 parts options.
Proof.
  induction gap as [|c gap IH]; [done|]. simpl forallb.
  intros [Hc Hgap]%andb_true_iff.
  change ((c :: gap) ++ rest) with (c :: (gap ++ rest)).
  rewrite scan_space by done. by apply IH.
Qed.

Lemma slice_prefix w rest : slice (w ++ rest) 0 (length w) = w.
Proof. unfold slice. rewrite Nat.sub_0_r, drop_0. apply take_app_length. Qed.

Lemma slice_inner c w rest :
  slice (c :: w ++ rest) 1 (S (length w)) = w.
Proof.
  unfold slice. replace (S (length w) - 1)%nat with (length w) by lia.
  change (drop 1 (c :: w ++ rest)) with (w ++ rest). by rewrite take_app_length.
Qed.

Lemma atBoundary_skip P rest :
  (forall c, isSpace c = true -> P c = false) -> atBoundary rest ->
  from_option P false (head rest) = false.
Proof.
  intros HP. unfold atBoundary. destruct rest as [|d rest]; simpl; [done|]. apply HP.
Qed.

Lemma isSpace_range c : isSpace c = true -> (9 <= c <= 13 \/ c = 32 \/ 160 <= c)%N.
Proof.
  unfold isSpace.
  rewrite !orb_true_iff, !andb_true_iff, !N.leb_le, !N.eqb_eq. lia.
Qed.

Lemma isLetter_not_space c : isSpace c = true -> isLetter c = false.
Proof.
  intros Hc%isSpace_range. apply not_true_iff_false. unfold isLetter.
  rewrite !orb_true_iff, !andb_true_iff, !N.leb_le. lia.
Qed.

Lemma scan_unfold fuel raw i c parts options :
  raw !! i = Some c ->
  scan (S fuel) raw i parts options =
  if isSpace c then scan fuel raw (S i) parts options
  else
    match close ← quoteMap c; indexOf close raw (S i) with
    | Some end_ => scan fuel raw (S end_) (parts ++ [slice raw (S i) end_]) options
    | None =>
        let token :=
          let j := skipWhile (fun c => negb (isSpace c)) (drop i raw) i in
          scan fuel raw j (parts ++ [slice raw i j]) options in
        if (c =? 45)%N && from_option isLetter false (raw !! S i) then
          let j := skipWhile isLetter (drop (S i) raw) (S i) in
          if (length raw <=? j)%nat || from_option isSpace false (raw !! j) then
            let chars := slice raw (S i) j in
            if forallb KNOWN_FLAGS chars then scan fuel raw j parts (setFlags chars options)
            else scan fuel raw j (parts ++ [slice raw i j]) options
          else token
        else token
    end.
Proof. intros Hi. cbn [scan]. by rewrite Hi. Qed.

Lemma scan_word w rest parts options :
  wellFormed (Word w) -> atBoundary rest ->
  scan (length (w ++ rest)) (w ++ rest) 0 parts options
  = scan (length rest) rest 0 (parts ++ [w]) options.
Proof.
  intros (Hne & Hw & Hquote & Hopt) Hrest.
  destruct w as [|c w]; [done|]. clear Hne.
  cbn [head mbind option_bind forallb] in Hw, Hquote. apply andb_true_iff in Hw as [Hc Hw].
  apply negb_true_iff in Hc.
  set (raw := (c :: w) ++ rest).
  assert (Hlen : length raw = S (length (w ++ rest))) by reflexivity.
  assert (Htoken :
    scan (length (w ++ rest)) raw
      (skipWhile (fun c => negb (isSpace c)) (drop 0 raw) 0)
      (parts ++ [slice raw 0 (skipWhile (fun c => negb (isSpace c)) (drop 0 raw) 0)]) options
    = scan (length rest) rest 0 (parts ++ [c :: w]) options).
  { rewrite drop_0. unfold raw.
    rewrite (skipWhile_app _ (c :: w) rest).
    - rewrite Nat.add_0_l, slice_prefix. apply (scan_from (c :: w)).
      rewrite length_app. lia.
    - cbn [forallb]. by rewrite Hc, Hw.
    - apply atBoundary_skip; [|done]. by intros d ->. }
  rewrite Hlen, (scan_unfold _ raw 0 c) by reflexivity.
  rewrite Hc, Hquote. cbn [mbind option_bind]. cbv zeta.
  destruct ((c =? 45)%N && from_option isLetter false (raw !! 1%nat)) eqn:Hdash;
    [|exact Htoken].
  apply andb_true_iff in Hdash as [Hc45 Hl].
  destruct w as [|l w].
  { unfold raw in Hl. cbn [app lookup list_lookup] in Hl.
    replace (rest !! 0%nat) with (head rest) in Hl by (by destruct rest).
    rewrite (atBoundary_skip isLetter) in Hl; [done| |done].
    apply isLetter_not_space. }
  assert (Hl' : isLetter l = true) by exact Hl.
  cbn [optionLike] in Hopt. rewrite Hc45 in Hopt. cbn [andb] in Hopt.
  (* some unit of the word after the hyphen is not a letter *)
  assert (Hstop : exists pre d suf,
            l :: w = pre ++ d :: suf /\ forallb isLetter pre = true /\ isLetter d = false).
  { clear -Hl' Hopt. revert l Hl' Hopt.
    induction w as [|x w IH]; intros l Hl Hopt.
    { cbn [forallb] in Hopt. by rewrite Hl in Hopt. }
    cbn [forallb] in Hopt. rewrite Hl in Hopt. cbn [andb] in Hopt.
    destruct (isLetter x) eqn:Hx.
    - destruct (IH x Hx) as (pre & d & suf & Heq & Hpre & Hd).
      { cbn [forallb]. by rewrite Hx. }
      exists (l :: pre), d, suf. rewrite Heq. cbn [forallb]. by rewrite Hl, Hpre.
    - exists [l], x, w. cbn [forallb]. by rewrite Hl. }
  destruct Hstop as (pre & d & suf & Heq & Hpre & Hd).
  assert (Hraw : raw = c :: pre ++ d :: suf ++ rest).
  { unfold raw. change ((c :: l :: w) ++ rest) with (c :: (l :: w) ++ rest).
    by rewrite Heq, <- app_assoc. }
  assert (Hj : skipWhile isLetter (drop 1 raw) 1 = S (length pre)).
  { rewrite Hraw. change (drop 1 (c :: pre ++ d :: suf ++ rest)) with (pre ++ d :: suf ++ rest).
    rewrite (skipWhile_app isLetter pre (d :: suf ++ rest)); [lia|done|]. exact Hd. }
  assert (Hat : raw !! S (length pre) = Some d).
  { rewrite Hraw. change ((c :: pre ++ d :: suf ++ rest) !! S (length pre))
      with ((pre ++ d :: suf ++ rest) !! length pre). by rewrite list_lookup_middle. }
  rewrite Hj, Hat. cbn [from_option].
  assert (Hd' : isSpace d = false).
  { assert (Hin : d ∈ l :: w) by (rewrite Heq; apply elem_of_app; right; left).
    rewrite forallb_forall in Hw. apply negb_true_iff, Hw.
    by apply list_elem_of_In. }
  rewrite Hd', orb_false_r.
  destruct (Nat.leb_spec (length raw) (S (length pre))) as [Hlen'|_].
  { apply lookup_lt_Some in Hat. lia. }
  exact Htoken.
Qed.
End ArgsTokens.

Section ArgsTokens2.
Import Args Typed.

Lemma setFlags_fields letters : forall options,
  setFlags letters options
  = {| opt_audio := opt_audio options || bool_decide (97%N ∈ letters);
       opt_file := opt_file options || bool_decide (102%N ∈ letters);
       opt_compress := opt_compress options || bool_decide (122%N ∈ letters) |}.
Proof.
  unfold setFlags.
  induction letters as [|c letters IH]; intros [a f z]; simpl.
  - by rewrite !orb_false_r.
  - rewrite IH. simpl.
    assert (Hmem : forall k : N,
              bool_decide (k ∈ c :: letters) = (c =? k)%N || bool_decide (k ∈ letters)).
    { intros k. apply eq_true_iff_eq.
      rewrite bool_decide_eq_true, orb_true_iff, bool_decide_eq_true, N.eqb_eq.
      rewrite elem_of_cons. split; intros [->|?]; auto. }
    rewrite !Hmem, !orb_assoc. done.
Qed.

Lemma scan_dash letters rest parts options :
  wellFormed (Dash letters) -> atBoundary rest ->
  scan (length ((45%N :: letters) ++ rest)) ((45%N :: letters) ++ rest) 0 parts options
  = scan (length rest) rest 0
      (parts ++ option_list (partOf (Dash letters))) (flagsOf options (Dash letters)).
Proof.
  intros [Hne Hletters] Hrest.
  destruct letters as [|l letters]; [done|]. clear Hne.
  pose proof Hletters as Hl. cbn [forallb] in Hl. apply andb_true_iff in Hl as [Hl _].
  set (word := l :: letters) in *.
  set (raw := (45%N :: word) ++ rest).
  assert (Hlen : length raw = S (length (word ++ rest))) by reflexivity.
  assert (Hj : skipWhile isLetter (drop 1 raw) 1 = S (length word)).
  { change (drop 1 raw) with (word ++ rest).
    rewrite skipWhile_app; [lia|done|].
    apply atBoundary_skip; [apply isLetter_not_space|done]. }
  assert (Hend : (length raw <=? S (length word))%nat
                 || from_option isSpace false (raw !! S (length word)) = true).
  { change (raw !! S (length word)) with ((word ++ rest) !! length word).
    rewrite lookup_app_r by lia. rewrite Nat.sub_diag.
    destruct rest as [|d rest].
    - apply orb_true_iff. left. apply Nat.leb_le. rewrite Hlen, app_nil_r. lia.
    - apply orb_true_iff. right. exact Hrest. }
  rewrite Hlen, (scan_unfold _ raw 0 45%N) by reflexivity.
  change (isSpace 45) with false. change (quoteMap 45) with (@None N).
  cbn [mbind option_bind]. cbv zeta.
  change ((45 =? 45)%N) with true. cbn [andb].
  change (raw !! 1%nat) with (Some l). cbn [from_option]. rewrite Hl.
  rewrite Hj, Hend.
  change (slice raw 1 (S (length word))) with (slice (45%N :: word ++ rest) 1 (S (length word))).
  rewrite (slice_inner 45%N word rest).
  change (slice raw 0 (S (length word)))
    with (slice ((45%N :: word) ++ rest) 0 (length (45%N :: word))).
  rewrite slice_prefix. unfold partOf, flagsOf.
  destruct (forallb KNOWN_FLAGS word).
  - rewrite app_nil_r, <- setFlags_fields.
    apply (scan_from (45%N :: word)). rewrite length_app. lia.
  - apply (scan_from (45%N :: word)). rewrite length_app. lia.
Qed.

Lemma quote_not_space q : is_Some (quoteMap q) -> isSpace q = false.
Proof.
  unfold quoteMap. intros [close Hq].
  repeat match type of Hq with
  | context [(?a =? ?b)%N] => destruct (N.eqb_spec a b) as [->|]; [reflexivity|]
  end. done.
Qed.

Lemma scan_quoted q body rest parts options :
  wellFormed (Quoted q body) ->
  scan (length (render (Quoted q body) ++ rest)) (render (Quoted q body) ++ rest) 0 parts options
  = scan (length rest) rest 0 (parts ++ [body]) options.
Proof.
  intros [Hq Hbody]. pose proof (quote_not_space q Hq) as Hsp.
  destruct Hq as [close Hq].
  assert (Hrender : render (Quoted q body) = q :: body ++ [close]).
  { cbn [render]. unfold closing. by rewrite Hq. }
  unfold closing in Hbody. rewrite Hq in Hbody. cbn [default from_option] in Hbody.
  rewrite Hrender.
  set (raw := (q :: body ++ [close]) ++ rest).
  assert (Hraw : raw = q :: body ++ close :: rest).
  { unfold raw. cbn [app]. by rewrite <- app_assoc. }
  assert (Hlen : length raw = S (length (body ++ close :: rest))) by (by rewrite Hraw).
  rewrite Hlen, (scan_unfold _ raw 0 q) by reflexivity.
  rewrite Hsp, Hq. cbn [mbind option_bind].
  assert (Hindex : indexOf close raw 1 = Some (S (length body))).
  { unfold indexOf. rewrite Hraw.
    change (drop 1 (q :: body ++ close :: rest)) with (body ++ close :: rest).
    rewrite indexFrom_found by done. f_equal. }
  rewrite Hindex.
  assert (Hslice : slice raw 1 (S (length body)) = body).
  { rewrite Hraw. apply (slice_inner q body (close :: rest)). }
  rewrite Hslice.
  replace (S (S (length body))) with (length (q :: body ++ [close]))
    by (cbn [length]; rewrite length_app; simpl; lia).
  unfold raw. apply scan_from. rewrite length_app. simpl. lia.
Qed.

Lemma scan_token t gap rest parts options :
  wellFormed t -> forallb isSpace gap = true ->
  (needsGap t = true -> gap = [] -> rest = []) ->
  scan (length (render t ++ gap ++ rest)) (render t ++ gap ++ rest) 0 parts options
  = scan (length rest) rest 0 (parts ++ option_list (partOf t)) (flagsOf options t).
Proof.
  intros Ht Hgap Hneeds.
  assert (Hb : needsGap t = true -> atBoundary (gap ++ rest)).
  { intros Hn. unfold atBoundary. destruct gap as [|c gap].
    - by rewrite (Hneeds Hn).
    - simpl in *. by apply andb_true_iff in Hgap as [-> _]. }
  destruct t as [w|letters|q body].
  - change (render (Word w)) with w. rewrite scan_word by auto. by apply scan_spaces.
  - change (render (Dash letters)) with (45%N :: letters).
    rewrite scan_dash by auto. by apply scan_spaces.
  - rewrite scan_quoted by auto. by apply scan_spaces.
Qed.

Lemma scan_items items : forall parts options,
  wellSpaced items ->
  let raw := concat ((fun item => render item.1 ++ item.2) <$> items) in
  scan (length raw) raw 0 parts options
  = Some (parts ++ omap partOf items.*1, foldl flagsOf options items.*1).
Proof.
  induction items as [|[t gap] items IH]; intros parts options Hitems.
  - simpl. by rewrite app_nil_r.
  - destruct Hitems as (Ht & Hgap & Hneeds & Hitems). cbv zeta.
    rewrite fmap_cons, concat_cons. simpl fst. simpl snd. rewrite <- app_assoc.
    rewrite scan_token; [|done|done|].
    + rewrite IH by done. rewrite !fmap_cons. cbn [fst].
      assert (Hparts : omap partOf (t :: items.*1)
                       = option_list (partOf t) ++ omap partOf items.*1).
      { cbn [omap list_omap]. by destruct (partOf t). }
      by rewrite Hparts, <- app_assoc.
    + intros Hn Hg. by rewrite (Hneeds Hn Hg).
Qed.
End ArgsTokens2.

Section ArgsAnyInput.
Import Args Typed.

Lemma scan_terminates raw fuel : forall i parts options,
  (length raw - i <= fuel)%nat -> is_Some (scan fuel raw i parts options).
Proof.
  induction fuel as [|fuel IH]; intros i parts options Hfuel; simpl.
  - destruct (raw !! i) eqn:Hi; [|by eexists]. apply lookup_lt_Some in Hi. lia.
  - destruct (raw !! i) as [c|] eqn:Hi; [|by eexists].
    pose proof (lookup_lt_Some _ _ _ Hi) as Hlt.
    destruct (isSpace c) eqn:Hc; [apply IH; lia|].
    assert (Hword : (S i <= skipWhile (fun c => negb (isSpace c)) (drop i raw) i)%nat).
    { rewrite (drop_S _ c) by done. simpl. rewrite Hc. simpl. apply skipWhile_ge. }
    pose proof (skipWhile_ge isLetter (drop (S i) raw) (S i)) as Hflag.
    destruct (quoteMap c ≫= _) as [e|] eqn:He.
    + destruct (quoteMap c) as [close|]; [|done]. simpl in He.
      apply indexFrom_bounds in He. apply IH; lia.
    + repeat match goal with
      | |- context [if ?b then _ else _] => destruct b
      end; apply IH; lia.
Qed.

Lemma slice_subseteq raw a b : slice raw a b ⊆ raw.
Proof. unfold slice. etrans; [apply subseteq_take|apply subseteq_drop]. Qed.

Lemma grows_refl raw s : grows raw s s.
Proof. split; [exists []; by rewrite app_nil_r | tauto]. Qed.

Lemma grows_trans raw s1 s2 s3 : grows raw s1 s2 -> grows raw s2 s3 -> grows raw s1 s3.
Proof.
  destruct s1 as [p1 o1], s2 as [p2 o2], s3 as [p3 o3]. unfold grows. cbn [fst snd].
  intros ((n1 & E1 & H1) & Ha1 & Hf1 & Hz1) ((n2 & E2 & H2) & Ha2 & Hf2 & Hz2).
  split; [|tauto].
  exists (n1 ++ n2). rewrite E2, E1, app_assoc. split; [done|]. by apply Forall_app.
Qed.

Lemma grows_part raw parts options part :
  part ⊆ raw -> grows raw (parts, options) (parts ++ [part], options).
Proof. intros Hpart. split; [exists [part]; by repeat constructor | simpl; tauto]. Qed.

Lemma grows_flags raw parts options chars :
  45%N ∈ raw -> chars ⊆ raw -> grows raw (parts, options) (parts, setFlags chars options).
Proof.
  intros Hdash Hchars. split; [exists []; by rewrite app_nil_r|].
  rewrite setFlags_fields. simpl.
  split_and!; intros [?|Hin%bool_decide_eq_true]%orb_true_iff; auto.
Qed.

Lemma scan_grows raw fuel : forall i parts options result,
  scan fuel raw i parts options = Some result -> grows raw (parts, options) result.
Proof.
  induction fuel as [|fuel IH]; intros i parts options result; simpl.
  - destruct (raw !! i); [done|]. intros [= <-]. apply grows_refl.
  - destruct (raw !! i) as [c|] eqn:Hi; [|intros [= <-]; apply grows_refl].
    destruct (isSpace c); [apply IH|].
    assert (Hpart : forall a b rest,
              scan fuel raw rest (parts ++ [slice raw a b]) options = Some result ->
              grows raw (parts, options) result).
    { intros a b rest Hrun. eapply grows_trans; [|by eapply IH].
      apply grows_part, slice_subseteq. }
    destruct (quoteMap c ≫= _) as [e|]; [apply Hpart|].
    destruct ((c =? 45)%N && _) eqn:Hdash; [|apply Hpart].
    destruct (_ || _); [|apply Hpart].
    destruct (forallb _ _); [|apply Hpart].
    intros Hrun. eapply grows_trans; [|by eapply IH].
    apply grows_flags; [|apply slice_subseteq].
    apply andb_true_iff in Hdash as [->%N.eqb_eq _]. by eapply list_elem_of_lookup_2.
Qed.

Lemma join_units sep parts c :
  c ∈ join sep parts -> c ∈ sep \/ exists part, part ∈ parts /\ c ∈ part.
Proof.
  induction parts as [|p parts IH]; [by intros ?%elem_of_nil|].
  destruct parts as [|p' parts].
  - simpl. intros Hc. right. exists p. split; [left|done].
  - change (join sep (p :: p' :: parts)) with (p ++ sep ++ join sep (p' :: parts)).
    rewrite !elem_of_app. intros [Hc|[Hc|Hc]].
    + right. exists p. split; [left|done].
    + by left.
    + destruct (IH Hc) as [?|(part & Hpart & Hcp)]; [by left|].
      right. exists part. split; [by right|done].
Qed.

(** X2.  [parseArgs] returns for every input.  Every code unit of the keyword
    is a code unit of the input or the space that joins two parts; an option
    is set only if the input holds a hyphen and the letter of that option. *)
Theorem parseArgs_any_input raw :
  exists keyword options,
    parseArgs raw = Some (keyword, options)
    /\ (forall c, c ∈ keyword -> c ∈ raw \/ c = 32%N)
    /\ (opt_audio options = true -> 45%N ∈ raw /\ 97%N ∈ raw)
    /\ (opt_file options = true -> 45%N ∈ raw /\ 102%N ∈ raw)
    /\ (opt_compress options = true -> 45%N ∈ raw /\ 122%N ∈ raw).
Proof.
  unfold parseArgs.
  destruct (scan_terminates raw (length raw) 0 [] noOptions) as [[parts options] Hrun]; [lia|].
  rewrite Hrun. simpl. exists (join [32%N] parts), options.
  destruct (scan_grows _ _ _ _ _ _ Hrun) as ((new & Hnew & Hparts) & Ha & Hf & Hz).
  simpl in *. subst parts.
  split_and!; [done| |intros H; by destruct (Ha H)|intros H; by destruct (Hf H)
              |intros H; by destruct (Hz H)].
  intros c [Hc|(part & Hpart & Hc)]%join_units.
  - right. by apply list_elem_of_singleton in Hc.
  - left. rewrite Forall_forall in Hparts. by apply (Hparts part).
Qed.

(** X1.  Whatever is typed as words, hyphen groups and quotations, with
    whitespace between them, [parseArgs] gives back: the keyword is the
    words, the quoted texts and the hyphen groups that hold an unknown
    letter, in order and joined by one space; the options are those of the
    hyphen groups made of [a], [f] and [z] only. *)
Theorem parseArgs_typed lead items :
  forallb isSpace lead = true -> wellSpaced items ->
  parseArgs (typed lead items)
  = Some (join [32%N] (omap partOf items.*1), foldl flagsOf noOptions items.*1).
Proof.
  intros Hlead Hitems. unfold parseArgs, typed.
  rewrite scan_spaces by done. by rewrite scan_items.
Qed.

Lemma parseArgs_typed_witness :
  parseArgs (lit "-af  hello   world -x 'a -z'c")
  = Some (lit "hello world -x a -z c",
          {| opt_audio := true; opt_file := true; opt_compress := false |}).
Proof.
  apply (parseArgs_typed []
           [(Dash (lit "af"), lit "  "); (Word (lit "hello"), lit "   ");
            (Word (lit "world"), lit " "); (Dash (lit "x"), lit " ");
            (Quoted 39 (lit "a -z"), []); (Word (lit "c"), [])]).
  - reflexivity.
  - simpl. split_and!; try done; try (by eexists); compute_done.
Defined.
End ArgsAnyInput.

(** ** The title of a sent file *)

Lemma trimStart_suffix s : exists k, trimStart s = drop k s.
Proof.
  induction s as [|c s [k IH]]; [by exists 0%nat|]. simpl.
  destruct (isSpace c); [by exists (S k)|by exists 0%nat].
Qed.

Lemma trimStart_head s : from_option isSpace false (head (trimStart s)) = false.
Proof.
  induction s as [|c s IH]; [done|]. simpl.
  destruct (isSpace c) eqn:Hc; [exact IH|]. simpl. exact Hc.
Qed.

(** [trim] keeps a stretch of the string that neither starts nor ends with
    white space. *)
Lemma trim_spec s :
  (exists k m, trim s = take m (drop k s))
  /\ from_option isSpace false (head (trim s)) = false
  /\ from_option isSpace false (last (trim s)) = false.
Proof.
  unfold trim.
  destruct (trimStart_suffix s) as [k Hk].
  destruct (trimStart_suffix (reverse (trimStart s))) as [k' Hk'].
  assert (Hslice : reverse (trimStart (reverse (trimStart s)))
                   = take (length (drop k s) - k') (drop k s)).
  { rewrite Hk', Hk, drop_reverse. apply reverse_involutive. }
  split_and!.
  - by exists k, (length (drop k s) - k')%nat.
  - rewrite Hslice. destruct (length (drop k s) - k')%nat as [|m]; [done|].
    pose proof (trimStart_head s) as Hhead. rewrite Hk in Hhead.
    by destruct (drop k s).
  - rewrite last_reverse. apply trimStart_head.
Qed.

Lemma trim_Forall (P : N -> Prop) s : Forall P s -> Forall P (trim s).
Proof.
  intros Hs. destruct (trim_spec s) as ((k & m & ->) & _).
  by apply Forall_take, Forall_drop.
Qed.

Lemma trim_length s : (length (trim s) <= length s)%nat.
Proof.
  destruct (trim_spec s) as ((k & m & ->) & _).
  rewrite length_take, length_drop. lia.
Qed.

Lemma collapseSpaces_Forall (P : N -> Prop) s :
  P 32%N -> Forall P s -> Forall P (collapseSpaces s).
Proof.
  intros Hspace. induction 1 as [|c s Hc Hs IH]; [constructor|].
  cbn [collapseSpaces]. destruct (isSpace c).
  - destruct s as [|d s]; [by repeat constructor|].
    destruct (isSpace d); [exact IH|by constructor].
  - by constructor.
Qed.

(** X3.  The title [sanitizeFilename] gives is never empty, has at most 120
    code units, holds none of the characters a file name must not hold
    (backslash, slash, colon, asterisk, question mark, double quote, angle
    brackets, vertical bar) and no control character, and neither starts nor
    ends with white space; this whatever the name is and whatever Unicode
    normalization makes of it. *)
Theorem sanitizeFilename_safe host name :
  let title := sanitizeFilename host name in
  title ≠ []
  /\ (length title <= 120)%nat
  /\ Forall (fun c => isReservedChar c = false /\ isControlChar c = false) title
  /\ from_option isSpace false (head title) = false
  /\ from_option isSpace false (last title) = false.
Proof.
  cbv zeta.
  assert (Hfile : let title := lit "file" in
            title ≠ [] /\ (length title <= 120)%nat
            /\ Forall (fun c => isReservedChar c = false /\ isControlChar c = false) title
            /\ from_option isSpace false (head title) = false
            /\ from_option isSpace false (last title) = false).
  { cbv zeta. split_and!; try done; [simpl; lia|]. by repeat constructor. }
  unfold sanitizeFilename. destruct (decide (name = [])); [exact Hfile|]. cbv zeta.
  set (replaced := (fun c => if isReservedChar c then 45%N else c) <$> normalizeNFKD host name).
  set (shown := filter (fun c => isControlChar c = false) replaced).
  set (spaced := trim (collapseSpaces shown)).
  set (cut := if (120 <? length spaced)%nat then trim (take 120 spaced) else spaced).
  destruct (decide (cut = [])) as [|Hne]; [exact Hfile|].
  assert (Hshown : Forall (fun c => isReservedChar c = false /\ isControlChar c = false) shown).
  { apply Forall_forall. intros c [Hcontrol Hc]%list_elem_of_filter. split; [|done].
    apply list_elem_of_fmap in Hc as (c0 & -> & _).
    by destruct (isReservedChar c0) eqn:Hr. }
  assert (Hspaced : Forall (fun c => isReservedChar c = false /\ isControlChar c = false) spaced
                    /\ from_option isSpace false (head spaced) = false
                    /\ from_option isSpace false (last spaced) = false).
  { split; [|apply trim_spec].
    apply trim_Forall, collapseSpaces_Forall; [by split|done]. }
  destruct Hspaced as (Hchars & Hhead & Hlast).
  subst cut. destruct (Nat.ltb_spec 120 (length spaced)) as [Hlong|Hshort].
  - split_and!; [done| | |apply trim_spec..].
    + etrans; [apply trim_length|]. rewrite length_take. lia.
    + by apply trim_Forall, Forall_take.
  - by split_and!.
Qed.
(** ** What a song request leaves as it found it *)

(** A relation between worlds that every awaited operation and every log
    entry keeps. *)
Section Frame.
Context (R : World -> World -> Prop) `{!Reflexive R, !Transitive R}.
Context (Hperform : forall X (op : Op X) w, R w (perform op w).2).
Context (Hemit : forall e w, R w (emit e w)).

Local Ltac frame_step :=
  match goal with
  | |- respects _ (mbind _ _) => apply respects_bind; [|intros ?]
  | |- respects _ (try_catch _ _) => apply respects_try_catch; [|intros ?]
  | |- respects _ (try_finally _ _) => apply respects_try_finally
  | |- respects _ (await _) => apply respects_await; intros ?; apply Hperform
  | |- respects _ (send _ _) => apply respects_await; intros ?; apply Hperform
  | |- respects _ (compressAudio _ _) => apply respects_await; intros ?; apply Hperform
  | |- respects _ (logger _ _) => apply respects_modify; intros ?; apply Hemit
  | |- respects _ (read _) => apply respects_read; apply _
  | |- respects _ (mret _) => apply respects_Ret
  | |- respects _ (Ret _) => apply respects_Ret
  | |- respects _ (Throw _) => apply respects_Throw
  | |- respects _ (match ?x with _ => _ end) => destruct x
  | |- respects _ (let _ := _ in _) => cbv zeta
  end.

Lemma getCacheTotalSize_frame : respects R getCacheTotalSize.
Proof. unfold getCacheTotalSize. repeat frame_step. Qed.

Lemma evictOne_frame c freed : respects R (evictOne c freed).
Proof. unfold evictOne. repeat frame_step. Qed.

Lemma sweep_frame B cur S caches freed : respects R (sweep B cur S caches freed).
Proof.
  revert freed. induction caches as [|c rest IH]; intros freed; simpl.
  - apply respects_Ret.
  - destruct (_ <=? _); [apply respects_Ret|].
    apply respects_bind; [apply evictOne_frame | intros ?; apply IH].
Qed.

Lemma cleanOldCache_frame cfg S : respects R (cleanOldCache cfg S).
Proof.
  unfold cleanOldCache. cbv zeta.
  apply respects_bind; [apply getCacheTotalSize_frame|]. intros cur.
  destruct (_ <=? _); [apply respects_Ret|].
  apply respects_bind; [ |intros ?; apply sweep_frame].
  repeat frame_step.
Qed.

Lemma sendCachedSong_frame cfg host session cache fmt compress :
  respects R (sendCachedSong cfg host session cache fmt compress).
Proof.
  unfold sendCachedSong.
  repeat first [frame_step
               | match goal with |- respects _ (if ?b then _ else _) => destruct b end].
Qed.

Lemma downloadSong_frame host url savePath : respects R (downloadSong host url savePath).
Proof. unfold downloadSong. repeat frame_step. Qed.

Lemma downloadAndCommit_frame cfg host session song cacheEntry urlInfo savePath fmt compress :
  respects R (downloadAndCommit cfg host session song cacheEntry urlInfo savePath fmt compress).
Proof.
  unfold downloadAndCommit.
  apply respects_bind; [apply cleanOldCache_frame|intros _].
  apply respects_bind; [apply downloadSong_frame|intros _].
  apply respects_bind; [apply respects_read; apply _|intros now].
  apply respects_bind; [ |intros _; apply sendCachedSong_frame].
  destruct cacheEntry; repeat frame_step.
Qed.

Lemma cacheCheck_frame cfg host session song fmt compress :
  respects R (cacheCheck cfg host session song fmt compress).
Proof.
  unfold cacheCheck.
  apply respects_bind; [repeat frame_step|]. intros cache. cbv zeta.
  destruct (head cache) as [entry|]; [|apply respects_Ret].
  destruct (mc_cached entry); [|apply respects_Ret].
  destruct (truthy (mc_cachePath entry)); [|apply respects_Ret].
  apply respects_try_catch.
  - apply respects_bind; [repeat frame_step|intros _].
    apply respects_bind; [apply sendCachedSong_frame|intros _]. apply respects_Ret.
  - intros _. repeat frame_step.
Qed.

Lemma onRequestError_frame session e : respects R (onRequestError session e).
Proof. unfold onRequestError. repeat frame_step. Qed.

(** With the lock set too left alone by [R]'s standards, the whole handler
    respects [R]. *)
Lemma fetchSong_frame cfg host session song cacheEntry fmt compress :
  (forall f w, R w (set_downloadLocks f w)) ->
  respects R (fetchSong cfg host session song cacheEntry fmt compress).
Proof.
  intros Hlocks.
  assert (Hmod : forall f, respects R (modify (set_downloadLocks f))).
  { intros f. apply respects_modify. intros w. apply Hlocks. }
  unfold fetchSong.
  apply respects_bind; [repeat frame_step|].
  intros [urlInfo|]; [|repeat frame_step].
  destruct (decide (su_url urlInfo = "")); [repeat frame_step|]. cbv zeta.
  destruct (decide (sanitizeId (sr_id song) = "")); [repeat frame_step|].
  apply respects_bind; [apply respects_read; apply _|]. intros [|]; [repeat frame_step|].
  destruct (negb _); [repeat frame_step|].
  apply respects_bind; [repeat frame_step|intros _].
  apply respects_bind; [apply Hmod|intros _].
  apply respects_try_finally; [|apply Hmod].
  apply respects_try_catch; [apply downloadAndCommit_frame|].
  intros _. repeat frame_step.
Qed.

Lemma handleSongRequest_frame cfg host session song fmt compress :
  (forall f w, R w (set_downloadLocks f w)) ->
  respects R (handleSongRequest cfg host session song fmt compress).
Proof.
  intros Hlocks. unfold handleSongRequest. apply respects_try_catch.
  - apply respects_bind; [apply cacheCheck_frame|].
    intros [cacheEntry|]; [by apply fetchSong_frame | apply respects_Ret].
  - intros e. apply onRequestError_frame.
Qed.

(** The command and the middleware also set timers and change the maps of
    the closure. *)
Context (Hlocks : forall f w, R w (set_downloadLocks f w)).
Context (Hlimiter : forall cfg s w, R w (checkRateLimit cfg s w).2).
Context (Htimer : forall key delay w, R w (setTimeout key delay w).2).

Lemma ncmget_frame cfg host s options keyword :
  (forall opened w, R w (set_searchSessions (insert (getSessionKey s) opened) w)) ->
  respects R (ncmget cfg host s options keyword).
Proof.
  intros Hsessions. unfold ncmget. destruct (decide (keyword = "")); [apply respects_Ret|].
  apply respects_bind.
  { apply respects_Sync; [apply Hlimiter|]. intros ?. apply respects_Ret. }
  intros allowed. destruct (negb allowed); [apply respects_Ret|]. cbv zeta.
  destruct (decide (_ = "")); [apply respects_Ret|].
  apply respects_bind; [apply respects_read; apply _|]. intros ffmpeg.
  destruct (_ && _); [apply respects_Ret|].
  apply respects_try_catch.
  - apply respects_bind; [apply respects_await; intros ?; apply Hperform|].
    intros [|song [|song' results]].
    + apply respects_Ret.
    + apply respects_bind; [by apply handleSongRequest_frame|]. intros _. apply respects_Ret.
    + apply respects_bind; [apply respects_await; intros ?; apply Hperform|]. intros _.
      apply respects_bind.
      { apply respects_Sync; [apply Htimer|]. intros ?. apply respects_Ret. }
      intros timeout.
      apply respects_bind; [apply respects_modify; intros ?; apply Hsessions|].
      intros _. apply respects_Ret.
  - intros e. apply respects_bind; [apply respects_modify; intros ?; apply Hemit|].
    intros _. apply respects_Ret.
Qed.

Lemma middleware_frame cfg host s :
  (forall w, R w (clearSearchSession (getSessionKey s) w)) ->
  respects R (middleware cfg host s).
Proof.
  intros Hclear. unfold middleware. cbv zeta.
  apply respects_bind; [apply respects_read; apply _|].
  intros [searchSession|]; [|apply respects_Ret].
  destruct (truthyText _) as [input|]; [|apply respects_Ret].
  destruct (negb _); [apply respects_Ret|].
  destruct (parseInt input) as [n|]; [|apply respects_Ret].
  destruct (_ =? _).
  - apply respects_bind; [apply respects_modify; intros ?; apply Hclear|]. intros _.
    apply respects_bind; [apply respects_await; intros ?; apply Hperform|]. intros _.
    apply respects_Ret.
  - destruct (_ && _); [|apply respects_Ret].
    apply respects_bind; [apply respects_modify; intros ?; apply Hclear|]. intros _.
    apply respects_bind; [|intros _; apply respects_Ret].
    destruct (_ !! _); [by apply handleSongRequest_frame|apply respects_Ret].
Qed.
End Frame.
(** ** The download lock is given back *)

Lemma perform_downloadLocks {X} (op : Op X) w :
  downloadLocks (perform op w).2 = downloadLocks w.
Proof.
  destruct op; simpl; try reflexivity;
    repeat match goal with
    | |- context [decide ?P] => destruct (decide P); simpl
    | |- context [hasRow ?i ?t] => destruct (hasRow i t); simpl
    | |- context [dupPolicy ?e] => destruct (dupPolicy e); simpl
    | |- context [keyPolicy ?e] => destruct (keyPolicy e); simpl
    | |- context [hasFfmpeg ?e && ?b] => destruct (hasFfmpeg e && b); simpl
    | namesKey : bool |- _ => destruct namesKey; simpl
    end; reflexivity.
Qed.

#[local] Instance sameLocks_refl : Reflexive sameLocks.
Proof. by intros w. Qed.

#[local] Instance sameLocks_trans : Transitive sameLocks.
Proof. unfold sameLocks. intros w1 w2 w3 H12 H23. by rewrite H23. Qed.

Lemma sameLocks_perform X (op : Op X) w : sameLocks w (perform op w).2.
Proof. apply perform_downloadLocks. Qed.

Lemma sameLocks_emit e w : sameLocks w (emit e w).
Proof. reflexivity. Qed.

Lemma run_send session m w :
  run (send session m) w = (Ok tt, emit (ESent (getSessionKey session) m) w).
Proof. reflexivity. Qed.

Lemma run_logger level what w :
  run (logger level what) w = (Ok tt, emit (ELogged level what) w).
Proof. reflexivity. Qed.

Lemma downloadAttempt_locks cfg host session song cacheEntry urlInfo savePath fmt compress :
  respects sameLocks
    (try_catch
       (downloadAndCommit cfg host session song cacheEntry urlInfo savePath fmt compress)
       (fun _ =>
          logger LError "获取歌曲失败";;
          send session (Text "commands.ncmget.messages.download-error"))).
Proof.
  apply respects_try_catch.
  - apply downloadAndCommit_frame; [apply _|apply sameLocks_perform|apply sameLocks_emit].
  - intros _. apply respects_bind.
    + apply respects_modify. intros w. apply sameLocks_emit.
    + intros _. apply respects_await. intros w. apply sameLocks_perform.
Qed.

Lemma fetchSong_locks cfg host session song cacheEntry fmt compress w :
  downloadLocks (run (fetchSong cfg host session song cacheEntry fmt compress) w).2
  = downloadLocks w.
Proof.
  unfold fetchSong. rewrite run_bind, run_await. cbn [perform].
  destruct (remoteUrl (env w) (sr_id song)) as [[u|]|e]; [|reflexivity|reflexivity].
  destruct (decide (su_url u = "")); [reflexivity|]. cbv zeta.
  destruct (decide (sanitizeId (sr_id song) = "")); [reflexivity|].
  rewrite run_bind, run_read.
  destruct (bool_decide _) eqn:Hlocked; [reflexivity|].
  apply bool_decide_eq_false in Hlocked. cbn [downloadLocks emit] in Hlocked.
  destruct (negb _); [reflexivity|].
  rewrite run_bind, run_send, run_bind, run_modify, run_try_finally.
  match goal with |- context [run (try_catch ?p ?h) ?w3] =>
    pose proof (respects_run sameLocks (try_catch p h)
                  (downloadAttempt_locks cfg host session song cacheEntry u _ fmt compress) w3)
      as Hinner;
    destruct (run (try_catch p h) w3) as [r w4]
  end.
  unfold sameLocks in Hinner. cbn [snd] in Hinner. rewrite run_modify.
  cbn [fst snd downloadLocks set_downloadLocks emit] in *.
  rewrite Hinner. apply leibniz_equiv. intros x.
  rewrite elem_of_difference, elem_of_union, elem_of_singleton. split.
  - by intros [[->|Hx] Hne].
  - intros Hx. split; [by right|]. by intros ->.
Qed.

Lemma handleSongRequest_returns cfg host session song fmt compress w :
  (run (handleSongRequest cfg host session song fmt compress) w).1 = Ok tt.
Proof.
  unfold handleSongRequest. rewrite run_try_catch.
  destruct (run _ w) as [[[]|e] w1]; reflexivity.
Qed.

(** X4.  A song request that runs with no other request in between never
    rejects, and when it has returned the set of
    download locks is what it was before: whatever fails on the way (the
    database, the remote, the download, the disk, the insert), the lock taken
    for the download has been given back. *)
Theorem handleSongRequest_releases_lock cfg host session song fmt compress w :
  (run (handleSongRequest cfg host session song fmt compress) w).1 = Ok tt
  /\ downloadLocks (run (handleSongRequest cfg host session song fmt compress) w).2
     = downloadLocks w.
Proof.
  split; [apply handleSongRequest_returns|].
  unfold handleSongRequest. rewrite run_try_catch, run_bind.
  assert (Hframe : respects sameLocks (cacheCheck cfg host session song fmt compress)).
  { apply cacheCheck_frame; [apply _|apply sameLocks_perform|apply sameLocks_emit]. }
  pose proof (respects_run sameLocks _ Hframe w) as Hcheck.
  destruct (run (cacheCheck cfg host session song fmt compress) w) as [[[cacheEntry|]|e] w1];
    unfold sameLocks in Hcheck; cbn [snd] in Hcheck.
  - pose proof (fetchSong_locks cfg host session song cacheEntry fmt compress w1) as Hfetch.
    destruct (run (fetchSong cfg host session song cacheEntry fmt compress) w1) as [[[]|e] w2];
      cbn [snd] in *; [congruence|].
    unfold onRequestError. simpl. congruence.
  - exact Hcheck.
  - unfold onRequestError. simpl. exact Hcheck.
Qed.
(** ** Every song request is answered *)

#[local] Instance logGrows_refl : Reflexive logGrows.
Proof. intros w. unfold logGrows. done. Qed.

#[local] Instance logGrows_trans : Transitive logGrows.
Proof. unfold logGrows. intros w1 w2 w3 H12 H23. by etrans. Qed.

Lemma logGrows_emit e w : logGrows w (emit e w).
Proof. by apply prefix_app_r. Qed.

Lemma logGrows_perform X (op : Op X) w : logGrows w (perform op w).2.
Proof.
  unfold logGrows.
  destruct op; simpl; try reflexivity;
    repeat match goal with
    | |- context [decide ?P] => destruct (decide P); simpl
    | |- context [hasRow ?i ?t] => destruct (hasRow i t); simpl
    | |- context [dupPolicy ?e] => destruct (dupPolicy e); simpl
    | |- context [keyPolicy ?e] => destruct (keyPolicy e); simpl
    | |- context [hasFfmpeg ?e && ?b] => destruct (hasFfmpeg e && b); simpl
    | namesKey : bool |- _ => destruct namesKey; simpl
    end; try reflexivity; by apply prefix_app_r.
Qed.

Lemma logGrows_locks f w : logGrows w (set_downloadLocks f w).
Proof. unfold logGrows. reflexivity. Qed.

Lemma respects_inv R {A} (p : Prog A) :
  respects R p ->
  match p with
  | Sync f k => (forall w, R w (f w).2) /\ forall x, respects R (k x)
  | Await op k => (forall w, R w (perform op w).2) /\ forall r, respects R (k r)
  | _ => True
  end.
Proof. by intros [a|e|X f k Hf Hk|X op k Hop Hk]. Qed.

Lemma answered_after s w w1 w' : logGrows w w1 -> answered s w1 w' -> answered s w w'.
Proof.
  intros [new Hnew] (before & m & after & Hlog).
  exists (new ++ before), m, after. by rewrite Hlog, Hnew, <- !app_assoc.
Qed.

Lemma answered_before s w w1 w' : answered s w w1 -> logGrows w1 w' -> answered s w w'.
Proof.
  intros (before & m & after & Hlog) [new Hnew].
  exists before, m, (after ++ new). rewrite Hnew, Hlog, <- !app_assoc. done.
Qed.

Section Answers.
Context (s : Session).

Lemma answers_mono {A} (Q Q' : A -> Prop) (T T' : Prop) (p : Prog A) :
  (forall a, Q a -> Q' a) -> (T -> T') -> answers s Q T p -> answers s Q' T' p.
Proof.
  intros HQ HT. induction p as [a|e|X f k IH|X op k IH]; simpl; auto.
  intros [Hsend|Hk]; [by left|right; auto].
Qed.

Lemma answers_bind {A B} (Q : A -> Prop) (Q' : B -> Prop) (T : Prop)
    (p : Prog A) (f : A -> Prog B) :
  answers s Q T p -> (forall a, Q a -> answers s Q' T (f a)) ->
  answers s Q' T (p ≫= f).
Proof.
  unfold mbind, Prog_bind. intros Hp Hf.
  induction p as [a|e|X g k IH|X op k IH]; simpl in *; auto.
  destruct Hp as [Hsend|Hk]; [by left|right; auto].
Qed.

Lemma answers_try_catch {A} (Q : A -> Prop) (T T' : Prop) (p : Prog A) (h : exn -> Prog A) :
  answers s Q T' p -> (forall e, T' -> answers s Q T (h e)) ->
  answers s Q T (try_catch p h).
Proof.
  intros Hp Hh. induction p as [a|e|X g k IH|X op k IH]; simpl in *; auto.
  destruct Hp as [Hsend|Hk]; [by left|right; auto].
Qed.

Lemma answers_try_finally {A} (Q : A -> Prop) (T : Prop) (p : Prog A) (q : Prog unit) :
  answers s Q T p -> answers s (fun _ => True) T q ->
  answers s Q T (try_finally p q).
Proof.
  intros Hp Hq. induction p as [a|e|X g k IH|X op k IH]; simpl in *; auto.
  - apply (answers_bind (fun _ => True)); [done|]. by intros _ _.
  - apply (answers_bind (fun _ => True)); [done|]. by intros _ _.
  - destruct Hp as [Hsend|Hk]; [by left|right; auto].
Qed.

Lemma answers_send {A} (Q : A -> Prop) (T : Prop) m (f : unit -> Prog A) :
  answers s Q T (send s m ≫= f).
Proof. by left. Qed.

Lemma answers_send_last (Q : unit -> Prop) (T : Prop) m : answers s Q T (send s m).
Proof. by left. Qed.

(** A program that may do anything before it returns or throws. *)
Lemma answers_any {A} (p : Prog A) : answers s (fun _ => True) True p.
Proof. induction p as [a|e|X g k IH|X op k IH]; simpl; auto. Qed.

Lemma answers_logged {A} (Q : A -> Prop) (T : Prop) level what (f : unit -> Prog A) :
  answers s Q T (f tt) -> answers s Q T (logger level what ≫= f).
Proof. intros Hf []. exact Hf. Qed.

Lemma answers_run {A} (Q : A -> Prop) (T : Prop) (p : Prog A) :
  respects logGrows p -> answers s Q T p -> forall w,
  answered s w (run p w).2
  \/ match (run p w).1 with Ok a => Q a | Err _ => T end.
Proof.
  induction p as [a|e|X f k IH|X op k IH]; intros Hgrow Hp w; simpl in *.
  - by right.
  - by right.
  - apply respects_inv in Hgrow as [Hf Hk]. specialize (Hf w).
    destruct (f w) as [x w1]. simpl in Hf.
    destruct (IH x (Hk x) (Hp x) w1) as [Hsent|Hend]; [left|by right].
    by eapply answered_after.
  - apply respects_inv in Hgrow as [Hop Hk]. specialize (Hop w).
    destruct Hp as [Hsend|Hp].
    + left. destruct op; try done. simpl in Hsend. subst s0. simpl.
      pose proof (respects_run logGrows _ (Hk (Ok tt))
                    (emit (ESent (getSessionKey s) m) w)) as Hrest.
      eapply answered_before; [|exact Hrest].
      exists [], m, []. reflexivity.
    + destruct (perform op w) as [r w1]. simpl in Hop.
      destruct (IH r (Hk r) (Hp r) w1) as [Hsent|Hend]; [left|by right].
      by eapply answered_after.
Qed.

Lemma sendCachedSong_answers cfg host cache fmt compress :
  answers s (fun _ => False) False (sendCachedSong cfg host s cache fmt compress).
Proof.
  unfold sendCachedSong.
  apply (answers_try_catch _ _ True); [|intros e _; apply answers_logged, answers_send_last].
  destruct (truthy (mc_cachePath cache)) as [p|]; [|done]. cbv zeta.
  apply (answers_bind (fun _ => True)); [apply answers_any|]. intros ffmpeg _.
  apply (answers_bind (fun _ => True)); [apply answers_any|]. intros paths _.
  apply (answers_bind (fun _ => True)); [apply answers_any|]. intros src _.
  destruct (if compress then _ else _); by left.
Qed.

Lemma cacheCheck_answers cfg host song fmt compress :
  answers s (fun checked => checked ≠ None) True (cacheCheck cfg host s song fmt compress).
Proof.
  unfold cacheCheck.
  apply (answers_bind (fun _ => True)); [apply answers_any|]. intros cache _. cbv zeta.
  destruct (head cache) as [entry|]; [|done].
  destruct (mc_cached entry); [|done].
  destruct (truthy (mc_cachePath entry)); [|done].
  apply (answers_try_catch _ _ True).
  - apply (answers_bind (fun _ => True)); [apply answers_any|]. intros _ _.
    apply (answers_bind (fun _ => False)); [|done].
    eapply answers_mono; [| |apply sendCachedSong_answers]; done.
  - intros e _. apply (answers_bind (fun _ => True)); [apply answers_any|]. by intros _ _.
Qed.

Lemma fetchSong_answers cfg host song cacheEntry fmt compress :
  answers s (fun _ => False) True (fetchSong cfg host s song cacheEntry fmt compress).
Proof.
  unfold fetchSong.
  apply (answers_bind (fun _ => True)); [apply answers_any|].
  intros [urlInfo|] _; [|by left].
  destruct (decide (su_url urlInfo = "")); [by left|]. cbv zeta.
  destruct (decide (sanitizeId (sr_id song) = "")); [apply answers_logged; by left|].
  apply (answers_bind (fun _ => True)); [apply answers_any|].
  intros [|] _; [by left|].
  destruct (negb _); [apply answers_logged; by left|by left].
Qed.

Lemma handleSongRequest_answers cfg host song fmt compress :
  answers s (fun _ => False) False (handleSongRequest cfg host s song fmt compress).
Proof.
  unfold handleSongRequest, onRequestError.
  apply (answers_try_catch _ _ True); [|intros e _; apply answers_logged; by left].
  eapply answers_bind; [apply cacheCheck_answers|].
  intros [cacheEntry|] Hchecked; [apply fetchSong_answers|done].
Qed.
End Answers.

Lemma handleSongRequest_answered cfg host session song fmt compress w :
  answered session w (run (handleSongRequest cfg host session song fmt compress) w).2.
Proof.
  destruct (answers_run session (fun _ => False) False
              (handleSongRequest cfg host session song fmt compress)) with (w := w)
    as [Hsent|Hend].
  - apply handleSongRequest_frame;
      [apply _|apply logGrows_perform|apply logGrows_emit|apply logGrows_locks].
  - apply handleSongRequest_answers.
  - exact Hsent.
  - by destruct (run _ w).1.
Qed.

(** X5.  Whatever happens to a song request, the requester is told: between
    the call and the return of [handleSongRequest] at least one message (the
    song, a notice or an error text) is sent on the requester's session. *)
Theorem song_request_is_answered cfg host session song fmt compress w :
  answered session w (run (handleSongRequest cfg host session song fmt compress) w).2.
Proof. apply handleSongRequest_answered. Qed.
(** ** The periodic sweep of the limiter *)

Lemma checkRateLimit_swept cfg s t T swept kept :
  0 <= rateLimitInterval cfg -> 0 <= T <= t ->
  sweptOf cfg T swept kept -> stampsFromEpoch kept ->
  (checkRateLimit cfg s (set_now t swept)).1 = (checkRateLimit cfg s (set_now t kept)).1
  /\ sweptOf cfg t (checkRateLimit cfg s (set_now t swept)).2
                   (checkRateLimit cfg s (set_now t kept)).2
  /\ stampsFromEpoch (checkRateLimit cfg s (set_now t kept)).2.
Proof.
  intros Hinterval Htime Hswept Hstamps.
  assert (Hlater : sweptOf cfg t swept kept).
  { intros key. destruct (Hswept key) as [Hsame|(Hnone & t0 & Hkept & Hold)]; [by left|].
    right. split; [done|]. exists t0. split; [done|]. lia. }
  unfold checkRateLimit. destruct (negb (rateLimitEnabled cfg)); [done|].
  cbv zeta. simpl now. simpl rateLimitMap.
  assert (Hverdict :
    (t - default 0 (rateLimitMap swept !! limiterKey cfg s) <? rateLimitInterval cfg * 1000)
    = (t - default 0 (rateLimitMap kept !! limiterKey cfg s) <? rateLimitInterval cfg * 1000)).
  { destruct (Hswept (limiterKey cfg s)) as [->|(-> & t0 & Hkept & Hold)]; [done|].
    pose proof (Hstamps _ _ Hkept). rewrite Hkept.
    simpl. destruct (Z.ltb_spec (t - 0) (rateLimitInterval cfg * 1000)),
                    (Z.ltb_spec (t - t0) (rateLimitInterval cfg * 1000)); try done; lia. }
  rewrite Hverdict. clear Hverdict. destruct (_ <? _); simpl;
    [split_and!; [done|exact Hlater|exact Hstamps]|].
  split_and!; [done| |].
  - intros key. simpl rateLimitMap.
    destruct (decide (key = limiterKey cfg s)) as [->|Hother].
    + left. by rewrite !lookup_insert_eq.
    + rewrite !lookup_insert_ne by done. apply Hlater.
  - intros key t0. simpl rateLimitMap.
    destruct (decide (key = limiterKey cfg s)) as [->|Hother].
    + rewrite lookup_insert_eq. intros [= <-]. lia.
    + rewrite lookup_insert_ne by done. apply Hstamps.
Qed.

Lemma rateLimitCleanup_swept cfg t T swept kept :
  0 <= T <= t -> sweptOf cfg T swept kept ->
  sweptOf cfg t (rateLimitCleanup cfg (set_now t swept)) kept.
Proof.
  intros Htime Hswept key. unfold rateLimitCleanup. simpl now. simpl rateLimitMap.
  destruct (Hswept key) as [Hsame|(Hnone & t0 & Hkept & Hold)].
  - destruct (rateLimitMap kept !! key) as [t0|] eqn:Hkept.
    + destruct (decide (t - t0 > rateLimitInterval cfg * 1000 * 10)) as [Hold|Hfresh].
      * right. split; [|by exists t0].
        apply map_lookup_filter_None. right. intros t' Ht'.
        rewrite Hsame in Ht'. injection Ht' as <-. simpl. tauto.
      * left. by apply map_lookup_filter_Some_2.
    + left. apply map_lookup_filter_None. by left.
  - right. split; [apply map_lookup_filter_None; by left|].
    exists t0. split; [done|lia].
Qed.

Lemma replaySwept_verdicts cfg events : forall T swept kept,
  0 <= rateLimitInterval cfg -> 0 <= T ->
  Sorted Z.le (T :: (eventTime <$> events)) ->
  sweptOf cfg T swept kept -> stampsFromEpoch kept ->
  (replaySwept cfg events swept).1 = (replay cfg (callsOf events) kept).1.
Proof.
  induction events as [|[s t|t] events IH];
    intros T swept kept Hinterval HT Hsorted Hswept Hstamps; [reflexivity| |].
  - rewrite fmap_cons in Hsorted. simpl eventTime in Hsorted.
    apply Sorted_inv in Hsorted as [Hsorted Hle]. apply HdRel_inv in Hle.
    destruct (checkRateLimit_swept cfg s t T swept kept) as (Hok & Hswept' & Hstamps');
      [done|lia|done|done|].
    change (callsOf (Call s t :: events)) with ((s, t) :: callsOf events).
    simpl.
    destruct (checkRateLimit cfg s (set_now t swept)) as [ok1 swept'].
    destruct (checkRateLimit cfg s (set_now t kept)) as [ok2 kept'].
    simpl in Hok, Hswept', Hstamps'. subst ok2.
    specialize (IH t swept' kept' Hinterval ltac:(lia) Hsorted Hswept' Hstamps').
    destruct (replaySwept cfg events swept') as [oks1 w1].
    destruct (replay cfg (callsOf events) kept') as [oks2 w2].
    simpl in IH. by subst oks2.
  - rewrite fmap_cons in Hsorted. simpl eventTime in Hsorted.
    apply Sorted_inv in Hsorted as [Hsorted Hle]. apply HdRel_inv in Hle.
    change (callsOf (Sweep t :: events)) with (callsOf events). simpl.
    apply (IH t); [done|lia|done| |done].
    by apply (rateLimitCleanup_swept cfg t T).
Qed.

(** X6.  The periodic sweep of the limiter map is invisible: on a clock that
    starts at or after the epoch and never runs backwards, the calls of a
    history get the same verdicts from [checkRateLimit] whether or not the
    sweep ran in between, any number of times and at any moments. *)
Theorem sweep_never_changes_a_verdict cfg events w :
  0 <= rateLimitInterval cfg ->
  stampsFromEpoch w ->
  Sorted Z.le (0 :: (eventTime <$> events)) ->
  (replaySwept cfg events w).1 = (replay cfg (callsOf events) w).1.
Proof.
  intros Hinterval Hstamps Hsorted.
  apply (replaySwept_verdicts cfg events 0 w w); [done|done|done| |done].
  intros key. by left.
Qed.

(** A call, a sweep five minutes later that drops its timestamp, and two
    calls after it: accepted, accepted, rejected. *)
Lemma sweep_never_changes_a_verdict_witness :
  let events := [Call alice 1700000000000; Sweep 1700000300000;
                 Call alice 1700000300500; Call alice 1700000301000] in
  rateLimitMap (rateLimitCleanup sampleConfig
                  (set_now 1700000300000 (replay sampleConfig [(alice, 1700000000000)] emptyWorld).2))
    = ∅
  /\ (replaySwept sampleConfig events emptyWorld).1 = [true; true; false]
  /\ (replaySwept sampleConfig events emptyWorld).1
     = (replay sampleConfig (callsOf events) emptyWorld).1.
Proof.
  cbv zeta. split; [by vm_compute|]. split; [by vm_compute|].
  apply (sweep_never_changes_a_verdict sampleConfig).
  - vm_compute. discriminate.
  - intros key t Hstored. simpl in Hstored. by rewrite lookup_empty in Hstored.
  - repeat (constructor; [|constructor; vm_compute; discriminate]). constructor.
Defined.
(** ** Selection sessions and their timers *)

#[local] Instance sameSessions_refl : Reflexive sameSessions.
Proof. by intros w. Qed.

#[local] Instance sameSessions_trans : Transitive sameSessions.
Proof.
  intros w1 w2 w3 (Hs12 & Ht12 & Hn12) (Hs23 & Ht23 & Hn23).
  split_and!; congruence.
Qed.

Lemma sameSessions_perform X (op : Op X) w : sameSessions w (perform op w).2.
Proof.
  destruct op; simpl; try done;
    repeat match goal with
    | |- context [decide ?P] => destruct (decide P); simpl
    | |- context [hasRow ?i ?t] => destruct (hasRow i t); simpl
    | |- context [dupPolicy ?e] => destruct (dupPolicy e); simpl
    | |- context [keyPolicy ?e] => destruct (keyPolicy e); simpl
    | |- context [hasFfmpeg ?e && ?b] => destruct (hasFfmpeg e && b); simpl
    | namesKey : bool |- _ => destruct namesKey; simpl
    end; done.
Qed.

Lemma sameSessions_timed w w' : sameSessions w w' -> sessionsTimed w -> sessionsTimed w'.
Proof.
  intros (Hs & Ht & Hn) [Hopen Hfresh]. unfold sessionsTimed.
  rewrite Hs, Ht, Hn. done.
Qed.

Section Keeps.
Context (I : World -> Prop).

Lemma keeps_ret {A} (a : A) : keeps I (mret a).
Proof. by intros w. Qed.

Lemma keeps_bind {A B} (p : Prog A) (f : A -> Prog B) :
  keeps I p -> (forall a, keeps I (f a)) -> keeps I (p ≫= f).
Proof.
  intros Hp Hf w Hw. rewrite run_bind. specialize (Hp w Hw).
  destruct (run p w) as [[a|e] w1]; [by apply Hf|done].
Qed.

Lemma keeps_try_catch {A} (p : Prog A) (h : exn -> Prog A) :
  keeps I p -> (forall e, keeps I (h e)) -> keeps I (try_catch p h).
Proof.
  intros Hp Hh w Hw. rewrite run_try_catch. specialize (Hp w Hw).
  destruct (run p w) as [[a|e] w1]; [done|by apply Hh].
Qed.
End Keeps.

Lemma keeps_same {A} (p : Prog A) : respects sameSessions p -> keeps sessionsTimed p.
Proof.
  intros Hp w Hw. eapply sameSessions_timed; [|exact Hw].
  by apply respects_run; [apply _..|].
Qed.

Lemma handleSongRequest_timed cfg host session song fmt compress :
  keeps sessionsTimed (handleSongRequest cfg host session song fmt compress).
Proof.
  apply keeps_same, handleSongRequest_frame;
    [apply _|apply sameSessions_perform|done|done].
Qed.

Lemma clearSearchSession_timed key w :
  sessionsTimed w -> sessionsTimed (clearSearchSession key w).
Proof.
  intros [Hopen Hfresh]. unfold clearSearchSession.
  destruct (searchSessions w !! key) as [ss|] eqn:Hss; [|done].
  destruct (Hopen _ _ Hss) as [due Hdue]. split; simpl.
  - intros key' ss' Hss'. apply lookup_delete_Some in Hss' as [Hother Hss'].
    destruct (Hopen _ _ Hss') as [due' Hdue']. exists due'.
    rewrite lookup_delete_ne; [done|]. intros Hsame. congruence.
  - intros handle [x Hx]. apply lookup_delete_Some in Hx as [_ Hx]. by apply Hfresh.
Qed.

Lemma fireTimer_timed handle w w' :
  sessionsTimed w -> fireTimer handle w = Some w' -> sessionsTimed w'.
Proof.
  intros [Hopen Hfresh]. unfold fireTimer.
  destruct (timers w !! handle) as [[due key]|] eqn:Hpending; [|done].
  destruct (due <=? now w); [|done]. intros [= <-].
  unfold clearSearchSession. simpl searchSessions.
  destruct (searchSessions w !! key) as [ss|] eqn:Hss; split; simpl.
  - destruct (Hopen _ _ Hss) as [due0 Hdue0].
    intros key' ss' Hss'. apply lookup_delete_Some in Hss' as [Hother Hss'].
    destruct (Hopen _ _ Hss') as [due' Hdue']. exists due'.
    rewrite !lookup_delete_ne; [done| |]; intros Hsame; congruence.
  - intros h [x Hx]. apply lookup_delete_Some in Hx as [_ Hx].
    apply lookup_delete_Some in Hx as [_ Hx]. by apply Hfresh.
  - intros key' ss' Hss'. destruct (Hopen _ _ Hss') as [due' Hdue']. exists due'.
    rewrite lookup_delete_ne; [done|]. intros Hsame. congruence.
  - intros h [x Hx]. apply lookup_delete_Some in Hx as [_ Hx]. by apply Hfresh.
Qed.

Lemma checkRateLimit_timed cfg s : keeps sessionsTimed (sync (checkRateLimit cfg s)).
Proof.
  intros w Hw. rewrite run_sync. simpl.
  destruct (checkRateLimit_frame cfg s w) as (Hs & Ht & Hn & _).
  by apply (sameSessions_timed w).
Qed.

(** The last steps of a search with several candidates: the timer is set
    and the session is stored with its handle. *)
Lemma open_session_timed cfg key results fmt compress :
  keeps sessionsTimed
    (timeout ← sync (setTimeout key (searchTimeout cfg * 1000));
     modify (set_searchSessions (insert key
       {| ss_results := results; ss_timeout := timeout;
          ss_sendFormat := fmt; ss_compress := compress |}));;
     mret (@None Msg)).
Proof.
  intros w [Hopen Hfresh]. rewrite run_bind, run_sync. simpl.
  split; simpl.
  - intros key' ss' Hss'. apply lookup_insert_Some in Hss' as [[<- <-]|[Hother Hss']].
    + simpl. rewrite lookup_insert_eq. by eexists.
    + destruct (Hopen _ _ Hss') as [due' Hdue']. exists due'.
      rewrite lookup_insert_ne; [done|]. intros Hsame.
      assert (ss_timeout ss' < nextTimer w)%nat by (apply Hfresh; by eexists). lia.
  - intros h [x Hx]. apply lookup_insert_Some in Hx as [[<- _]|[_ Hx]]; [lia|].
    assert (h < nextTimer w)%nat by (apply Hfresh; by eexists). lia.
Qed.

Lemma ncmget_timed cfg host s options keyword :
  keeps sessionsTimed (ncmget cfg host s options keyword).
Proof.
  unfold ncmget. destruct (decide (keyword = "")); [apply keeps_ret|].
  apply keeps_bind; [apply checkRateLimit_timed|]. intros allowed.
  destruct (negb allowed); [apply keeps_ret|]. cbv zeta.
  destruct (decide (_ = "")); [apply keeps_ret|].
  apply keeps_bind; [by intros w|]. intros ffmpeg.
  destruct (_ && _); [apply keeps_ret|].
  apply keeps_try_catch.
  - apply keeps_bind.
    { apply keeps_same, respects_await. intros w. apply sameSessions_perform. }
    intros [|song [|song' results]].
    + apply keeps_ret.
    + apply keeps_bind; [apply handleSongRequest_timed|]. intros _. apply keeps_ret.
    + apply keeps_bind.
      { apply keeps_same, respects_await. intros w. apply sameSessions_perform. }
      intros _. apply open_session_timed.
  - intros e. apply keeps_bind; [by intros w|]. intros _. apply keeps_ret.
Qed.

Lemma middleware_timed cfg host s : keeps sessionsTimed (middleware cfg host s).
Proof.
  unfold middleware. cbv zeta.
  apply keeps_bind; [by intros w|]. intros [searchSession|]; [|apply keeps_ret].
  destruct (truthyText _) as [input|]; [|apply keeps_ret].
  destruct (negb _); [apply keeps_ret|].
  destruct (parseInt input) as [n|]; [|apply keeps_ret].
  destruct (_ =? _).
  - apply keeps_bind; [intros w; apply clearSearchSession_timed|]. intros _.
    apply keeps_bind; [|intros _; apply keeps_ret].
    apply keeps_same, respects_await. intros w. apply sameSessions_perform.
  - destruct (_ && _); [|apply keeps_ret].
    apply keeps_bind; [intros w; apply clearSearchSession_timed|]. intros _.
    apply keeps_bind; [|intros _; apply keeps_ret].
    destruct (_ !! _); [apply handleSongRequest_timed|apply keeps_ret].
Qed.

Lemma react_timed cfg host w i : sessionsTimed w -> sessionsTimed (react cfg host w i).
Proof.
  intros Hw. destruct i as [s options keyword|s|handle| |t]; simpl.
  - by apply ncmget_timed.
  - by apply middleware_timed.
  - destruct (fireTimer handle w) as [w'|] eqn:Hfire; [|done].
    by apply (fireTimer_timed handle w).
  - done.
  - done.
Qed.

Lemma reactAll_timed cfg host inputs : forall w,
  sessionsTimed w -> sessionsTimed (foldl (react cfg host) w inputs).
Proof.
  induction inputs as [|i inputs IH]; intros w Hw; [done|].
  simpl. by apply IH, react_timed.
Qed.

(** X7.  However commands, messages, timers, sweeps and clock changes follow
    one another from a state in which every open selection session has its
    timer pending: a session that is open still has its timer pending under
    its own key; once that timer is due it fires, which closes the session;
    and a reply from the requester is then passed on with nothing changed. *)
Theorem open_session_expires cfg host inputs w0 key ss :
  sessionsTimed w0 ->
  let w := foldl (react cfg host) w0 inputs in
  searchSessions w !! key = Some ss ->
  exists due,
    timers w !! ss_timeout ss = Some (due, key)
    /\ forall t, due <= t ->
       exists w',
         fireTimer (ss_timeout ss) (set_now t w) = Some w'
         /\ searchSessions w' !! key = None
         /\ timers w' !! ss_timeout ss = None
         /\ forall s, getSessionKey s = key ->
              run (middleware cfg host s) w' = (Ok MwNext, w').
Proof.
  intros Hw0 w Hss.
  destruct (reactAll_timed cfg host inputs w0 Hw0) as [Hopen _].
  fold w in Hopen. clearbody w.
  destruct (Hopen key ss Hss) as [due Hdue]. exists due. split; [exact Hdue|].
  intros t Ht. unfold fireTimer. simpl timers. simpl now. rewrite Hdue.
  destruct (Z.leb_spec due t) as [_|]; [|lia]. eexists. split; [reflexivity|].
  unfold clearSearchSession. simpl searchSessions. rewrite Hss. simpl.
  rewrite !lookup_delete_eq. split_and!; [done|done|].
  intros s <-. unfold middleware. cbv zeta. by rewrite lookup_delete_eq.
Qed.

(** Alice's search opens a session; sixty seconds later its timer closes
    it. *)
Lemma open_session_expires_witness :
  exists ss due,
    searchSessions searchedOnce !! getSessionKey alice = Some ss
    /\ timers searchedOnce !! ss_timeout ss = Some (due, getSessionKey alice)
    /\ exists w',
         fireTimer (ss_timeout ss) (set_now (1700000000000 + 60000) searchedOnce) = Some w'
         /\ searchSessions w' !! getSessionKey alice = None.
Proof.
  destruct (searchSessions searchedOnce !! getSessionKey alice) as [ss|] eqn:Hss;
    [|vm_compute in Hss; discriminate].
  destruct (open_session_expires sampleConfig sampleHost
              [Command alice noOptions "song"] emptyWorld (getSessionKey alice) ss)
    as (due & Hdue & Hfires).
  - split; simpl; [intros key ss' Hnone|intros handle [x Hnone]];
      by rewrite lookup_empty in Hnone.
  - exact Hss.
  - exists ss, due. split; [reflexivity|]. split; [exact Hdue|].
    destruct (Hfires (1700000000000 + 60000)) as (w' & Hfire & Hgone & _).
    + assert (Hwhen : timers searchedOnce !! ss_timeout ss
                      = Some (1700000000000 + 30000, getSessionKey alice)).
      { revert Hss. vm_compute. intros [= <-]. reflexivity. }
      change (foldl _ _ _) with searchedOnce in Hdue. rewrite Hwhen in Hdue.
      injection Hdue as <-. lia.
    + by exists w'.
Defined.
(** ** A request served from the cache *)

(** X8.  A request for a song whose row is marked cached and whose blob
    exists is served from disk.  The remote is not asked, nothing is
    downloaded, written or recorded, and the table and the download locks
    are as before; what is sent is the blob, or its compressed copy when
    compression is asked for and ffmpeg is there, under the sanitized title
    [artist - name.mp3], as audio when compression is asked for and otherwise
    in the format forced by the command or, with none forced, the configured
    one. *)
Theorem cache_hit_is_served_from_disk cfg host session song fmt compress w entry p :
  nextGetFails w = false ->
  head (filter (fun c => matches (QId (sr_id song)) c = true) (table w)) = Some entry ->
  mc_cached entry = true ->
  truthy (mc_cachePath entry) = Some p ->
  p ∈ files w ->
  let outcome := run (handleSongRequest cfg host session song fmt compress) w in
  let key := getSessionKey session in
  let squeezed := compress && hasFfmpeg (env w) in
  let compressedPath :=
    path_resolve host
      [path_dirname host p; path_basename host p ".mp3" +:+ "_compressed.mp3"] in
  let filePath := if squeezed then compressedPath else p in
  let title :=
    sanitizeFilename host (mc_artist entry ++ lit " - " ++ mc_name entry) ++ lit ".mp3" in
  let payload src :=
    match (if compress then FmtAudio else default (sendFormat cfg) fmt) with
    | FmtAudio => Audio src title
    | FmtFile => FileMsg src title
    end in
  outcome.1 = Ok tt
  /\ table outcome.2 = table w
  /\ downloadLocks outcome.2 = downloadLocks w
  /\ exists src tidy,
       log outcome.2 =
         log w
         ++ (if squeezed then [ESent key (Text "commands.ncmget.messages.compressing")] else [])
         ++ [ESent key (payload src)] ++ tidy
       /\ (tidy = [] \/ squeezed = true /\ tidy = [EUnlinked compressedPath])
       /\ (onebot session = false -> src = pathToFileURL host filePath).
Proof.
  intros Hplan Hrow Hcached Hpath Hblob. cbv zeta.
  unfold handleSongRequest. rewrite run_try_catch, run_bind.
  unfold cacheCheck. rewrite run_bind, run_await. cbn [perform].
  rewrite Hplan. cbv beta iota zeta. rewrite Hrow, Hcached, Hpath.
  rewrite run_try_catch, run_bind, run_await. cbn [perform].
  rewrite decide_True by done. cbv beta iota zeta.
  rewrite run_bind.
  unfold sendCachedSong. rewrite Hpath. rewrite run_try_catch, run_bind, run_read.
  cbv beta iota zeta. simpl env.
  destruct compress, (hasFfmpeg (env w)) eqn:Hffmpeg, (onebot session) eqn:Honebot;
    try destruct (default (sendFormat cfg) fmt);
    simpl; rewrite ?Hffmpeg; simpl.
  all: repeat first
    [ rewrite bool_decide_eq_true_2 by done
    | rewrite decide_True by set_solver
    | progress simpl ].
  all: try match goal with
    | |- context [decide (?a ∈ ?s ∧ ?b ∉ ?u)] => destruct (decide (a ∈ s ∧ b ∉ u))
    end; simpl.
  all: split_and!; [done..|]; eexists _, _; split_and!;
    [ rewrite <- ?app_assoc; simpl; reflexivity
    | first [by left | by right]
    | first [done | by intros _] ].
Qed.

(** With the defaults and no compression the cached blob goes out as a
    file. *)
Lemma cache_hit_is_served_from_disk_witness :
  let outcome :=
    run (handleSongRequest sampleConfig sampleHost alice song42 None false) cachedWorld in
  outcome.1 = Ok tt
  /\ table outcome.2 = table cachedWorld
  /\ sentMessages (log outcome.2)
     = [FileMsg "file:///srv/data/ncm-cache/42.mp3" (lit "a - n.mp3")].
Proof.
  destruct (cache_hit_is_served_from_disk sampleConfig sampleHost alice song42 None false
              cachedWorld (rowOf "42" 200000 10) "/srv/data/ncm-cache/42.mp3")
    as (Hdone & Htable & _ & _).
  - reflexivity.
  - reflexivity.
  - reflexivity.
  - reflexivity.
  - simpl. set_solver.
  - cbv zeta. split; [exact Hdone|]. split; [exact Htable|]. by vm_compute.
Defined.
(** ** Unloading the plugin *)

Lemma clearAll_fields entries : forall w,
  let w' := foldl clearTimerOf w entries in
  searchSessions w' = searchSessions w /\ rateLimitMap w' = rateLimitMap w
  /\ downloadLocks w' = downloadLocks w /\ table w' = table w /\ files w' = files w
  /\ nextTimer w' = nextTimer w /\ now w' = now w /\ log w' = log w /\ env w' = env w
  /\ dbGetPlan w' = dbGetPlan w.
Proof.
  induction entries as [|entry entries IH]; intros w; [done|].
  simpl. destruct (IH (clearTimerOf w entry)) as
    (H1 & H2 & H3 & H4 & H5 & H6 & H7 & H8 & H9 & H10).
  cbv zeta in *. by rewrite H1, H2, H3, H4, H5, H6, H7, H8, H9, H10.
Qed.

Lemma clearAll_timers (entries : list (string * SearchSession)) : forall w handle,
  timers (foldl clearTimerOf w entries) !! handle
  = if decide (handle ∈ (fun entry : string * SearchSession => ss_timeout entry.2) <$> entries) then None
    else timers w !! handle.
Proof.
  induction entries as [|entry entries IH]; intros w handle.
  - cbn [foldl fmap list_fmap].
    destruct (decide _) as [Hin|]; [by apply elem_of_nil in Hin|done].
  - simpl foldl. rewrite IH. rewrite fmap_cons.
    destruct (decide (handle ∈ _ <$> entries)) as [Hin|Hout].
    + rewrite decide_True; [done|]. by right.
    + simpl timers. destruct (decide (handle = ss_timeout entry.2)) as [->|Hother].
      * rewrite lookup_delete_eq. rewrite decide_True; [done|]. by left.
      * rewrite lookup_delete_ne by done. rewrite decide_False; [done|].
        intros Hin. apply elem_of_cons in Hin as [?|?]; done.
Qed.

(** X9.  When the plugin is unloaded no selection session is left and the
    timer of every session that was open is cleared, while every other
    pending timer stays; a message that comes afterwards is passed on, and a
    timer that still fires afterwards only leaves the set of pending timers.
    The limiter's timestamps, the download locks, the table, the files and
    the log are as they were. *)
Theorem dispose_closes_every_session cfg host w :
  searchSessions (dispose w) = ∅
  /\ (forall key ss, searchSessions w !! key = Some ss ->
        timers (dispose w) !! ss_timeout ss = None)
  /\ (forall handle,
        (forall key ss, searchSessions w !! key = Some ss -> ss_timeout ss ≠ handle) ->
        timers (dispose w) !! handle = timers w !! handle)
  /\ (forall s, run (middleware cfg host s) (dispose w) = (Ok MwNext, dispose w))
  /\ (forall handle w', fireTimer handle (dispose w) = Some w' ->
        w' = set_timers (delete handle) (dispose w))
  /\ (rateLimitMap (dispose w) = rateLimitMap w
      /\ downloadLocks (dispose w) = downloadLocks w
      /\ table (dispose w) = table w /\ files (dispose w) = files w
      /\ log (dispose w) = log w).
Proof.
  unfold dispose. split_and!; try (simpl; apply clearAll_fields).
  - reflexivity.
  - intros key ss Hss. simpl timers. rewrite clearAll_timers.
    rewrite decide_True; [done|].
    apply list_elem_of_fmap. exists (key, ss). split; [done|].
    by apply elem_of_map_to_list.
  - intros handle Hfree. simpl timers. rewrite clearAll_timers.
    rewrite decide_False; [done|].
    intros Hin. apply list_elem_of_fmap in Hin as ([key ss] & Hhandle & Hentry).
    apply elem_of_map_to_list in Hentry. by apply (Hfree key ss).
  - intros s. unfold middleware. cbv zeta. rewrite run_bind, run_read. simpl.
    by rewrite lookup_empty.
  - intros handle w'. unfold fireTimer.
    destruct (timers _ !! handle) as [[due key]|]; [|done].
    destruct (due <=? _); [|done]. intros [= <-].
    unfold clearSearchSession. simpl searchSessions. by rewrite lookup_empty.
Qed.
(** ** Every command is answered *)

Lemma logGrows_same w w' : log w' = log w -> logGrows w w'.
Proof. intros Hlog. unfold logGrows. by rewrite Hlog. Qed.

Lemma checkRateLimit_log cfg s w : log (checkRateLimit cfg s w).2 = log w.
Proof.
  unfold checkRateLimit. destruct (negb _); [done|]. cbv zeta. by destruct (_ <? _).
Qed.

Lemma checkRateLimit_rejects cfg s w :
  (checkRateLimit cfg s w).1 = false -> (checkRateLimit cfg s w).2 = w.
Proof.
  unfold checkRateLimit. destruct (negb _); [done|]. cbv zeta. by destruct (_ <? _).
Qed.

Lemma clearSearchSession_log key w : log (clearSearchSession key w) = log w.
Proof. unfold clearSearchSession. by destruct (_ !! _). Qed.

Lemma ncmget_logGrows cfg host s options keyword :
  respects logGrows (ncmget cfg host s options keyword).
Proof.
  apply ncmget_frame.
  - apply _.
  - apply logGrows_perform.
  - apply logGrows_emit.
  - apply logGrows_locks.
  - intros cfg' s' w. apply logGrows_same, checkRateLimit_log.
  - intros key delay w. by apply logGrows_same.
  - intros opened w. by apply logGrows_same.
Qed.

(** X10.  A command is never met with silence unless the limiter rejects
    it: [ncmget] either returns a text for the framework to reply with, or
    has sent a message on the requester's session by the time it returns, or
    was rejected by [checkRateLimit], in which case it returns nothing and
    has changed nothing. *)
Theorem command_is_answered cfg host s options keyword w :
  let outcome := run (ncmget cfg host s options keyword) w in
  (exists reply, outcome.1 = Ok (Some reply))
  \/ answered s w outcome.2
  \/ ((checkRateLimit cfg s w).1 = false /\ outcome = (Ok None, w)).
Proof.
  cbv zeta. pose proof (ncmget_logGrows cfg host s options keyword) as Hgrows.
  unfold ncmget in Hgrows |- *.
  destruct (decide (keyword = "")); [left; by eexists|].
  pose proof (proj2 (respects_inv logGrows _ Hgrows) true) as Hrest. clear Hgrows.
  rewrite run_bind, run_sync.
  pose proof (checkRateLimit_log cfg s w) as Hlog.
  pose proof (checkRateLimit_rejects cfg s w) as Hrejects.
  destruct (checkRateLimit cfg s w) as [allowed w1]. cbn [fst snd] in *.
  destruct allowed; cbn [negb]; cbv beta iota;
    [|right; right; by rewrite Hrejects].
  match goal with
  | |- context [run ?p w1] =>
      assert (Hanswers : answers s (fun r : option Msg => is_Some r) False p);
      [|assert (Hrun : answered s w1 (run p w1).2
                       \/ match (run p w1).1 with
                          | Ok r => is_Some r
                          | Err _ => False
                          end)
          by exact (answers_run s _ False _ Hrest Hanswers w1)]
  end.
  - cbv zeta. destruct (decide (_ = "")); [by eexists|].
    apply (answers_bind s (fun _ => True)); [by intros ?|]. intros ffmpeg _.
    destruct (_ && _); [by eexists|].
    apply (answers_try_catch s _ _ True).
    + apply (answers_bind s (fun _ => True)); [apply answers_any|].
      intros [|song [|song' results]] _.
      * by eexists.
      * apply (answers_bind s (fun _ => False)); [|done].
        eapply answers_mono; [| |apply handleSongRequest_answers]; done.
      * by left.
    + intros e _. apply answers_logged. by eexists.
  - clear Hrest Hanswers. destruct Hrun as [Hsent|Hend].
    + right; left. destruct Hsent as (before & m & after & Hsent).
      exists before, m, after. by rewrite Hsent, Hlog.
    + left. destruct (run _ w1).1 as [[reply|]|e]; [by eexists|by destruct Hend|done].
Qed.

(** X11.  The middleware never consumes a message in silence and never
    changes anything for a message it passes on: either the message goes to
    the next handler and the world is as it was, or it is consumed, and then
    the requester's selection session is closed and a message (the cancel
    notice, the song or an error text) has been sent on the requester's
    session. *)
Theorem reply_is_passed_on_or_answered cfg host s w :
  let outcome := run (middleware cfg host s) w in
  outcome = (Ok MwNext, w)
  \/ (outcome.1 = Ok MwHandled
      /\ searchSessions outcome.2 !! getSessionKey s = None
      /\ answered s w outcome.2).
Proof.
  cbv zeta. unfold middleware. cbv zeta. rewrite run_bind, run_read.
  destruct (searchSessions w !! getSessionKey s) as [ss|] eqn:Hss; [|by left].
  destruct (truthyText _) as [input|]; [|by left].
  destruct (negb _); [by left|].
  destruct (parseInt input) as [n|]; [|by left].
  pose proof (clearSearchSession_gone _ _ _ Hss) as [Hgone _].
  pose proof (clearSearchSession_log (getSessionKey s) w) as Hlog.
  destruct (_ =? _).
  - right. rewrite run_bind, run_modify. simpl. split_and!; [done|done|].
    exists [], (Text "commands.ncmget.messages.search-cancelled"), [].
    simpl. by rewrite Hlog.
  - destruct (andb _ _) eqn:Hrange; [|by left]. right.
    apply andb_true_iff in Hrange as [Hlow Hhigh].
    apply Z.leb_le in Hlow. apply Z.ltb_lt in Hhigh.
    destruct (lookup_lt_is_Some_2 (ss_results ss) (Z.to_nat (n - 1))) as [song Hsong]; [lia|].
    rewrite Hsong. rewrite run_bind, run_modify, run_bind.
    set (cleared := clearSearchSession (getSessionKey s) w) in *.
    pose proof (handleSongRequest_returns cfg host s song (ss_sendFormat ss)
                  (ss_compress ss) cleared) as Hreturns.
    pose proof (handleSongRequest_answered cfg host s song (ss_sendFormat ss)
                  (ss_compress ss) cleared) as Hsent.
    assert (Hsame : sameSessions cleared
              (run (handleSongRequest cfg host s song (ss_sendFormat ss) (ss_compress ss))
                 cleared).2).
    { apply respects_run; [apply _..|].
      apply handleSongRequest_frame; [apply _|apply sameSessions_perform|done|done]. }
    destruct (run (handleSongRequest _ _ _ _ _ _) cleared) as [[[]|e] w'];
      simpl in Hreturns, Hsent, Hsame |- *; [|done].
    split_and!; [done| |].
    + destruct Hsame as (-> & _). exact Hgone.
    + destruct Hsent as (before & m & after & Hsent).
      exists before, m, after. by rewrite Hsent, Hlog.
Qed.
(** ** The cookie store *)

Lemma split_first sep s : exists pieces, Cookies.split sep s = Cookies.upTo sep s :: pieces.
Proof.
  induction s as [|c s [pieces IH]]; [by exists []|]. simpl.
  destruct (c =? sep)%N; [by eexists|]. rewrite IH. by eexists.
Qed.

Lemma upTo_whole sep s : Forall (fun c => c ≠ sep) s -> Cookies.upTo sep s = s.
Proof.
  induction 1 as [|c s Hc Hs IH]; [done|]. simpl.
  destruct (N.eqb_spec c sep); [done|]. by rewrite IH.
Qed.

Lemma split_whole sep s : Forall (fun c => c ≠ sep) s -> Cookies.split sep s = [s].
Proof.
  induction 1 as [|c s Hc Hs IH]; [done|]. simpl.
  destruct (N.eqb_spec c sep); [done|]. by rewrite IH.
Qed.

Lemma split_app sep a b :
  Forall (fun c => c ≠ sep) a ->
  Cookies.split sep (a ++ sep :: b) = a :: Cookies.split sep b.
Proof.
  induction 1 as [|c a Hc Ha IH]; simpl.
  - by rewrite N.eqb_refl.
  - destruct (N.eqb_spec c sep); [done|]. by rewrite IH.
Qed.

Lemma trimStart_id s : from_option isSpace false (head s) = false -> trimStart s = s.
Proof. destruct s as [|c s]; [done|]. simpl. by intros ->. Qed.

Lemma trim_id s :
  from_option isSpace false (head s) = false ->
  from_option isSpace false (last s) = false ->
  trim s = s.
Proof.
  intros Hhead Hlast. unfold trim. rewrite (trimStart_id s) by done.
  rewrite trimStart_id; [apply reverse_involutive|].
  by rewrite head_reverse.
Qed.

Lemma assign_new key value store :
  key ∉ store.*1 -> Cookies.assign key value store = store ++ [(key, value)].
Proof.
  induction store as [|[k v] store IH]; intros Hnew; [done|]. simpl.
  rewrite fmap_cons in Hnew. apply not_elem_of_cons in Hnew as [Hk Hnew].
  rewrite decide_False by done. by rewrite IH.
Qed.

(** A written pair, as [addPair] reads it. *)
Lemma addPair_written store key value :
  Cookies.writableKey key -> Cookies.writableValue value -> key ∉ store.*1 ->
  Cookies.addPair store (key ++ [61%N] ++ value)
  = store ++ [(key, Cookies.upTo 61 value)]
  /\ Cookies.addPair store (32%N :: key ++ [61%N] ++ value)
     = store ++ [(key, Cookies.upTo 61 value)].
Proof.
  intros (Hkey & Hunits & Hhead & _) (Hvalue & _ & Hlast) Hnew.
  change ([61%N] ++ value) with (61%N :: value).
  assert (Htrim : trim (key ++ 61%N :: value) = key ++ 61%N :: value).
  { apply trim_id.
    - by destruct key.
    - rewrite last_app, last_cons. destruct (last value) eqn:Hv; [done|].
      apply last_None in Hv. subst value. by destruct Hvalue. }
  assert (Hread : Cookies.addPair store (key ++ 61%N :: value)
                  = store ++ [(key, Cookies.upTo 61 value)]).
  { unfold Cookies.addPair. rewrite Htrim.
    rewrite split_app by (eapply Forall_impl; [exact Hunits|]; by intros c [_ ?]).
    destruct (split_first 61 value) as [pieces ->].
    destruct key as [|c key]; [done|].
    destruct (Cookies.upTo 61 value) as [|d first]; [done|].
    by apply assign_new. }
  split; [exact Hread|].
  unfold Cookies.addPair in *. unfold trim in *. simpl trimStart. exact Hread.
Qed.

Lemma split_join first rest :
  Forall (Forall (fun c => c ≠ 59%N)) (first :: rest) ->
  Cookies.split 59 (Args.join (lit "; ") (first :: rest))
  = first :: ((fun item => 32%N :: item) <$> rest).
Proof.
  revert first. induction rest as [|item rest IH]; intros first Hitems.
  - apply Forall_cons in Hitems as [Hfirst _]. simpl. by apply split_whole.
  - apply Forall_cons in Hitems as [Hfirst Hitems].
    change (Args.join (lit "; ") (first :: item :: rest))
      with (first ++ 59%N :: 32%N :: Args.join (lit "; ") (item :: rest)).
    rewrite split_app by done.
    change (Cookies.split 59 (32%N :: ?s))
      with (match Cookies.split 59 s with
            | piece :: pieces => (32%N :: piece) :: pieces
            | [] => [[32%N]]
            end).
    by rewrite IH.
Qed.

Lemma foldl_addPair pieces pairs : forall store,
  Forall2 (fun piece (entry : jsString * jsString) =>
             piece = entry.1 ++ [61%N] ++ entry.2
             \/ piece = 32%N :: entry.1 ++ [61%N] ++ entry.2) pieces pairs ->
  Forall (fun entry => Cookies.writableKey entry.1 /\ Cookies.writableValue entry.2) pairs ->
  NoDup (store.*1 ++ pairs.*1) ->
  foldl Cookies.addPair store pieces
  = store ++ ((fun entry => (entry.1, Cookies.upTo 61 entry.2)) <$> pairs).
Proof.
  intros store Hpieces. revert store.
  induction Hpieces as [|piece [key value] pieces pairs Hpiece Hrest IH];
    intros store Hwritable Hkeys.
  - simpl. by rewrite app_nil_r.
  - apply Forall_cons in Hwritable as [[Hkey Hvalue] Hwritable].
    rewrite fmap_cons in Hkeys. simpl in Hkey, Hvalue, Hkeys, Hpiece.
    assert (Hnew : key ∉ store.*1).
    { apply NoDup_app in Hkeys as (_ & Hdisjoint & _).
      intros Hin. apply (Hdisjoint key Hin). by left. }
    destruct (addPair_written store key value Hkey Hvalue Hnew) as [Hplain Hspaced].
    simpl foldl.
    assert (Hadd : Cookies.addPair store piece = store ++ [(key, Cookies.upTo 61 value)])
      by (destruct Hpiece as [->| ->]; done).
    rewrite Hadd, IH; [|done|].
    + rewrite fmap_cons. simpl. by rewrite <- app_assoc.
    + rewrite fmap_app. simpl. rewrite <- app_assoc. exact Hkeys.
Qed.

Lemma startsWith_trim c s :
  from_option isSpace false (head s) = false ->
  Cookies.startsWith c (trim s) = true -> Cookies.startsWith c s = true.
Proof.
  intros Hhead. unfold trim. rewrite (trimStart_id s) by done.
  destruct (trimStart_suffix (reverse s)) as [k ->].
  rewrite drop_reverse, reverse_involutive.
  destruct s as [|x s]; [by rewrite take_nil|].
  by destruct (length (x :: s) - k)%nat.
Qed.

Lemma join_head sep (first : jsString) rest :
  first ≠ [] -> head (Args.join sep (first :: rest)) = head first.
Proof. destruct first as [|c first]; [done|]. by destruct rest. Qed.

(** X12.  A cookie setting written as [key=value] pairs joined by ["; "],
    which does not start with a bracket or a brace, with distinct keys, is
    read by [loadCookies] into exactly those pairs in that order, each value
    cut at its first [=]; so when no value holds a [=], [getCookieString]
    gives back the setting as it was written. *)
Theorem cookies_round_trip loadJson pairs :
  NoDup pairs.*1 ->
  Forall (fun entry => Cookies.writableKey entry.1 /\ Cookies.writableValue entry.2) pairs ->
  let cookie := Cookies.getCookieString pairs in
  Cookies.startsWith 91 cookie = false ->
  Cookies.startsWith 123 cookie = false ->
  Cookies.loadCookies loadJson cookie []
  = (fun entry => (entry.1, Cookies.upTo 61 entry.2)) <$> pairs
  /\ (Forall (fun entry => Forall (fun c => c ≠ 61%N) entry.2) pairs ->
      Cookies.getCookieString (Cookies.loadCookies loadJson cookie []) = cookie).
Proof.
  intros Hkeys Hwritable cookie Hbracket Hbrace.
  assert (Hload : Cookies.loadCookies loadJson cookie []
                  = (fun entry => (entry.1, Cookies.upTo 61 entry.2)) <$> pairs).
  { subst cookie. unfold Cookies.getCookieString in *.
    destruct pairs as [|[key value] pairs]; [done|].
    rewrite fmap_cons in *. simpl fst in *. simpl snd in *.
    set (items := (fun entry : jsString * jsString => entry.1 ++ [61%N] ++ entry.2) <$> pairs) in *.
    pose proof Hwritable as Hfirst. apply Forall_cons in Hfirst as [[Hkey Hvalue] _].
    simpl in Hkey, Hvalue.
    assert (Hhead : head (Args.join (lit "; ") ((key ++ [61%N] ++ value) :: items)) = head key).
    { rewrite join_head; [|by destruct key].
      destruct Hkey as (Hkey & _). by destruct key. }
    unfold Cookies.loadCookies.
    destruct (Args.join _ _) as [|c cookie] eqn:Hcookie.
    { destruct Hkey as (Hkey & _). by destruct key. }
    rewrite <- Hcookie in *. clear Hcookie c cookie.
    assert (Hplain : forall c,
              Cookies.startsWith c (Args.join (lit "; ") ((key ++ [61%N] ++ value) :: items)) = false ->
              Cookies.startsWith c (trim (Args.join (lit "; ") ((key ++ [61%N] ++ value) :: items)))
              = false).
    { intros c Hc. apply not_true_iff_false. intros Htrim.
      apply startsWith_trim in Htrim; [congruence|].
      rewrite Hhead. by destruct Hkey as (_ & _ & ? & _). }
    rewrite (Hplain 91%N), (Hplain 123%N) by done. simpl orb. cbv iota.
    rewrite split_join.
    - rewrite (foldl_addPair _ ((key, value) :: pairs)); [done| |done|done].
      constructor; [by left|]. subst items.
      clear. induction pairs as [|entry pairs IH]; [constructor|].
      rewrite !fmap_cons. constructor; [by right|exact IH].
    - change ((key ++ [61%N] ++ value) :: items)
        with ((fun entry : jsString * jsString => entry.1 ++ [61%N] ++ entry.2)
                <$> ((key, value) :: pairs)).
      apply Forall_fmap. eapply Forall_impl; [exact Hwritable|].
      intros [k v] [(_ & Hk & _) (_ & Hv & _)]. simpl in *.
      apply Forall_app. split; [|constructor; [done|exact Hv]].
      eapply Forall_impl; [exact Hk|]. by intros c [? _]. }
  split; [exact Hload|]. intros Hwhole. rewrite Hload. subst cookie.
  unfold Cookies.getCookieString. f_equal. rewrite <- list_fmap_compose.
  apply Forall_fmap_ext_1. eapply Forall_impl; [exact Hwhole|].
  intros [k v] Hv. simpl in *. by rewrite upTo_whole.
Qed.

(** Two cookies written in the usual way come back as written; a value
    with a [=] in it would come back cut. *)
Lemma cookies_round_trip_witness :
  let pairs := [(lit "MUSIC_U", lit "00AB12"); (lit "os", lit "pc")] in
  Cookies.getCookieString pairs = lit "MUSIC_U=00AB12; os=pc"
  /\ Cookies.loadCookies (fun _ store => store) (lit "MUSIC_U=00AB12; os=pc") [] = pairs
  /\ Cookies.loadCookies (fun _ store => store) (lit "token=YWJj=; os=pc") []
     = [(lit "token", lit "YWJj"); (lit "os", lit "pc")].
Proof.
  cbv zeta. split; [reflexivity|]. split; [|by vm_compute].
  destruct (cookies_round_trip (fun _ store => store)
              [(lit "MUSIC_U", lit "00AB12"); (lit "os", lit "pc")]) as [Hload _].
  - compute_done.
  - repeat constructor; vm_compute; try done; repeat constructor; done.
  - reflexivity.
  - reflexivity.
  - exact Hload.
Defined.
(** ** Durations *)

Lemma decimal_inj a b : decimal a = decimal b -> a = b.
Proof.
  intros Hab. pose proof (parseInt_decimal a) as Ha.
  rewrite Hab, parseInt_decimal in Ha. injection Ha. lia.
Qed.

Lemma seconds_two_digits s :
  (s < 60)%N -> padStart2 (decimal s) = [48 + s / 10; 48 + s mod 10]%N.
Proof.
  intros Hs.
  assert (Hall : forallb (fun n : nat =>
              bool_decide (padStart2 (decimal (N.of_nat n))
                           = [48 + N.of_nat n / 10; 48 + N.of_nat n mod 10]%N))
            (seq 0 60) = true) by (by vm_compute).
  rewrite forallb_forall in Hall. specialize (Hall (N.to_nat s)).
  rewrite N2Nat.id in Hall. eapply bool_decide_eq_true_1, Hall.
  apply in_seq. lia.
Qed.

(** X13.  [formatDuration] writes the minutes, a colon and the seconds in
    exactly two digits (below 60), and the text determines the duration to
    the second: two durations are written alike exactly when they have the
    same number of whole seconds. *)
Theorem formatDuration_reads_back ms :
  (ms < 2 ^ 53)%N ->
  let seconds := (ms / 1000)%N in
  formatDuration ms
  = decimal (seconds / 60)
    ++ [58; 48 + seconds mod 60 / 10; 48 + seconds mod 60 mod 10]%N
  /\ (seconds mod 60 / 10 < 6)%N
  /\ forall ms', (ms' < 2 ^ 53)%N ->
       formatDuration ms' = formatDuration ms <-> (ms' / 1000)%N = seconds.
Proof.
  intros _ seconds.
  assert (Hformat : forall ms,
            formatDuration ms
            = decimal (ms / 1000 / 60)
              ++ [58; 48 + ms / 1000 mod 60 / 10; 48 + ms / 1000 mod 60 mod 10]%N).
  { intros ms0. unfold formatDuration. cbv zeta.
    rewrite seconds_two_digits; [done|]. apply N.mod_lt. lia. }
  split_and!.
  - apply Hformat.
  - subst seconds. apply N.Div0.div_lt_upper_bound.
    pose proof (N.mod_lt (ms / 1000) 60). lia.
  - intros ms' _. split.
    + rewrite !Hformat. fold seconds. intros Hsame.
      apply app_inj_2 in Hsame as [Hminutes Hrest]; [|done].
      apply decimal_inj in Hminutes. injection Hrest as Htens Hones.
      pose proof (N.div_mod (ms' / 1000) 60 ltac:(lia)) as Hsplit'.
      pose proof (N.div_mod seconds 60 ltac:(lia)) as Hsplit.
      pose proof (N.div_mod (ms' / 1000 mod 60) 10 ltac:(lia)) as Hdigits'.
      pose proof (N.div_mod (seconds mod 60) 10 ltac:(lia)) as Hdigits.
      lia.
    + intros Hsame. unfold formatDuration. cbv zeta. fold seconds. by rewrite Hsame.
Qed.

(** 3 min 5.9 s is written [3:05], like every duration of 185 whole
    seconds. *)
Lemma formatDuration_reads_back_witness :
  formatDuration 185900 = lit "3:05"
  /\ (formatDuration 185000 = formatDuration 185900 <-> (185000 / 1000 = 185900 / 1000)%N).
Proof.
  destruct (formatDuration_reads_back 185900) as (Hform & _ & Hsame); [done|].
  split; [by vm_compute|]. apply (Hsame 185000%N). done.
Defined.
(** ** One requester and another *)

Section PerRequester.
Context (other : string).

#[local] Instance sameSessionAt_refl : Reflexive (sameSessionAt other).
Proof. by intros w. Qed.

#[local] Instance sameSessionAt_trans : Transitive (sameSessionAt other).
Proof. unfold sameSessionAt. intros w1 w2 w3 H12 H23. congruence. Qed.

Lemma sameSessionAt_same w w' : sameSessions w w' -> sameSessionAt other w w'.
Proof. intros (Hs & _). unfold sameSessionAt. by rewrite Hs. Qed.

Lemma ncmget_sameSessionAt cfg host s options keyword :
  getSessionKey s ≠ other ->
  respects (sameSessionAt other) (ncmget cfg host s options keyword).
Proof.
  intros Hother. apply ncmget_frame.
  - apply _.
  - intros X op w. apply sameSessionAt_same, sameSessions_perform.
  - done.
  - done.
  - intros cfg' s' w. apply sameSessionAt_same.
    destruct (checkRateLimit_frame cfg' s' w) as (Hs & Ht & Hn & _). done.
  - done.
  - intros opened w. unfold sameSessionAt. simpl. by rewrite lookup_insert_ne.
Qed.

Lemma middleware_sameSessionAt cfg host s :
  getSessionKey s ≠ other ->
  respects (sameSessionAt other) (middleware cfg host s).
Proof.
  intros Hother. apply middleware_frame.
  - apply _.
  - intros X op w. apply sameSessionAt_same, sameSessions_perform.
  - done.
  - done.
  - intros w. unfold sameSessionAt, clearSearchSession.
    destruct (searchSessions w !! getSessionKey s); [|done].
    simpl. by rewrite lookup_delete_ne.
Qed.
End PerRequester.

(** X14.  Selection sessions are per requester: whatever a requester sends,
    a command or a message for the middleware, the session of every other
    requester is afterwards what it was, open with the same candidates or
    absent. *)
Theorem sessions_are_per_requester cfg host s other w :
  getSessionKey s ≠ other ->
  (forall options keyword,
     searchSessions (run (ncmget cfg host s options keyword) w).2 !! other
     = searchSessions w !! other)
  /\ searchSessions (run (middleware cfg host s) w).2 !! other
     = searchSessions w !! other.
Proof.
  intros Hother. split; [intros options keyword|].
  - exact (@respects_run _ (sameSessionAt_refl other) (sameSessionAt_trans other) _ _
             (ncmget_sameSessionAt other cfg host s options keyword Hother) w).
  - exact (@respects_run _ (sameSessionAt_refl other) (sameSessionAt_trans other) _ _
             (middleware_sameSessionAt other cfg host s Hother) w).
Qed.

(** Alice has a selection open; Bob's search and Bob's reply leave it
    alone. *)
Lemma sessions_are_per_requester_witness :
  is_Some (searchSessions searchedOnce !! getSessionKey alice)
  /\ searchSessions (run (ncmget sampleConfig sampleHost bob noOptions "song")
                       (set_now (1700000000000 + 5000) searchedOnce)).2 !! getSessionKey alice
     = searchSessions searchedOnce !! getSessionKey alice
  /\ searchSessions (run (middleware sampleConfig sampleHost bob) searchedOnce).2
       !! getSessionKey alice
     = searchSessions searchedOnce !! getSessionKey alice.
Proof.
  destruct (sessions_are_per_requester sampleConfig sampleHost bob (getSessionKey alice)
              (set_now (1700000000000 + 5000) searchedOnce)) as [Hcommand _];
    [vm_compute; discriminate|].
  destruct (sessions_are_per_requester sampleConfig sampleHost bob (getSessionKey alice)
              searchedOnce) as [_ Hmessage]; [vm_compute; discriminate|].
  split; [vm_compute; by eexists|]. split; [apply Hcommand|apply Hmessage].
Defined.

(** ** One limiter key and another *)

Lemma replay_under_key cfg key calls : forall w1 w2,
  rateLimitMap w1 !! key = rateLimitMap w2 !! key ->
  verdictsUnder cfg key calls (replay cfg calls w1).1
  = (replay cfg (filter (fun call : Session * Z => limiterKey cfg call.1 = key) calls) w2).1.
Proof.
  unfold verdictsUnder.
  induction calls as [|[s t] calls IH]; intros w1 w2 Hkey; [done|].
  cbn [replay].
  assert (Hstep : forall w : World,
            rateLimitMap (checkRateLimit cfg s (set_now t w)).2 !! key
            = if decide (limiterKey cfg s = key)
              then rateLimitMap (checkRateLimit cfg s (set_now t w)).2 !! key
              else rateLimitMap w !! key).
  { intros w. destruct (decide (limiterKey cfg s = key)) as [|Hother]; [done|].
    unfold checkRateLimit. destruct (negb _); [done|]. cbv zeta.
    destruct (_ <? _); [done|]. simpl. by rewrite lookup_insert_ne. }
  destruct (decide (limiterKey cfg s = key)) as [Hs|Hs].
  - rewrite filter_cons_True by done. cbn [replay].
    assert (Hsame : (checkRateLimit cfg s (set_now t w1)).1
                    = (checkRateLimit cfg s (set_now t w2)).1
                    /\ rateLimitMap (checkRateLimit cfg s (set_now t w1)).2 !! key
                       = rateLimitMap (checkRateLimit cfg s (set_now t w2)).2 !! key).
    { unfold checkRateLimit. destruct (negb _); [done|]. cbv zeta.
      simpl now. simpl rateLimitMap. rewrite Hs, Hkey.
      destruct (_ <? _); [done|]. simpl. by rewrite !lookup_insert_eq. }
    destruct Hsame as [Hok Hmap].
    destruct (checkRateLimit cfg s (set_now t w1)) as [ok1 w1'].
    destruct (checkRateLimit cfg s (set_now t w2)) as [ok2 w2'].
    simpl in Hok, Hmap. subst ok2. specialize (IH w1' w2' Hmap).
    destruct (replay cfg calls w1') as [oks1 w1''].
    destruct (replay cfg (filter _ calls) w2') as [oks2 w2''].
    cbn [fst snd zip_with] in IH |- *.
    rewrite filter_cons_True by done. rewrite fmap_cons. cbn [snd]. by rewrite IH.
  - rewrite filter_cons_False by done.
    pose proof (Hstep w1) as Hmap. simpl in Hmap.
    destruct (checkRateLimit cfg s (set_now t w1)) as [ok1 w1'].
    simpl in Hmap. specialize (IH w1' w2 ltac:(congruence)).
    destruct (replay cfg calls w1') as [oks1 w1''].
    cbn [fst snd zip_with] in IH |- *.
    rewrite filter_cons_False by done. exact IH.
Qed.

(** X15.  The limiter keeps its keys apart: in any history of calls, the
    calls under one key get the verdicts they would get if the calls under
    every other key had never been made. *)
Theorem limiter_keys_are_independent cfg key calls w :
  verdictsUnder cfg key calls (replay cfg calls w).1
  = (replay cfg (filter (fun call : Session * Z => limiterKey cfg call.1 = key) calls) w).1.
Proof. by apply replay_under_key. Qed.
